(** * CryptoReels game core: a shallow embedding and its properties

    The development follows the three backend services of the repository:

    - [SymbolConfigurationService] (the symbol catalog, its payout tables
      and the administrative updates),
    - [SlotEngineService] (the random decoder [extractBits], the reel
      generator and the win evaluator),
    - [CascadingReelsService] (removal, drop, refill and the cascade loop).

    Modelling conventions.

    - A JavaScript string is the sequence of its UTF-16 code units; the
      model covers the strings whose code units are all below 256, one
      8-bit character of a [string] per code unit.  Symbol ids are
      strings.
    - Objects are read as maps of their own properties: [obj[key]] is an
      own-key lookup.  This is what the code does for every key that is
      not the name of a member of [Object.prototype] (see [inherited]);
      a statement that depends on the difference says so in a hypothesis.
    - [BigInt] values are [Z]; [>>], [<<] and [&] on them are [Z.shiftr],
      [Z.shiftl] and [Z.land], which have the same two's complement meaning
      (the limit an engine puts on the size of a [BigInt] is not
      modelled).
    - The [Number] that [extractBits] returns is an integer-valued double:
      it is a [Z] obtained by rounding to 53 significant bits (overflow to
      [Infinity], beyond [2^1024], is not modelled).
    - Payouts, weights, multipliers and the bet are doubles in the code
      and exact rationals [Q] here.  The two agree on what is stored,
      copied and compared, not on the results of arithmetic (a product
      of doubles can round, or underflow to 0).  So the statements about
      payouts are equalities of the very same sequence of operations the
      code performs, or comparisons of stored values; no statement rests
      on a law of arithmetic.
    - A payout table holds the keys 3, 4, 5 and 6, as the shipped tables
      do; [updateSymbolPayouts] is modelled for argument objects without
      further keys.
    - Reel heights are array lengths, hence [nat].
    - A thrown exception is the [Throw] case of [result]. *)

From Stdlib Require Import ZArith QArith Qround Qminmax List String Ascii Bool Lia.
Import ListNotations.

Open Scope string_scope.
Open Scope Z_scope.

(* ================================================================== *)
(** * Part I.  The embedding *)
(* ================================================================== *)

(** ** Exceptions *)

Inductive js_error : Type :=
| SyntaxError
| RangeError
| TypeError.

Inductive result (A : Type) : Type :=
| Ok (a : A)
| Throw (e : js_error).

Arguments Ok {A} a.
Arguments Throw {A} e.

(** ** The [BigInt(string)] conversion (ECMAScript [StringToBigInt])

    The string is trimmed of white space; the empty string is [0n];
    otherwise it must be a decimal integer with an optional sign, or an
    unsigned literal with prefix [0x], [0o] or [0b] (either case).  Any
    other text makes [BigInt] throw a [SyntaxError].  White space is what
    ECMAScript calls WhiteSpace and LineTerminator; among the code units
    below 256 these are tab, line feed, vertical tab, form feed, carriage
    return, space and the no-break space U+00A0. *)

Module JS.

Definition is_ws (c : ascii) : bool :=
  let n := nat_of_ascii c in
  (Nat.eqb n 9 || Nat.eqb n 10 || Nat.eqb n 11 || Nat.eqb n 12
   || Nat.eqb n 13 || Nat.eqb n 32 || Nat.eqb n 160)%bool.

Fixpoint ltrim (s : string) : string :=
  match s with
  | EmptyString => EmptyString
  | String c s' => if is_ws c then ltrim s' else s
  end.

Fixpoint rtrim (s : string) : string :=
  match s with
  | EmptyString => EmptyString
  | String c s' =>
      match rtrim s' with
      | EmptyString => if is_ws c then EmptyString else String c EmptyString
      | t => String c t
      end
  end.

Definition trim (s : string) : string := rtrim (ltrim s).

(** Value of a character as a digit in base 16, if it is one. *)
Definition hex_digit (c : ascii) : option Z :=
  let n := Z.of_nat (nat_of_ascii c) in
  if (48 <=? n) && (n <=? 57) then Some (n - 48)
  else if (97 <=? n) && (n <=? 102) then Some (n - 87)
  else if (65 <=? n) && (n <=? 70) then Some (n - 55)
  else None.

Definition digit_in (radix : Z) (c : ascii) : option Z :=
  match hex_digit c with
  | Some d => if d <? radix then Some d else None
  | None => None
  end.

(** Horner evaluation of a run of digits; [None] on a foreign character. *)
Fixpoint digits_from (radix : Z) (acc : Z) (s : string) : option Z :=
  match s with
  | EmptyString => Some acc
  | String c s' =>
      match digit_in radix c with
      | Some d => digits_from radix (acc * radix + d) s'
      | None => None
      end
  end.

(** A non-empty run of digits. *)
Definition digits (radix : Z) (s : string) : option Z :=
  match s with
  | EmptyString => None
  | _ => digits_from radix 0 s
  end.

Definition StrIntegerLiteral (s : string) : option Z :=
  match s with
  | String "0" (String p body) =>
      if (Ascii.eqb p "x" || Ascii.eqb p "X")%bool then digits 16 body
      else if (Ascii.eqb p "o" || Ascii.eqb p "O")%bool then digits 8 body
      else if (Ascii.eqb p "b" || Ascii.eqb p "B")%bool then digits 2 body
      else digits 10 s
  | String "+" body => digits 10 body
  | String "-" body => option_map Z.opp (digits 10 body)
  | _ => digits 10 s
  end.

Definition StringToBigInt (s : string) : option Z :=
  match trim s with
  | EmptyString => Some 0
  | t => StrIntegerLiteral t
  end.

Definition BigInt (s : string) : result Z :=
  match StringToBigInt s with
  | Some v => Ok v
  | None => Throw SyntaxError
  end.

(** [Number(bigint)]: the nearest double, ties to even.  A value of at most
    53 significant bits is kept; otherwise the [k] low bits are rounded
    away. *)
Definition Number (z : Z) : Z :=
  let m := Z.abs z in
  let k := Z.log2 m + 1 - 53 in
  if k <=? 0 then z
  else
    let q := Z.shiftr m k in
    let r := Z.land m (Z.ones k) in
    let half := Z.shiftl 1 (k - 1) in
    let q' := if ((half <? r) || ((r =? half) && Z.odd q))%bool
              then q + 1 else q in
    Z.sgn z * Z.shiftl q' k.

End JS.

(** ** The random decoder: [SlotEngineService.extractBits] *)

Definition extractBits (vrfNumber : string) (startBit bitCount : Z) : result Z :=
  match JS.BigInt vrfNumber with
  | Throw e => Throw e
  | Ok vrfBigInt =>
      let mask := Z.shiftl 1 bitCount - 1 in
      let extractedBits := Z.land (Z.shiftr vrfBigInt startBit) mask in
      Ok (JS.Number extractedBits)
  end.

(** The format the request handler demands of a random value:
    [/^0x[0-9a-fA-F]+$/]. *)
Definition all_hex (s : string) : bool :=
  forallb (fun c => match JS.hex_digit c with Some _ => true | None => false end)
          (list_ascii_of_string s).

Definition is_hex_literal (s : string) : bool :=
  match s with
  | String "0" (String "x" body) =>
      (negb (String.eqb body EmptyString) && all_hex body)%bool
  | _ => false
  end.


(** ** Association lists keyed by strings

    The catalog objects are iterated in insertion order
    ([Object.values], [Object.entries]), so they are association lists
    rather than unordered maps.  Keys are unique in a JavaScript object. *)

Fixpoint lookup {A : Type} (k : string) (m : list (string * A)) : option A :=
  match m with
  | [] => None
  | (k', v) :: m' => if String.eqb k k' then Some v else lookup k m'
  end.

(** [obj[k] = f(obj[k])] for an existing key. *)
Definition update {A : Type} (k : string) (f : A -> A) (m : list (string * A))
  : list (string * A) :=
  map (fun kv => if String.eqb k (fst kv) then (fst kv, f (snd kv)) else kv) m.



Definition Qltb (a b : Q) : bool := negb (Qle_bool b a).

(** ** Grid cells

    A cell of a reel holds a symbol id, [null] (a removed symbol) or
    [undefined] (what indexing an empty weighted pool yields). *)

Inductive cell : Type :=
| Sym (s : string)
| Null
| Undefined.

(** Strict equality [===]. *)
Definition cell_eqb (a b : cell) : bool :=
  match a, b with
  | Sym x, Sym y => String.eqb x y
  | Null, Null => true
  | Undefined, Undefined => true
  | _, _ => false
  end.

(** The property name a cell denotes when used as an object key. *)
Definition property_key (c : cell) : string :=
  match c with
  | Sym s => s
  | Null => "null"
  | Undefined => "undefined"
  end.

(** ** [SymbolConfigurationService] *)

Inductive symbol_type : Type :=
| regular
| wild
| scatter
| nft_premium.

Definition symbol_type_eqb (a b : symbol_type) : bool :=
  match a, b with
  | regular, regular | wild, wild | scatter, scatter
  | nft_premium, nft_premium => true
  | _, _ => false
  end.

(** A symbol definition.  The presentation fields ([rarity],
    [description], [imageUrl], [animationData], [soundEffects]) play no
    part in the game logic and are left out. *)
Record symbol_def : Type := mkSymbol {
  sym_id : string;
  sym_name : string;
  sym_type : symbol_type;
  sym_value : Q;
  sym_weight : Q
}.

(** A payout table [{3: _, 4: _, 5: _, 6: _}]. *)
Record payout_table : Type := mkPayouts {
  p3 : Q; p4 : Q; p5 : Q; p6 : Q
}.

(** [payoutTable[count]]: [None] is [undefined]. *)
Definition payout_at (t : payout_table) (count : nat) : option Q :=
  match count with
  | 3%nat => Some (p3 t)
  | 4%nat => Some (p4 t)
  | 5%nat => Some (p5 t)
  | 6%nat => Some (p6 t)
  | _ => None
  end.

Inductive special_behavior : Type :=
| substitution (substitutes doesNotSubstitute : list string)
| bonus_trigger (minRequired : nat) (bonusSpins : list (nat * nat))
| premium_bonus.

(** The state of the service: [this.symbols], [this.payoutTables],
    [this.specialBehaviors]. *)
Record config : Type := mkConfig {
  symbols : list (string * symbol_def);
  payoutTables : list (string * payout_table);
  specialBehaviors : list (string * special_behavior)
}.

(** An entry of [this.symbols]: the key is the symbol's own [id]. *)
Definition symbol_entry (i n : string) (t : symbol_type) (v w : Q)
  : string * symbol_def :=
  (i, mkSymbol i n t v w).

Definition initializeSymbolLibrary : list (string * symbol_def) :=
  [ symbol_entry "diamond_hands" "Diamond Hands" regular 10 45;
    symbol_entry "crypto_wallet" "Crypto Wallet" regular 15 40;
    symbol_entry "blockchain_block" "Blockchain Block" regular 20 35;
    symbol_entry "defi_token" "DeFi Token" regular 30 30;
    symbol_entry "nft_collectible" "NFT Collectible" regular 40 25;
    symbol_entry "sol" "Solana (SOL)" regular 60 22;
    symbol_entry "eth" "Ethereum (ETH)" regular 80 18;
    symbol_entry "btc" "Bitcoin (BTC)" regular 100 15;
    symbol_entry "wild" "Golden Crypto Coin" wild 0 5;
    symbol_entry "scatter" "NFT Marketplace" scatter 0 3;
    symbol_entry "nft_character" "NFT Character" nft_premium 150 8 ].

Definition initializePayoutTables : list (string * payout_table) :=
  [ ("diamond_hands", mkPayouts 0.5 2.5 10 50);
    ("crypto_wallet", mkPayouts 0.75 3.75 15 75);
    ("blockchain_block", mkPayouts 1 5 20 100);
    ("defi_token", mkPayouts 1.5 7.5 30 150);
    ("nft_collectible", mkPayouts 2 10 40 200);
    ("sol", mkPayouts 3 15 60 300);
    ("eth", mkPayouts 4 20 80 400);
    ("btc", mkPayouts 5 25 100 500);
    ("nft_character", mkPayouts 7.5 37.5 150 750);
    ("wild", mkPayouts 0 0 0 0);
    ("scatter", mkPayouts 0 0 0 0) ]%Q.

Definition initializeSpecialBehaviors : list (string * special_behavior) :=
  [ ("wild",
     substitution
       [ "diamond_hands"; "crypto_wallet"; "blockchain_block"; "defi_token";
         "nft_collectible"; "sol"; "eth"; "btc"; "nft_character" ]
       [ "scatter" ]);
    ("scatter",
     bonus_trigger 3 [ (3, 10); (4, 15); (5, 20); (6, 25) ]%nat);
    ("nft_character", premium_bonus) ].

(** The service as its constructor leaves it. *)
Definition SymbolConfigurationService : config :=
  mkConfig initializeSymbolLibrary initializePayoutTables
           initializeSpecialBehaviors.

Definition getSymbol (cfg : config) (symbolId : string) : option symbol_def :=
  lookup symbolId (symbols cfg).

Definition getSymbolPayout (cfg : config) (symbolId : string) (count : nat) : Q :=
  match lookup symbolId (payoutTables cfg) with
  | None => 0
  | Some payoutTable =>
      match payout_at payoutTable count with
      | None => 0
      | Some v => if Qeq_bool v 0 then 0 else v
      end
  end.

Definition getSpecialBehavior (cfg : config) (symbolId : string)
  : option special_behavior :=
  lookup symbolId (specialBehaviors cfg).

(** [l.includes(x)] on an array of strings. *)
Definition includes (x : cell) (l : list string) : bool :=
  existsb (fun s => cell_eqb x (Sym s)) l.

Definition canSubstitute (cfg : config) (wildSymbol : string) (targetSymbol : cell)
  : bool :=
  match getSpecialBehavior cfg wildSymbol with
  | Some (substitution substitutes doesNotSubstitute) =>
      (includes targetSymbol substitutes
       && negb (includes targetSymbol doesNotSubstitute))%bool
  | _ => false
  end.

(** [for (let i = 0; i < symbol.weight; i++) weightedArray.push(symbol.id)]
    runs [ceil(weight)] times for a positive weight and not at all
    otherwise. *)
Definition createWeightedSymbolArray (cfg : config) (includeSpecial : bool)
  (excludeSymbols : list string) : list string :=
  flat_map
    (fun kv =>
       let symbol := snd kv in
       if includes (Sym (sym_id symbol)) excludeSymbols then []
       else if (negb includeSpecial
                && negb (symbol_type_eqb (sym_type symbol) regular))%bool then []
       else repeat (sym_id symbol) (Z.to_nat (Qceiling (sym_weight symbol))))
    (symbols cfg).

Definition set_weight (w : Q) (s : symbol_def) : symbol_def :=
  mkSymbol (sym_id s) (sym_name s) (sym_type s) (sym_value s) w.

(** Returns the boolean the method returns, and the service afterwards.
    [this.symbols[symbolId]] is the own-key [lookup]: the method is
    modelled for ids that are not names of members of [Object.prototype]
    (see [inherited]). *)
Definition updateSymbolWeight (cfg : config) (symbolId : string) (newWeight : Q)
  : bool * config :=
  match lookup symbolId (symbols cfg) with
  | None => (false, cfg)
  | Some _ =>
      if Qltb newWeight 0 then (false, cfg)
      else (true,
            mkConfig (update symbolId (set_weight newWeight) (symbols cfg))
                     (payoutTables cfg) (specialBehaviors cfg))
  end.

(** The values an entry of a caller-supplied payout object can hold. *)
Inductive js_value : Type :=
| JNumber (q : Q)
| JString (s : string)
| JBoolean (b : bool)
| JNull
| JUndefined.

(** The [newPayouts] argument when it is not [null] or [undefined], read
    at the keys the method looks at: [None] is an absent key.  A number,
    a boolean or a string passed for [newPayouts] is read the same way (a
    number has none of the keys, a string has characters at them).  The
    argument has no own keys besides 3, 4, 5 and 6. *)
Record payout_object : Type := mkPayoutObject {
  at3 : option js_value;
  at4 : option js_value;
  at5 : option js_value;
  at6 : option js_value
}.

(** [newPayouts.hasOwnProperty(key) && typeof newPayouts[key] === 'number'] *)
Definition own_number (e : option js_value) : option Q :=
  match e with
  | Some (JNumber q) => Some q
  | _ => None
  end.

(** The method on an argument whose properties can be read; as for
    [updateSymbolWeight], the id is no name of a member of
    [Object.prototype].  The table stored is the copy of the argument,
    which holds the keys 3, 4, 5 and 6. *)
Definition updateSymbolPayouts (cfg : config) (symbolId : string)
  (newPayouts : payout_object) : bool * config :=
  match lookup symbolId (symbols cfg), lookup symbolId (payoutTables cfg) with
  | Some _, Some _ =>
      match own_number (at3 newPayouts), own_number (at4 newPayouts),
            own_number (at5 newPayouts), own_number (at6 newPayouts) with
      | Some a, Some b, Some c, Some d =>
          (true,
           mkConfig (symbols cfg)
                    (update symbolId (fun _ => mkPayouts a b c d) (payoutTables cfg))
                    (specialBehaviors cfg))
      | _, _, _, _ => (false, cfg)
      end
  | _, _ => (false, cfg)
  end.



(** The findings of [validateConfiguration]. *)
Inductive config_error : Type :=
| MissingProperties (id : string)
| InvalidWeight (id : string) (w : Q)
| MissingPayoutTable (id : string).

Inductive config_warning : Type :=
| UnknownSymbolPayouts (id : string)
| PayoutsNotIncreasing (id : string).

Record validation : Type := mkValidation {
  isValid : bool;
  errors : list config_error;
  warnings : list config_warning
}.

Definition is_none {A : Type} (o : option A) : bool :=
  match o with None => true | Some _ => false end.

Definition validateConfiguration (cfg : config) : validation :=
  let errs :=
    flat_map
      (fun kv =>
         let id := fst kv in
         let symbol := snd kv in
         ((if String.eqb (sym_name symbol) EmptyString then [MissingProperties id] else [])
          ++ (if Qle_bool (sym_weight symbol) 0
              then [InvalidWeight id (sym_weight symbol)] else [])
          ++ (if (symbol_type_eqb (sym_type symbol) regular
                  && is_none (lookup id (payoutTables cfg)))%bool
              then [MissingPayoutTable id] else []))%list)
      (symbols cfg) in
  let warns :=
    flat_map
      (fun kv =>
         let id := fst kv in
         let payouts := snd kv in
         ((if is_none (lookup id (symbols cfg)) then [UnknownSymbolPayouts id] else [])
          ++ (if Qltb (p4 payouts) (p3 payouts) then [PayoutsNotIncreasing id] else [])
          ++ (if Qltb (p5 payouts) (p4 payouts) then [PayoutsNotIncreasing id] else [])
          ++ (if Qltb (p6 payouts) (p5 payouts) then [PayoutsNotIncreasing id] else []))%list)
      (payoutTables cfg) in
  mkValidation (is_none (head errs)) errs warns.

(** ** Decoder reads

    Every function that calls [extractBits] is written in a small monad
    that carries the exception and records, in order, the reads made of
    the random value: where each started and how many bits it took. *)

Record read : Type := mkRead { startBit : Z; bitCount : Z }.

Definition Dec (A : Type) : Type := result (A * list read).

Definition ret {A : Type} (a : A) : Dec A := Ok (a, []).

Definition bind {A B : Type} (m : Dec A) (f : A -> Dec B) : Dec B :=
  match m with
  | Throw e => Throw e
  | Ok (a, l1) =>
      match f a with
      | Throw e => Throw e
      | Ok (b, l2) => Ok (b, (l1 ++ l2)%list)
      end
  end.

Declare Scope dec_scope.
Delimit Scope dec_scope with dec.
Notation "x <- m ;; k" := (bind m (fun x => k))
  (at level 61, m at next level, right associativity) : dec_scope.
Notation "' p <- m ;; k" := (bind m (fun x => match x with p => k end))
  (at level 61, p pattern, m at next level, right associativity) : dec_scope.

(** [this.extractBits(vrfNumber, startBit, bitCount)], recorded. *)
Definition readBits (vrfNumber : string) (start count : Z) : Dec Z :=
  match extractBits vrfNumber start count with
  | Ok v => Ok (v, [mkRead start count])
  | Throw e => Throw e
  end.

(** ** [SlotEngineService] *)

Record reel : Type := mkReel {
  reelIndex : option nat;
  height : nat;
  reel_symbols : list cell
}.

Definition maxWaysToWin : Z := 117649.

(** [JSON.parse(JSON.stringify(reels))]: the copy is structural; an
    [undefined] array element is written as [null]. *)
Definition json_cell (c : cell) : cell :=
  match c with
  | Undefined => Null
  | _ => c
  end.

Definition deepCopy (reels : list reel) : list reel :=
  map (fun r => mkReel (reelIndex r) (height r) (map json_cell (reel_symbols r)))
      reels.

(** The loop [for (let i = 0; i < 6; i++)] with [n] iterations left. *)
Fixpoint generateReelConfiguration_loop (vrfNumber : string) (n i : nat)
  (vrfIndex : Z) (reels : list reel) : Dec (list reel) :=
  match n with
  | O => ret reels
  | S n' =>
      (heightBits <- readBits vrfNumber vrfIndex 3 ;;
       let reelHeight := 2 + Z.rem heightBits 6 in
       generateReelConfiguration_loop vrfNumber n' (S i) (vrfIndex + 3)
         (reels ++ [mkReel (Some i) (Z.to_nat reelHeight) []]))%dec
  end.

Definition generateReelConfiguration (vrfNumber : string) : Dec (list reel) :=
  generateReelConfiguration_loop vrfNumber 6 0 0 [].

(** [weightedSymbols[symbolBits % weightedSymbols.length]]: with an empty
    pool the index is [NaN] and the element [undefined]. *)
Definition pick (weightedSymbols : list string) (symbolBits : Z) : cell :=
  match weightedSymbols with
  | [] => Undefined
  | _ =>
      let symbolIndex := Z.rem symbolBits (Z.of_nat (List.length weightedSymbols)) in
      if symbolIndex <? 0 then Undefined
      else match nth_error weightedSymbols (Z.to_nat symbolIndex) with
           | Some s => Sym s
           | None => Undefined
           end
  end.

(** The inner loop of [populateReels] on one reel, [n] positions left;
    returns the symbols and the advanced [vrfIndex]. *)
Fixpoint populateReel (vrfNumber : string) (weightedSymbols : list string)
  (n : nat) (vrfIndex : Z) (syms : list cell) : Dec (list cell * Z) :=
  match n with
  | O => ret (syms, vrfIndex)
  | S n' =>
      (symbolBits <- readBits vrfNumber vrfIndex 8 ;;
       let selectedSymbol := pick weightedSymbols symbolBits in
       populateReel vrfNumber weightedSymbols n' (vrfIndex + 8)
                    (syms ++ [selectedSymbol]))%dec
  end.

Fixpoint populateReels_loop (vrfNumber : string) (weightedSymbols : list string)
  (reels : list reel) (vrfIndex : Z) : Dec (list reel) :=
  match reels with
  | [] => ret []
  | r :: rest =>
      ('(syms, vrfIndex') <- populateReel vrfNumber weightedSymbols (height r)
                                         vrfIndex (reel_symbols r) ;;
       rest' <- populateReels_loop vrfNumber weightedSymbols rest vrfIndex' ;;
       ret (mkReel (reelIndex r) (height r) syms :: rest'))%dec
  end.

Definition populateReels (cfg : config) (vrfNumber : string)
  (reelConfig : list reel) : Dec (list reel) :=
  let vrfIndex := 18 in
  let populatedReels := deepCopy reelConfig in
  let weightedSymbols := createWeightedSymbolArray cfg true [] in
  populateReels_loop vrfNumber weightedSymbols populatedReels vrfIndex.

Record position : Type := mkPosition {
  pos_reel : nat;
  pos_position : nat;
  pos_symbol : cell
}.

Record combination : Type := mkCombination {
  comb_symbol : cell;
  comb_length : nat;
  comb_positions : list position;
  basePayout : Q;
  waysCount : Z
}.

Record wins : Type := mkWins {
  combinations : list combination;
  totalWaysToWin : Z;
  hasWins : bool
}.

(** The test of the inner loop of [findSymbolCombination]. *)
Definition matches (cfg : config) (targetSymbol symbol : cell) : bool :=
  (cell_eqb symbol targetSymbol
   || (canSubstitute cfg "wild" targetSymbol && cell_eqb symbol (Sym "wild")))%bool.

(** Index of the first matching symbol of a reel, scanning from [i]. *)
Fixpoint find_match (cfg : config) (targetSymbol : cell) (i : nat)
  (syms : list cell) : option (nat * cell) :=
  match syms with
  | [] => None
  | symbol :: rest =>
      if matches cfg targetSymbol symbol then Some (i, symbol)
      else find_match cfg targetSymbol (S i) rest
  end.

(** The outer loop of [findSymbolCombination] from reel [reelIndex] on. *)
Fixpoint findSymbolCombination_from (cfg : config) (targetSymbol : cell)
  (reelIndex : nat) (reels : list reel) : list position :=
  match reels with
  | [] => []
  | r :: rest =>
      match find_match cfg targetSymbol 0 (reel_symbols r) with
      | Some (symbolIndex, symbol) =>
          mkPosition reelIndex symbolIndex symbol
          :: findSymbolCombination_from cfg targetSymbol (S reelIndex) rest
      | None => []
      end
  end.

Definition findSymbolCombination (cfg : config) (reelResult : list reel)
  (targetSymbol : cell) : list position :=
  findSymbolCombination_from cfg targetSymbol 0 reelResult.

Definition calculateWaysToWin (reelResult : list reel) : Z :=
  Z.min (fold_left (fun waysToWin r => waysToWin * Z.of_nat (height r))
                   reelResult 1)
        maxWaysToWin.

Definition countWaysForCombination (reelResult : list reel) (symbol : cell)
  (combinationLength : nat) : Z :=
  fold_left
    (fun ways r =>
       let symbolCount :=
         fold_left
           (fun n reelSymbol =>
              if (cell_eqb reelSymbol symbol
                  || cell_eqb reelSymbol (Sym "wild"))%bool
              then n + 1 else n)
           (reel_symbols r) 0 in
       ways * symbolCount)
    (firstn combinationLength reelResult) 1.

Definition calculateSymbolPayout (cfg : config) (symbol : cell) (len : nat) : Q :=
  getSymbolPayout cfg (property_key symbol) len.

(** A [Set] filled in reading order and listed in insertion order. *)
Definition set_add (acc : list cell) (c : cell) : list cell :=
  if existsb (cell_eqb c) acc then acc else (acc ++ [c])%list.

Definition getUniqueSymbols (reelResult : list reel) : list cell :=
  fold_left (fun acc r => fold_left set_add (reel_symbols r) acc) reelResult [].

(** What one symbol contributes to [winningCombinations]. *)
Definition combination_of (cfg : config) (reelResult : list reel) (symbol : cell)
  : list combination :=
  if cell_eqb symbol (Sym "scatter") then []
  else
    let combination := findSymbolCombination cfg reelResult symbol in
    if (3 <=? List.length combination)%nat then
      let payout := calculateSymbolPayout cfg symbol (List.length combination) in
      if Qltb 0 payout then
        [mkCombination symbol (List.length combination) combination payout
           (countWaysForCombination reelResult symbol (List.length combination))]
      else []
    else [].

Definition calculateWinningCombinations (cfg : config) (reelResult : list reel)
  : wins :=
  let waysToWin := calculateWaysToWin reelResult in
  let symbolsOnReels := getUniqueSymbols reelResult in
  let winningCombinations := flat_map (combination_of cfg reelResult) symbolsOnReels in
  mkWins winningCombinations waysToWin
         (negb (Nat.eqb (List.length winningCombinations) 0)).

Definition calculateTotalPayout (winningCombinations : list combination)
  (betAmount : Q) : Q :=
  fold_left
    (fun totalPayout c => (totalPayout + basePayout c * betAmount)%Q)
    winningCombinations 0%Q.

Definition validateReelConfiguration (reelConfig : list reel)
  (requireSymbols : bool) : bool :=
  (Nat.eqb (List.length reelConfig) 6
   && forallb
        (fun r =>
           let heightValid := ((2 <=? height r)%nat && (height r <=? 7)%nat)%bool in
           if negb heightValid then false
           else if requireSymbols
                then Nat.eqb (List.length (reel_symbols r)) (height r)
                else true)
        reelConfig)%bool.

(** ** [CascadingReelsService] *)

Definition cascadeMultipliers : list Q := [1; 2; 3; 5; 8; 12; 20]%Q.

Definition maxCascades : nat := 6.

(** [array.map((x, i) => f(i, x))], counting from [i]. *)
Fixpoint mapi_from {A B : Type} (f : nat -> A -> B) (i : nat) (l : list A)
  : list B :=
  match l with
  | [] => []
  | x :: l' => f i x :: mapi_from f (S i) l'
  end.

(** The set of keys [`${reel}-${position}`]; a pair of indices stands for
    its key. *)
Definition symbolsToRemove (winningCombinations : list combination)
  : list (nat * nat) :=
  flat_map (fun c => map (fun p => (pos_reel p, pos_position p)) (comb_positions c))
           winningCombinations.

Definition has_key (keys : list (nat * nat)) (r i : nat) : bool :=
  existsb (fun k => (Nat.eqb (fst k) r && Nat.eqb (snd k) i)%bool) keys.

Definition removeWinningSymbols (reelResult : list reel)
  (winningCombinations : list combination) : list reel :=
  let modifiedReels := deepCopy reelResult in
  let keys := symbolsToRemove winningCombinations in
  mapi_from
    (fun ri r =>
       mkReel (reelIndex r) (height r)
         (mapi_from (fun si symbol => if has_key keys ri si then Null else symbol)
                    0%nat (reel_symbols r)))
    0%nat modifiedReels.

Definition not_null (c : cell) : bool := negb (cell_eqb c Null).

(** The array [newSymbols] of one reel: cell [height - 1 - i] receives
    [remainingSymbols[remainingSymbols.length - 1 - i]] while [i] is below
    the number of remaining symbols, and [null] above. *)
Definition drop_cells (h : nat) (syms : list cell) : list cell :=
  let remainingSymbols := filter not_null syms in
  let len := List.length remainingSymbols in
  map (fun j =>
         let i := (h - 1 - j)%nat in
         if (i <? len)%nat then nth (len - 1 - i) remainingSymbols Null
         else Null)
      (seq 0 h).

Definition dropSymbolsDown (reelResult : list reel) : list reel :=
  map (fun r => mkReel (reelIndex r) (height r)
                       (drop_cells (height r) (reel_symbols r)))
      (deepCopy reelResult).

(** The inner [forEach] of [generateNewSymbols] on one reel; returns the
    cells and the advanced [currentOffset]. *)
Fixpoint refill_cells (vrfNumber : string) (weightedSymbols : list string)
  (syms : list cell) (currentOffset : Z) : Dec (list cell * Z) :=
  match syms with
  | [] => ret ([], currentOffset)
  | symbol :: rest =>
      if cell_eqb symbol Null then
        (symbolBits <- readBits vrfNumber currentOffset 8 ;;
         let newSymbol := pick weightedSymbols symbolBits in
         '(rest', off) <- refill_cells vrfNumber weightedSymbols rest
                                       (currentOffset + 8) ;;
         ret (newSymbol :: rest', off))%dec
      else
        ('(rest', off) <- refill_cells vrfNumber weightedSymbols rest
                                       currentOffset ;;
         ret (symbol :: rest', off))%dec
  end.

Fixpoint refill_reels (vrfNumber : string) (weightedSymbols : list string)
  (reels : list reel) (currentOffset : Z) : Dec (list reel) :=
  match reels with
  | [] => ret []
  | r :: rest =>
      ('(syms, off) <- refill_cells vrfNumber weightedSymbols (reel_symbols r)
                                    currentOffset ;;
       rest' <- refill_reels vrfNumber weightedSymbols rest off ;;
       ret (mkReel (reelIndex r) (height r) syms :: rest'))%dec
  end.

Definition generateNewSymbols (cfg : config) (reelResult : list reel)
  (vrfNumber : string) (vrfOffset : Z) : Dec (list reel) :=
  let newReels := deepCopy reelResult in
  let weightedSymbols := createWeightedSymbolArray cfg true [] in
  refill_reels vrfNumber weightedSymbols newReels vrfOffset.

Definition calculateVrfBitsNeeded (reelResult : list reel) : Z :=
  let emptyPositions :=
    fold_left
      (fun n r =>
         fold_left (fun n symbol => if cell_eqb symbol Null then n + 1 else n)
                   (reel_symbols r) n)
      reelResult 0 in
  emptyPositions * 8.

Definition getCascadeMultiplier (cascadeLevel : nat) : Q :=
  nth (Nat.min cascadeLevel (List.length cascadeMultipliers - 1))
      cascadeMultipliers 0%Q.

Record cascade_round : Type := mkRound {
  level : nat;
  reelState : list reel;
  winningCombinations : list combination;
  multiplier : Q;
  levelPayout : Q;
  totalPayout : Q
}.

(** The local variables of [processCascadingReels]. *)
Record cascade_state : Type := mkState {
  cascadeResults : list cascade_round;
  currentReels : list reel;
  vrfOffset : Z;
  cascadeLevel : nat;
  totalWinnings : Q;
  currentWins : wins
}.

(** The [while] loop of [processCascadingReels].  Each iteration raises
    [cascadeLevel], which the loop condition bounds by [maxCascades]; [fuel]
    counts the iterations still allowed and is started at [maxCascades]. *)
Fixpoint cascade_loop (cfg : config) (vrfNumber : string) (betAmount : Q)
  (fuel : nat) (st : cascade_state) : Dec cascade_state :=
  match fuel with
  | O => ret st
  | S fuel' =>
      if (hasWins (currentWins st) && (cascadeLevel st <? maxCascades)%nat)%bool
      then
        let cascadeLevel' := S (cascadeLevel st) in
        let removed :=
          removeWinningSymbols (currentReels st) (combinations (currentWins st)) in
        let dropped := dropSymbolsDown removed in
        (refilled <- generateNewSymbols cfg dropped vrfNumber (vrfOffset st) ;;
         let vrfOffset' := vrfOffset st + calculateVrfBitsNeeded refilled in
         let cascadeWins := calculateWinningCombinations cfg refilled in
         if hasWins cascadeWins then
           let cascadeMultiplier :=
             nth (Nat.min cascadeLevel' (List.length cascadeMultipliers - 1))
                 cascadeMultipliers 0%Q in
           let basePayout := calculateTotalPayout (combinations cascadeWins) betAmount in
           let multipliedPayout := (basePayout * cascadeMultiplier)%Q in
           let totalWinnings' := (totalWinnings st + multipliedPayout)%Q in
           cascade_loop cfg vrfNumber betAmount fuel'
             (mkState
                (cascadeResults st
                 ++ [mkRound cascadeLevel' (deepCopy refilled)
                       (combinations cascadeWins) cascadeMultiplier
                       multipliedPayout totalWinnings'])
                refilled vrfOffset' cascadeLevel' totalWinnings' cascadeWins)
         else
           ret (mkState (cascadeResults st) refilled vrfOffset' cascadeLevel'
                        (totalWinnings st) (currentWins st)))%dec
      else ret st
  end.

Record cascade_result : Type := mkResult {
  cascades : list cascade_round;
  finalReelState : list reel;
  totalCascades : nat;
  res_totalWinnings : Q;
  maxMultiplierReached : Q
}.

(** [Math.max(...xs)] of a non-empty array. *)
Definition Math_max (x : Q) (xs : list Q) : Q := fold_left Qmax xs x.

Definition finish (st : cascade_state) : cascade_result :=
  mkResult (cascadeResults st) (currentReels st)
           (List.length (cascadeResults st)) (totalWinnings st)
           (match map multiplier (cascadeResults st) with
            | [] => 1%Q
            | m :: ms => Math_max m ms
            end).

Definition processCascadingReels (cfg : config) (initialReelResult : list reel)
  (vrfNumber : string) (betAmount : Q) : Dec cascade_result :=
  let currentReels := deepCopy initialReelResult in
  let vrfOffset := 256 in
  let cascadeLevel := 0%nat in
  let totalWinnings := 0%Q in
  let initialWins := calculateWinningCombinations cfg currentReels in
  if hasWins initialWins then
    let initialPayout := calculateTotalPayout (combinations initialWins) betAmount in
    let totalWinnings := (totalWinnings + initialPayout)%Q in
    let round0 :=
      mkRound 0 (deepCopy currentReels) (combinations initialWins)
              (nth 0 cascadeMultipliers 0%Q) initialPayout totalWinnings in
    (st <- cascade_loop cfg vrfNumber betAmount maxCascades
             (mkState [round0] currentReels vrfOffset cascadeLevel
                      totalWinnings initialWins) ;;
     ret (finish st))%dec
  else
    ret (finish (mkState [] currentReels vrfOffset cascadeLevel totalWinnings
                         initialWins)).

(** [simulateCascadeStep]: the single step offered for testing.  It counts
    the bits a refill needs on the reels as they are after removal, before
    the empty cells are filled. *)
Record cascade_step : Type := mkStep {
  step_reelState : list reel;
  step_winningCombinations : list combination;
  step_hasWins : bool;
  vrfBitsUsed : Z
}.

Definition simulateCascadeStep (cfg : config) (reelResult : list reel)
  (winningCombinations : list combination) (vrfNumber : string) (vrfOffset : Z)
  : Dec cascade_step :=
  let removed := removeWinningSymbols reelResult winningCombinations in
  let vrfBitsUsed := calculateVrfBitsNeeded removed in
  let dropped := dropSymbolsDown removed in
  (refilled <- generateNewSymbols cfg dropped vrfNumber vrfOffset ;;
   let newWins := calculateWinningCombinations cfg refilled in
   ret (mkStep refilled (combinations newWins) (hasWins newWins) vrfBitsUsed))%dec.

(** The three engine calls the request handler makes for a spin, in its
    order: heights, population, cascade. *)
Definition spin (cfg : config) (vrfNumber : string) (betAmount : Q)
  : Dec (list reel * cascade_result) :=
  (reelConfig <- generateReelConfiguration vrfNumber ;;
   populatedReels <- populateReels cfg vrfNumber reelConfig ;;
   cascadeResult <- processCascadingReels cfg populatedReels vrfNumber betAmount ;;
   ret (populatedReels, cascadeResult))%dec.

(** ** Definitions used to state the properties *)

(** The characters of a string. *)
Definition chars (s : string) : list ascii := list_ascii_of_string s.

(** A non-empty run of decimal digits, with no prefix at all. *)
Definition is_decimal (s : string) : bool :=
  (negb (String.eqb s EmptyString)
   && forallb (fun c => match JS.digit_in 10 c with Some _ => true | None => false end)
              (chars s))%bool.

(** The characters that can occur in a string [BigInt] accepts: white
    space, hexadecimal digits, the prefix letters and the signs. *)
Definition bigint_char (c : ascii) : bool :=
  (JS.is_ws c
   || match JS.hex_digit c with Some _ => true | None => false end
   || Ascii.eqb c "x" || Ascii.eqb c "X" || Ascii.eqb c "o" || Ascii.eqb c "O"
   || Ascii.eqb c "+" || Ascii.eqb c "-")%bool.

(** A non-empty string of digits of the radix. *)
Definition digit_run (radix : Z) (s : string) : bool :=
  (negb (String.eqb s EmptyString)
   && forallb (fun c => match JS.digit_in radix c with
                        | Some _ => true
                        | None => false
                        end)
              (chars s))%bool.

(** The texts [BigInt] reads as a number, white space set aside (the
    StringIntegerLiteral grammar of ECMAScript): decimal digits with an
    optional sign, or digits of radix 16, 8 or 2 after the prefix [0x],
    [0o] or [0b], in either case and without a sign. *)
Definition integer_text (t : string) : Prop :=
  (exists sign body,
      In sign [EmptyString; "+"; "-"]
      /\ t = String.append sign body /\ digit_run 10 body = true)
  \/ (exists prefix body,
         In prefix ["0x"; "0X"]
         /\ t = String.append prefix body /\ digit_run 16 body = true)
  \/ (exists prefix body,
         In prefix ["0o"; "0O"]
         /\ t = String.append prefix body /\ digit_run 8 body = true)
  \/ (exists prefix body,
         In prefix ["0b"; "0B"]
         /\ t = String.append prefix body /\ digit_run 2 body = true).

(** A grid with a wild on each of the first three reels and otherwise
    scatters: no [btc] anywhere. *)
Definition wild_grid : list reel :=
  map (fun l => mkReel None 2 (map Sym l))
      [ ["wild"; "scatter"]; ["wild"; "scatter"]; ["wild"; "scatter"];
        ["scatter"; "scatter"]; ["scatter"; "scatter"];
        ["scatter"; "scatter"] ].

(** A reel that holds more cells than its height. *)
Definition overfull_reel : list reel :=
  [ mkReel None 2 [Sym "a"; Null; Sym "b"; Sym "c"] ].

(** Number of hexadecimal digits of a literal [0x...]. *)
Definition hex_width (s : string) : Z := 4 * (Z.of_nat (String.length s) - 2).

(** Product of the reel heights, as a number. *)
Definition heights_product (reels : list reel) : Z :=
  fold_right Z.mul 1 (map (fun r => Z.of_nat (height r)) reels).

Definition grid_of_heights (hs : list nat) : list reel :=
  map (fun h => mkReel None h (repeat (Sym "btc") h)) hs.

(** A cell that holds a symbol, as opposed to an empty one. *)
Definition is_symbol (c : cell) : bool :=
  match c with
  | Sym _ => true
  | _ => false
  end.

(** The shape invariant of a grid: every reel has as many cells as its
    height. *)
Definition cells_match_height (reels : list reel) : Prop :=
  Forall (fun r => List.length (reel_symbols r) = height r) reels.

(** One reel of [dropSymbolsDown]. *)
Definition drop_reel (r : reel) : reel :=
  mkReel (reelIndex r) (height r)
         (drop_cells (height r) (map json_cell (reel_symbols r))).

(** The grid of the repository's test of the drop. *)
Definition drop_example : list reel :=
  [ mkReel None 4 [Null; Sym "eth"; Null; Sym "sol"];
    mkReel None 3 [Sym "btc"; Null; Sym "nft_common"];
    mkReel None 3 [Null; Null; Sym "wallet"] ].

(** The run of a symbol in the words of the specification: the number of
    consecutive reels, counted from reel 0, that hold the symbol or a wild
    standing in for it. *)
Definition reel_holds (cfg : config) (targetSymbol : cell) (r : reel) : bool :=
  existsb (matches cfg targetSymbol) (reel_symbols r).

Fixpoint run_length (cfg : config) (targetSymbol : cell) (reels : list reel) : nat :=
  match reels with
  | [] => 0
  | r :: rest =>
      if reel_holds cfg targetSymbol r
      then S (run_length cfg targetSymbol rest)
      else 0
  end.

(** The symbol occurs in some cell of the grid. *)
Definition on_grid (s : cell) (reels : list reel) : Prop :=
  exists r, In r reels /\ In s (reel_symbols r).

(** The sum of the [levelPayout] fields, added in the order of the rounds
    starting from 0 (the [reduce] of the repository's test). *)
Definition sum_levelPayout (rounds : list cascade_round) : Q :=
  fold_left (fun sum c => (sum + levelPayout c)%Q) rounds 0%Q.

(** What a recorded round must look like at index [i] of the list, for a
    given bet: its level is its index; its multiplier is the entry of the
    table at [min level 6]; its payout is the evaluator's total for its
    combinations, scaled by the multiplier from level 1 on; and its
    [totalPayout] is the running sum up to it. *)
Definition round_recorded (betAmount : Q) (rounds : list cascade_round)
  (i : nat) (r : cascade_round) : Prop :=
  level r = i
  /\ (i <= maxCascades)%nat
  /\ multiplier r = nth (Nat.min (level r) 6) [1; 2; 3; 5; 8; 12; 20]%Q 0%Q
  /\ levelPayout r
     = (if Nat.eqb i 0
        then calculateTotalPayout (winningCombinations r) betAmount
        else (calculateTotalPayout (winningCombinations r) betAmount
              * multiplier r)%Q)
  /\ totalPayout r = sum_levelPayout (firstn (S i) rounds).

Definition rounds_recorded (betAmount : Q) (rounds : list cascade_round) : Prop :=
  forall i r, nth_error rounds i = Some r -> round_recorded betAmount rounds i r.

(** The invariant of the loop: the rounds so far are in order, there is
    one more of them than the level, and [totalWinnings] is their sum. *)
Definition loop_invariant (betAmount : Q) (st : cascade_state) : Prop :=
  rounds_recorded betAmount (cascadeResults st)
  /\ List.length (cascadeResults st) = S (cascadeLevel st)
  /\ (cascadeLevel st <= maxCascades)%nat
  /\ totalWinnings st = sum_levelPayout (cascadeResults st).

(** What holds of the state the loop ends in. *)
Definition loop_outcome (betAmount : Q) (st : cascade_state) : Prop :=
  rounds_recorded betAmount (cascadeResults st)
  /\ (List.length (cascadeResults st) <= S maxCascades)%nat
  /\ totalWinnings st = sum_levelPayout (cascadeResults st).

(** Number of [null] cells of one reel. *)
Definition nulls (syms : list cell) : nat :=
  List.length (filter (fun c => cell_eqb c Null) syms).

(** No cell of the grid is [null]. *)
Definition no_null (reels : list reel) : bool :=
  forallb (fun r => forallb not_null (reel_symbols r)) reels.

(** The grid of the repository's test of the evaluator: [btc] on the
    first three reels. *)
Definition btc_grid : list reel :=
  map (fun l => mkReel None 3 (map Sym l))
      [ ["btc"; "eth"; "sol"];
        ["btc"; "defi_token"; "nft_common"];
        ["btc"; "blockchain"; "wallet"];
        ["diamond_hands"; "eth"; "sol"];
        ["nft_common"; "defi_token"; "blockchain"];
        ["wallet"; "diamond_hands"; "scatter"] ].

(** Sum of the reel heights. *)
Definition heights_sum (reels : list reel) : nat :=
  fold_right (fun r n => (height r + n)%nat) 0%nat reels.

(** The grid, random value and bet of the repository's test of the full
    cascade. *)
Definition test_reels : list reel :=
  map (fun l => mkReel None 4 (map Sym l))
      [ ["btc"; "btc"; "eth"; "sol"];
        ["btc"; "btc"; "eth"; "defi_token"];
        ["btc"; "btc"; "eth"; "nft_common"];
        ["diamond_hands"; "wild"; "blockchain"; "wallet"];
        ["nft_common"; "defi_token"; "blockchain"; "wallet"];
        ["wallet"; "diamond_hands"; "scatter"; "btc"] ].

Definition test_vrf : string :=
  "0x1234567890abcdef1234567890abcdef1234567890abcdef1234567890abcdef".

(** Number of [null] cells of a grid. *)
Definition count_null (reels : list reel) : nat :=
  fold_right (fun r n => (nulls (reel_symbols r) + n)%nat) 0%nat reels.

(** The reads of [n] consecutive bytes from [offset] on. *)
Definition byte_reads (offset : Z) (n : nat) : list read :=
  map (fun k => mkRead (offset + 8 * Z.of_nat k) 8) (seq 0 n).

(** ** Further functions of the services *)

Definition getAllSymbolIds (cfg : config) : list string :=
  map fst (symbols cfg).

Definition getSymbolsByType (cfg : config) (t : symbol_type) : list symbol_def :=
  filter (fun symbol => symbol_type_eqb (sym_type symbol) t)
         (map snd (symbols cfg)).

Definition getRegularSymbols (cfg : config) : list symbol_def :=
  getSymbolsByType cfg regular.

Definition getSymbolPayoutTable (cfg : config) (symbolId : string)
  : option payout_table :=
  lookup symbolId (payoutTables cfg).

Definition getMaxCascades : nat := maxCascades.

Definition getCascadeMultipliers : list Q := cascadeMultipliers.

(** [validateCascadeResult] on a result of the record type: the presence
    and the types of the fields are given by the type, and what is left to
    test is that every round's level is its index. *)
Definition validateCascadeResult (cascadeResult : cascade_result) : bool :=
  forallb (fun ic => Nat.eqb (level (snd ic)) (fst ic))
          (combine (seq 0 (List.length (cascades cascadeResult)))
                   (cascades cascadeResult)).

Record breakdown_entry : Type := mkBreakdown {
  bd_level : nat;
  bd_multiplier : Q;
  bd_payout : Q;
  bd_winCount : nat
}.

Record cascade_statistics : Type := mkStatistics {
  stat_totalCascades : nat;
  stat_totalWinnings : Q;
  averageMultiplier : Q;
  maxMultiplier : Q;
  cascadeBreakdown : list breakdown_entry
}.

(** [None] is the [null] returned for a result that does not validate. *)
Definition calculateCascadeStatistics (cascadeResult : cascade_result)
  : option cascade_statistics :=
  if negb (validateCascadeResult cascadeResult) then None
  else
    let multipliers := map multiplier (cascades cascadeResult) in
    Some (mkStatistics
            (totalCascades cascadeResult)
            (res_totalWinnings cascadeResult)
            (match multipliers with
             | [] => 0%Q
             | _ => (fold_left Qplus multipliers 0
                     / inject_Z (Z.of_nat (List.length multipliers)))%Q
             end)
            (match multipliers with
             | [] => 0%Q
             | m :: ms => Math_max m ms
             end)
            (map (fun cascade =>
                    mkBreakdown (level cascade) (multiplier cascade)
                                (levelPayout cascade)
                                (List.length (winningCombinations cascade)))
                 (cascades cascadeResult))).

(** [SymbolRendererService.calculateResponsiveScale]. *)
Definition calculateResponsiveScale (screenWidth : Q) : Q :=
  if Qle_bool screenWidth 768 then 0.8%Q
  else if Qle_bool screenWidth 1024 then 0.9%Q
  else if Qle_bool screenWidth 1920 then 1.0%Q
  else 1.1%Q.

(** ** Definitions used to state the further properties *)

(** The number of times [createWeightedSymbolArray] pushes a symbol. *)
Definition pushes (symbol : symbol_def) : nat :=
  Z.to_nat (Qceiling (sym_weight symbol)).

(** Whether [createWeightedSymbolArray] takes a symbol at all. *)
Definition pooled (includeSpecial : bool) (excludeSymbols : list string)
  (symbol : symbol_def) : bool :=
  (negb (includes (Sym (sym_id symbol)) excludeSymbols)
   && (includeSpecial || symbol_type_eqb (sym_type symbol) regular))%bool.

(** The keys of the catalog are the ids of its symbols, each once. *)
Definition distinct_ids (cfg : config) : Prop :=
  NoDup (map (fun kv => sym_id (snd kv)) (symbols cfg)).

(** The cell that the byte of the random value at [offset] selects. *)
Definition decoded_cell (cfg : config) (vrfNumber : string) (offset : Z) : cell :=
  match extractBits vrfNumber offset 8 with
  | Ok symbolBits => pick (createWeightedSymbolArray cfg true []) symbolBits
  | Throw _ => Undefined
  end.

(** The cells that [n] consecutive bytes from [offset] on select. *)
Definition decoded_cells (cfg : config) (vrfNumber : string) (offset : Z)
  (n : nat) : list cell :=
  map (fun k => decoded_cell cfg vrfNumber (offset + 8 * Z.of_nat k)) (seq 0 n).

(** A reel as [generateReelConfiguration] makes it: no cells yet, and a
    height between 2 and 7. *)
Definition fresh_reel (r : reel) : Prop :=
  reel_symbols r = [] /\ (2 <= height r <= 7)%nat.

(** The grids [validateReelConfiguration] accepts when symbols are
    required. *)
Definition valid_grid (reels : list reel) : Prop :=
  List.length reels = 6%nat
  /\ Forall (fun r => (2 <= height r <= 7)%nat
                      /\ List.length (reel_symbols r) = height r) reels.

(** The cells of a reel that [countWaysForCombination] counts for a
    symbol. *)
Definition counted (symbol : cell) (reelSymbol : cell) : bool :=
  (cell_eqb reelSymbol symbol || cell_eqb reelSymbol (Sym "wild"))%bool.

(** The winning combination of [btc_grid]. *)
Definition btc_combination : combination :=
  mkCombination (Sym "btc") 3
    [mkPosition 0 0 (Sym "btc"); mkPosition 1 0 (Sym "btc");
     mkPosition 2 0 (Sym "btc")] 5 1.

(** Indices and heights of the reels of a grid. *)
Definition shape (reels : list reel) : list (option nat * nat) :=
  map (fun r => (reelIndex r, height r)) reels.

(** Some combination names the cell [si] of reel [ri]. *)
Definition removed_at (winningCombinations : list combination) (ri si : nat)
  : Prop :=
  exists c p,
    In c winningCombinations /\ In p (comb_positions c)
    /\ pos_reel p = ri /\ pos_position p = si.

(** The cells of a refill: every [null] cell takes the next of the fresh
    cells, every other cell stays. *)
Fixpoint fill (syms fresh : list cell) : list cell :=
  match syms with
  | [] => []
  | c :: rest =>
      if cell_eqb c Null then
        match fresh with
        | f :: fresh' => f :: fill rest fresh'
        | [] => c :: fill rest []
        end
      else c :: fill rest fresh
  end.

(** No cell of the reel is [undefined]. *)
Definition defined_cells (syms : list cell) : Prop :=
  Forall (fun c => c <> Undefined) syms.

(** ** The parts of an iteration of the cascade loop *)

(** The condition of the [while] loop. *)
Definition loop_condition (st : cascade_state) : bool :=
  (hasWins (currentWins st) && (cascadeLevel st <? maxCascades)%nat)%bool.

(** The removal, drop and refill of one iteration. *)
Definition loop_refill (cfg : config) (vrfNumber : string) (st : cascade_state)
  : Dec (list reel) :=
  generateNewSymbols cfg
    (dropSymbolsDown
       (removeWinningSymbols (currentReels st) (combinations (currentWins st))))
    vrfNumber (vrfOffset st).

(** The round an iteration records when the refilled grid wins. *)
Definition loop_round (cfg : config) (betAmount : Q) (st : cascade_state)
  (refilled : list reel) : cascade_round :=
  let cascadeLevel' := S (cascadeLevel st) in
  let cascadeWins := calculateWinningCombinations cfg refilled in
  let cascadeMultiplier :=
    nth (Nat.min cascadeLevel' (List.length cascadeMultipliers - 1))
        cascadeMultipliers 0%Q in
  let basePayout := calculateTotalPayout (combinations cascadeWins) betAmount in
  let multipliedPayout := (basePayout * cascadeMultiplier)%Q in
  mkRound cascadeLevel' (deepCopy refilled) (combinations cascadeWins)
          cascadeMultiplier multipliedPayout
          (totalWinnings st + multipliedPayout)%Q.

(** The state after an iteration whose refilled grid wins. *)
Definition loop_next (cfg : config) (betAmount : Q) (st : cascade_state)
  (refilled : list reel) : cascade_state :=
  let round := loop_round cfg betAmount st refilled in
  mkState (cascadeResults st ++ [round]) refilled
          (vrfOffset st + calculateVrfBitsNeeded refilled)
          (level round) (totalPayout round)
          (calculateWinningCombinations cfg refilled).

(** The state in which the loop is left by [break]. *)
Definition loop_break (st : cascade_state) (refilled : list reel)
  : cascade_state :=
  mkState (cascadeResults st) refilled
          (vrfOffset st + calculateVrfBitsNeeded refilled)
          (S (cascadeLevel st)) (totalWinnings st) (currentWins st).

(** The round recorded for a winning initial grid, and the state in which
    the loop is entered. *)
Definition first_round (cfg : config) (betAmount : Q) (reels : list reel)
  : cascade_round :=
  let currentReels := deepCopy reels in
  let initialWins := calculateWinningCombinations cfg currentReels in
  let initialPayout := calculateTotalPayout (combinations initialWins) betAmount in
  mkRound 0 (deepCopy currentReels) (combinations initialWins)
          (nth 0 cascadeMultipliers 0%Q) initialPayout (0 + initialPayout)%Q.

Definition loop_start (cfg : config) (betAmount : Q) (reels : list reel)
  : cascade_state :=
  let round0 := first_round cfg betAmount reels in
  mkState [round0] (deepCopy reels) 256 0 (totalPayout round0)
          (calculateWinningCombinations cfg (deepCopy reels)).

(** The result for an initial grid without wins. *)
Definition no_cascade (cfg : config) (reels : list reel) : cascade_result :=
  finish (mkState [] (deepCopy reels) 256 0 0%Q
                  (calculateWinningCombinations cfg (deepCopy reels))).

(** Every cell of the grid holds a symbol. *)
Definition all_symbols (reels : list reel) : bool :=
  forallb (fun r => forallb is_symbol (reel_symbols r)) reels.

(** A recorded round shows an evaluation: its grid is the copy of a grid
    [g] that wins, and its combinations are the evaluator's for [g]; with a
    non-empty weighted pool the copy is [g] itself, and from the first
    cascade on [g] holds symbols only. *)
Definition round_shows (cfg : config) (r : cascade_round) : Prop :=
  exists g,
    reelState r = deepCopy g
    /\ winningCombinations r
       = combinations (calculateWinningCombinations cfg g)
    /\ hasWins (calculateWinningCombinations cfg g) = true
    /\ (createWeightedSymbolArray cfg true [] <> [] ->
        deepCopy g = g /\ ((0 < level r)%nat -> all_symbols g = true)).

(** What holds of the loop's state for a spin on [reels]; [fuel] is the
    number of iterations still allowed. *)
Definition grid_invariant (cfg : config) (reels : list reel)
  (fuel : nat) (st : cascade_state) : Prop :=
  shape (currentReels st) = shape reels
  /\ Forall (fun r => shape (reelState r) = shape reels) (cascadeResults st)
  /\ Forall (fun r => (0 < level r)%nat -> cells_match_height (reelState r))
            (cascadeResults st)
  /\ Forall (round_shows cfg) (cascadeResults st)
  /\ List.length (cascadeResults st) = S (cascadeLevel st)
  /\ (cascadeLevel st <= maxCascades <= fuel + cascadeLevel st)%nat
  /\ currentWins st = calculateWinningCombinations cfg (currentReels st)
  /\ hasWins (currentWins st) = true
  /\ (exists r, last (cascadeResults st) r = r
                /\ In r (cascadeResults st)
                /\ reelState r = deepCopy (currentReels st))
  /\ (cascadeLevel st = 0%nat
      \/ cells_match_height (currentReels st)
         /\ no_null (currentReels st) = true
         /\ (createWeightedSymbolArray cfg true [] <> [] ->
             all_symbols (currentReels st) = true)).

(** What holds of the state the loop of a spin on [reels] ends in. *)
Definition grid_outcome (cfg : config) (reels : list reel)
  (st : cascade_state) : Prop :=
  shape (currentReels st) = shape reels
  /\ Forall (fun r => shape (reelState r) = shape reels) (cascadeResults st)
  /\ Forall (fun r => (0 < level r)%nat -> cells_match_height (reelState r))
            (cascadeResults st)
  /\ Forall (round_shows cfg) (cascadeResults st)
  /\ cascadeResults st <> []
  /\ cells_match_height (currentReels st)
  /\ no_null (currentReels st) = true
  /\ (createWeightedSymbolArray cfg true [] <> [] ->
      all_symbols (currentReels st) = true)
  /\ (hasWins (calculateWinningCombinations cfg (currentReels st)) = true
      <-> List.length (cascadeResults st) = S maxCascades)
  /\ (List.length (cascadeResults st) = S maxCascades ->
      exists r, In r (cascadeResults st)
                /\ last (cascadeResults st) r = r
                /\ reelState r = deepCopy (currentReels st)).

(* ================================================================== *)
(** * Part II.  Properties *)
(* ================================================================== *)

(** ** The random decoder *)

Section Decoder.

Lemma hex_digit_range (c : ascii) (d : Z) :
  JS.hex_digit c = Some d -> 0 <= d < 16.
Proof.
  unfold JS.hex_digit.
  set (n := Z.of_nat (nat_of_ascii c)).
  destruct (andb (48 <=? n) (n <=? 57)) eqn:E1.
  - apply andb_true_iff in E1 as [H1 H2]. intros [= <-]. lia.
  - destruct (andb (97 <=? n) (n <=? 102)) eqn:E2.
    + apply andb_true_iff in E2 as [H1 H2]. intros [= <-]. lia.
    + destruct (andb (65 <=? n) (n <=? 70)) eqn:E3; [|discriminate].
      apply andb_true_iff in E3 as [H1 H2]. intros [= <-]. lia.
Qed.

Lemma ws_not_hex (c : ascii) : JS.is_ws c = true -> JS.hex_digit c = None.
Proof.
  unfold JS.is_ws, JS.hex_digit.
  set (n := nat_of_ascii c).
  intros H.
  repeat (apply orb_true_iff in H as [H|H]);
    apply Nat.eqb_eq in H; rewrite H; reflexivity.
Qed.

Lemma digits_from_hex (s : string) :
  forall acc, 0 <= acc -> all_hex s = true ->
  exists v, JS.digits_from 16 acc s = Some v
            /\ acc * 16 ^ Z.of_nat (String.length s) <= v
               < (acc + 1) * 16 ^ Z.of_nat (String.length s).
Proof.
  induction s as [|c s IH]; intros acc Hacc Hall.
  - exists acc. cbn. split; [reflexivity|lia].
  - unfold all_hex in Hall. cbn in Hall.
    apply andb_true_iff in Hall as [Hc Hs].
    destruct (JS.hex_digit c) as [d|] eqn:Hd; [|discriminate].
    pose proof (hex_digit_range _ _ Hd) as Hr.
    cbn [JS.digits_from]. unfold JS.digit_in. rewrite Hd.
    replace (d <? 16) with true by (symmetry; apply Z.ltb_lt; lia).
    destruct (IH (acc * 16 + d) ltac:(lia) Hs) as (v & Hv & Hb).
    exists v. split; [exact Hv|].
    cbn [String.length]. rewrite Nat2Z.inj_succ, Z.pow_succ_r by lia.
    set (p := 16 ^ Z.of_nat (String.length s)) in *.
    assert (0 < p) by (apply Z.pow_pos_nonneg; lia).
    nia.
Qed.

Lemma rtrim_no_ws (s : string) :
  forallb (fun c => negb (JS.is_ws c)) (chars s) = true -> JS.rtrim s = s.
Proof.
  induction s as [|c s IH]; [reflexivity|].
  cbn. intros H. apply andb_true_iff in H as [Hc Hs].
  rewrite (IH Hs). destruct s; [|reflexivity].
  apply negb_true_iff in Hc. now rewrite Hc.
Qed.

Lemma all_hex_no_ws (s : string) :
  all_hex s = true -> forallb (fun c => negb (JS.is_ws c)) (chars s) = true.
Proof.
  unfold all_hex, chars. intros H.
  rewrite forallb_forall in *. intros c Hc. specialize (H c Hc).
  destruct (JS.is_ws c) eqn:W; [|reflexivity].
  now rewrite (ws_not_hex _ W) in H.
Qed.

(** A well-formed random value is read as the number its digits spell. *)
Lemma BigInt_hex_literal (h : string) :
  is_hex_literal h = true ->
  exists v, JS.BigInt h = Ok v /\ 0 <= v < 2 ^ hex_width h.
Proof.
  destruct h as [|c0 h]; [discriminate|].
  destruct (Ascii.eqb_spec c0 "0") as [->|N0].
  2:{ destruct c0 as [[] [] [] [] [] [] [] []]; try discriminate; now elim N0. }
  destruct h as [|c1 body]; [discriminate|].
  destruct (Ascii.eqb_spec c1 "x") as [->|N1].
  2:{ destruct c1 as [[] [] [] [] [] [] [] []]; try discriminate; now elim N1. }
  cbn [is_hex_literal]. intros H. apply andb_true_iff in H as [Hne Hall].
  destruct (digits_from_hex body 0 ltac:(lia) Hall) as (v & Hv & Hb).
  exists v. split.
  - unfold JS.BigInt, JS.StringToBigInt, JS.trim. cbn [JS.ltrim].
    replace (JS.is_ws "0") with false by reflexivity.
    rewrite rtrim_no_ws.
    + cbn. destruct body; [discriminate|]. unfold JS.digits. now rewrite Hv.
    + change (chars (String "0" (String "x" body)))
        with ("0"%char :: "x"%char :: chars body).
      cbn. now apply all_hex_no_ws.
  - unfold hex_width. cbn [String.length].
    replace (4 * (Z.of_nat (S (S (String.length body))) - 2))
      with (4 * Z.of_nat (String.length body)) by lia.
    rewrite Z.pow_mul_r by lia. change (2 ^ 4) with 16. lia.
Qed.

Lemma extractBits_BigInt (vrf : string) (v s c : Z) :
  JS.BigInt vrf = Ok v ->
  extractBits vrf s c = Ok (JS.Number (Z.land (Z.shiftr v s) (Z.ones c))).
Proof.
  intros H. unfold extractBits. rewrite H. reflexivity.
Qed.

(** [Number] keeps an integer below [2^53]. *)
Lemma Number_exact (z : Z) : 0 <= z < 2 ^ 53 -> JS.Number z = z.
Proof.
  intros H. unfold JS.Number.
  assert (Z.log2 (Z.abs z) < 53).
  { rewrite Z.abs_eq by lia.
    destruct (Z.eq_dec z 0) as [->|]; [cbn; lia|].
    apply Z.log2_lt_pow2; lia. }
  replace (Z.log2 (Z.abs z) + 1 - 53 <=? 0) with true; [reflexivity|].
  symmetry. apply Z.leb_le. lia.
Qed.

Lemma masked_range (x c : Z) :
  0 <= c -> 0 <= Z.land x (Z.ones c) <= 2 ^ c - 1.
Proof.
  intros Hc. rewrite Z.land_ones by exact Hc.
  pose proof (Z.mod_pos_bound x (2 ^ c) ltac:(apply Z.pow_pos_nonneg; lia)). lia.
Qed.

Lemma shiftr_beyond_width (v w s : Z) :
  0 <= v < 2 ^ w -> 0 <= w <= s -> Z.shiftr v s = 0.
Proof.
  intros Hv Hs. destruct (Z.eq_dec v 0) as [->|Hn].
  - apply Z.shiftr_0_l.
  - apply Z.shiftr_eq_0; [lia|].
    assert (Z.log2 v < w) by (apply Z.log2_lt_pow2; lia). lia.
Qed.

(** C5 (as stated) fails for a bit count above 53: the masked value
    [2^64 - 1] of the 64-bit input [0xFFFFFFFFFFFFFFFF] is not a double, and
    the returned [Number] is [2^64], outside [[0, 2^64 - 1]]. *)
Lemma extractBits_wide_count_rounds :
  is_hex_literal "0xFFFFFFFFFFFFFFFF" = true
  /\ JS.BigInt "0xFFFFFFFFFFFFFFFF" = Ok 18446744073709551615
  /\ Z.land (Z.shiftr 18446744073709551615 0) (Z.ones 64) = 18446744073709551615
  /\ extractBits "0xFFFFFFFFFFFFFFFF" 0 64 = Ok 18446744073709551616
  /\ ~ (18446744073709551616 <= 2 ^ 64 - 1).
Proof.
  repeat split; try reflexivity. vm_compute. intros H. now apply H.
Qed.

(** C5 (as amended): for a well-formed [0x] literal [h], [s >= 0] and
    [c > 0], [extractBits h s c] is the [Number] nearest to
    [(uint(h) >> s) & (2^c - 1)]; for [c <= 53] it is exactly that value,
    which is [(uint(h) / 2^s) mod 2^c] and lies in [[0, 2^c - 1]]; an
    offset at or beyond the width of the literal yields [0]; and the three
    values of the [0xFF] example are 7, 7 and 3. *)
Theorem extractBits_shift_mask :
  (forall (h : string) (s c : Z),
      is_hex_literal h = true -> 0 <= s -> 0 < c ->
      exists v,
        JS.BigInt h = Ok v
        /\ 0 <= v < 2 ^ hex_width h
        /\ extractBits h s c = Ok (JS.Number (Z.land (Z.shiftr v s) (Z.ones c)))
        /\ (c <= 53 ->
            extractBits h s c = Ok (Z.land (Z.shiftr v s) (Z.ones c))
            /\ Z.land (Z.shiftr v s) (Z.ones c) = (v / 2 ^ s) mod 2 ^ c
            /\ 0 <= Z.land (Z.shiftr v s) (Z.ones c) <= 2 ^ c - 1)
        /\ (hex_width h <= s -> extractBits h s c = Ok 0))
  /\ extractBits "0xFF" 0 3 = Ok 7
  /\ extractBits "0xFF" 3 3 = Ok 7
  /\ extractBits "0xFF" 6 2 = Ok 3.
Proof.
  split; [|repeat split; reflexivity].
  intros h s c Hh Hs Hc.
  destruct (BigInt_hex_literal h Hh) as (v & Hv & Hb).
  exists v. split; [exact Hv|]. split; [exact Hb|].
  pose proof (extractBits_BigInt h v s c Hv) as He.
  split; [exact He|]. split.
  - intros Hc53.
    pose proof (masked_range (Z.shiftr v s) c ltac:(lia)) as Hr.
    assert (2 ^ c <= 2 ^ 53) by (apply Z.pow_le_mono_r; lia).
    rewrite He, Number_exact by lia.
    repeat split; try lia.
    rewrite Z.land_ones, Z.shiftr_div_pow2 by lia. reflexivity.
  - intros Hw. rewrite He.
    assert (0 <= hex_width h).
    { destruct (Z.lt_ge_cases (hex_width h) 0) as [Hneg|]; [|assumption].
      rewrite (Z.pow_neg_r 2 _ Hneg) in Hb. lia. }
    rewrite (shiftr_beyond_width v (hex_width h) s) by lia.
    rewrite Z.land_0_l. reflexivity.
Qed.

Lemma extractBits_shift_mask_witness :
  exists v,
    JS.BigInt "0xFF" = Ok v
    /\ 0 <= v < 2 ^ hex_width "0xFF"
    /\ extractBits "0xFF" 3 3 = Ok (JS.Number (Z.land (Z.shiftr v 3) (Z.ones 3)))
    /\ (3 <= 53 ->
        extractBits "0xFF" 3 3 = Ok (Z.land (Z.shiftr v 3) (Z.ones 3))
        /\ Z.land (Z.shiftr v 3) (Z.ones 3) = (v / 2 ^ 3) mod 2 ^ 3
        /\ 0 <= Z.land (Z.shiftr v 3) (Z.ones 3) <= 2 ^ 3 - 1)
    /\ (hex_width "0xFF" <= 3 -> extractBits "0xFF" 3 3 = Ok 0).
Proof.
  apply (proj1 extractBits_shift_mask "0xFF" 3 3); [reflexivity|lia|lia].
Defined.

(** *** Which strings [extractBits] rejects *)

Lemma in_ltrim (ch : ascii) (s : string) :
  In ch (chars s) -> JS.is_ws ch = false -> In ch (chars (JS.ltrim s)).
Proof.
  induction s as [|c s IH]; [intros []|].
  intros Hin Hws. cbn [JS.ltrim].
  destruct (JS.is_ws c) eqn:W; [|exact Hin].
  destruct Hin as [->|Hin]; [congruence|]. now apply IH.
Qed.

Lemma in_rtrim (ch : ascii) (s : string) :
  In ch (chars s) -> JS.is_ws ch = false -> In ch (chars (JS.rtrim s)).
Proof.
  induction s as [|c s IH]; [intros []|].
  intros Hin Hws. cbn [JS.rtrim].
  destruct Hin as [->|Hin].
  - destruct (JS.rtrim s); [rewrite Hws|]; now left.
  - specialize (IH Hin Hws).
    destruct (JS.rtrim s); [destruct IH|]. now right.
Qed.

Lemma digits_from_chars (radix : Z) (s : string) :
  forall acc v, JS.digits_from radix acc s = Some v ->
  forall ch, In ch (chars s) -> JS.hex_digit ch <> None.
Proof.
  induction s as [|c s IH]; intros acc v H ch Hin; [destruct Hin|].
  cbn [JS.digits_from] in H. unfold JS.digit_in in H.
  destruct (JS.hex_digit c) as [d|] eqn:Hd; [|discriminate].
  destruct (d <? radix); [|discriminate].
  destruct Hin as [<-|Hin]; [congruence|]. eapply IH; eassumption.
Qed.

Lemma digits_chars (radix : Z) (s : string) (v : Z) :
  JS.digits radix s = Some v ->
  forall ch, In ch (chars s) -> bigint_char ch = true.
Proof.
  intros H ch Hin. unfold JS.digits in H.
  destruct s; [discriminate|].
  pose proof (digits_from_chars _ _ _ _ H ch Hin) as Hd.
  unfold bigint_char. destruct (JS.hex_digit ch); [|congruence].
  now rewrite orb_true_r.
Qed.

(** The cases of [StrIntegerLiteral] by the tests they stand for. *)
Lemma StrIntegerLiteral_cases (c : ascii) (t : string) :
  JS.StrIntegerLiteral (String c t) =
  if Ascii.eqb c "0" then
    match t with
    | String p body =>
        if (Ascii.eqb p "x" || Ascii.eqb p "X")%bool then JS.digits 16 body
        else if (Ascii.eqb p "o" || Ascii.eqb p "O")%bool then JS.digits 8 body
        else if (Ascii.eqb p "b" || Ascii.eqb p "B")%bool then JS.digits 2 body
        else JS.digits 10 (String c t)
    | EmptyString => JS.digits 10 (String c t)
    end
  else if Ascii.eqb c "+" then JS.digits 10 t
  else if Ascii.eqb c "-" then option_map Z.opp (JS.digits 10 t)
  else JS.digits 10 (String c t).
Proof.
  destruct c as [[] [] [] [] [] [] [] []]; reflexivity.
Qed.

Lemma StrIntegerLiteral_chars (t : string) (v : Z) :
  JS.StrIntegerLiteral t = Some v ->
  forall ch, In ch (chars t) -> bigint_char ch = true.
Proof.
  destruct t as [|c t]; [discriminate|].
  rewrite StrIntegerLiteral_cases.
  assert (Hsign : forall a, (Ascii.eqb a "x" || Ascii.eqb a "X" || Ascii.eqb a "o"
                             || Ascii.eqb a "O" || Ascii.eqb a "+"
                             || Ascii.eqb a "-")%bool = true ->
                            bigint_char a = true).
  { intros a Ha. unfold bigint_char.
    repeat (apply orb_true_iff in Ha as [Ha|Ha]); rewrite Ha;
      repeat rewrite orb_true_r; reflexivity. }
  assert (Hzero : bigint_char "0" = true) by reflexivity.
  destruct (Ascii.eqb_spec c "0") as [->|_].
  - destruct t as [|p body]; [intros H; exact (digits_chars _ _ _ H)|].
    destruct (Ascii.eqb p "x" || Ascii.eqb p "X")%bool eqn:Ex;
      [|destruct (Ascii.eqb p "o" || Ascii.eqb p "O")%bool eqn:Eo;
        [|destruct (Ascii.eqb p "b" || Ascii.eqb p "B")%bool eqn:Eb]].
    + intros H ch [<-|[<-|Hin]]; [exact Hzero| |exact (digits_chars _ _ _ H _ Hin)].
      apply Hsign. apply orb_true_iff in Ex as [->| ->];
        repeat rewrite orb_true_r; reflexivity.
    + intros H ch [<-|[<-|Hin]]; [exact Hzero| |exact (digits_chars _ _ _ H _ Hin)].
      apply Hsign. apply orb_true_iff in Eo as [->| ->];
        repeat rewrite orb_true_r; reflexivity.
    + intros H ch [<-|[<-|Hin]]; [exact Hzero| |exact (digits_chars _ _ _ H _ Hin)].
      apply orb_true_iff in Eb as [E|E]; apply Ascii.eqb_eq in E; subst; reflexivity.
    + intros H; exact (digits_chars _ _ _ H).
  - destruct (Ascii.eqb_spec c "+") as [->|_];
      [|destruct (Ascii.eqb_spec c "-") as [->|_]].
    + intros H ch [<-|Hin]; [reflexivity|exact (digits_chars _ _ _ H _ Hin)].
    + intros H ch [<-|Hin]; [reflexivity|].
      destruct (JS.digits 10 t) eqn:Hd; [|discriminate].
      exact (digits_chars _ _ _ Hd _ Hin).
    + intros H; exact (digits_chars _ _ _ H).
Qed.

Lemma BigInt_rejects (h : string) (ch : ascii) :
  In ch (chars h) -> bigint_char ch = false -> JS.BigInt h = Throw SyntaxError.
Proof.
  intros Hin Hbad.
  assert (Hws : JS.is_ws ch = false).
  { unfold bigint_char in Hbad. destruct (JS.is_ws ch); [discriminate|reflexivity]. }
  pose proof (in_rtrim _ _ (in_ltrim _ _ Hin Hws) Hws) as Ht.
  unfold JS.BigInt, JS.StringToBigInt. fold (JS.trim h) in Ht.
  destruct (JS.trim h) as [|c t] eqn:E; [destruct Ht|].
  destruct (JS.StrIntegerLiteral (String c t)) eqn:L; [|reflexivity].
  rewrite (StrIntegerLiteral_chars _ _ L ch Ht) in Hbad. discriminate.
Qed.

Lemma decimal_digit_facts (c : ascii) (d : Z) :
  JS.digit_in 10 c = Some d ->
  JS.is_ws c = false
  /\ (Ascii.eqb c "x" || Ascii.eqb c "X")%bool = false
  /\ (Ascii.eqb c "o" || Ascii.eqb c "O")%bool = false
  /\ (Ascii.eqb c "b" || Ascii.eqb c "B")%bool = false
  /\ Ascii.eqb c "+" = false /\ Ascii.eqb c "-" = false.
Proof.
  destruct c as [[] [] [] [] [] [] [] []]; vm_compute; intros H;
    try discriminate; repeat split.
Qed.

Lemma digits_from_decimal (s : string) :
  forall acc,
  forallb (fun c => match JS.digit_in 10 c with Some _ => true | None => false end)
          (chars s) = true ->
  exists v, JS.digits_from 10 acc s = Some v.
Proof.
  induction s as [|c s IH]; intros acc H; [now exists acc|].
  cbn in H. apply andb_true_iff in H as [Hc Hs].
  cbn [JS.digits_from]. destruct (JS.digit_in 10 c); [|discriminate].
  now apply IH.
Qed.

Lemma BigInt_decimal (h : string) :
  is_decimal h = true -> exists v, JS.BigInt h = Ok v.
Proof.
  unfold is_decimal. intros H. apply andb_true_iff in H as [Hne Hall].
  destruct h as [|c t]; [discriminate|].
  assert (Hnows : forallb (fun c => negb (JS.is_ws c)) (chars (String c t)) = true).
  { rewrite forallb_forall in *. intros a Ha. specialize (Hall a Ha).
    destruct (JS.digit_in 10 a) eqn:D; [|discriminate].
    now rewrite (proj1 (decimal_digit_facts _ _ D)). }
  destruct (digits_from_decimal (String c t) 0 Hall) as (v & Hv).
  exists v. unfold JS.BigInt, JS.StringToBigInt, JS.trim.
  pose proof Hall as Hall'. cbn in Hall'. apply andb_true_iff in Hall' as [Hc Ht].
  destruct (JS.digit_in 10 c) eqn:Dc; [|discriminate].
  destruct (decimal_digit_facts _ _ Dc) as (Wc & _ & _ & _ & Pc & Mc).
  cbn [JS.ltrim]. rewrite Wc, (rtrim_no_ws _ Hnows), StrIntegerLiteral_cases.
  rewrite Pc, Mc.
  assert (Hd : JS.digits 10 (String c t) = Some v) by exact Hv.
  destruct (Ascii.eqb c "0"); [|now rewrite Hd].
  destruct t as [|p body]; [now rewrite Hd|].
  cbn in Ht. apply andb_true_iff in Ht as [Hp _].
  destruct (JS.digit_in 10 p) eqn:Dp; [|discriminate].
  destruct (decimal_digit_facts _ _ Dp) as (_ & -> & -> & -> & _ & _).
  now rewrite Hd.
Qed.

(** *** The grammar of [BigInt] *)

Lemma digits_from_run (radix : Z) (s : string) :
  forall acc,
    (exists v, JS.digits_from radix acc s = Some v)
    <-> forallb (fun c => match JS.digit_in radix c with
                          | Some _ => true
                          | None => false
                          end) (chars s) = true.
Proof.
  induction s as [|c s IH]; intros acc.
  - split; [reflexivity|]. intros _. now exists acc.
  - cbn [JS.digits_from chars list_ascii_of_string forallb].
    fold (chars s).
    destruct (JS.digit_in radix c) as [d|]; cbn [andb].
    + apply IH.
    + split; [intros (v & H); discriminate|discriminate].
Qed.

Lemma digits_run (radix : Z) (s : string) :
  (exists v, JS.digits radix s = Some v) <-> digit_run radix s = true.
Proof.
  unfold JS.digits, digit_run. destruct s as [|c s].
  - split; [intros (v & H); discriminate|discriminate].
  - cbn [String.eqb negb andb]. apply digits_from_run.
Qed.

Lemma digit_run_first (radix : Z) (c : ascii) (t : string) :
  digit_run radix (String c t) = true -> JS.digit_in radix c <> None.
Proof.
  unfold digit_run. cbn. destruct (JS.digit_in radix c); [discriminate|].
  discriminate.
Qed.

Lemma digit_run_second (radix : Z) (c p : ascii) (t : string) :
  digit_run radix (String c (String p t)) = true ->
  JS.digit_in radix p <> None.
Proof.
  unfold digit_run. cbn. destruct (JS.digit_in radix c); [|discriminate].
  destruct (JS.digit_in radix p); discriminate.
Qed.

Lemma digit_in_weaken (c : ascii) (d : Z) :
  JS.digit_in 10 c = Some d \/ JS.digit_in 8 c = Some d
  \/ JS.digit_in 2 c = Some d \/ JS.digit_in 16 c = Some d ->
  JS.hex_digit c <> None.
Proof.
  unfold JS.digit_in. destruct (JS.hex_digit c); [discriminate|].
  intros [H|[H|[H|H]]]; discriminate.
Qed.

(** A literal without white space is accepted exactly when it follows the
    grammar. *)
Lemma StrIntegerLiteral_integer_text (t : string) :
  t <> EmptyString ->
  ((exists v, JS.StrIntegerLiteral t = Some v) <-> integer_text t).
Proof.
  destruct t as [|c t]; [congruence|]. intros _.
  rewrite StrIntegerLiteral_cases. unfold integer_text. split.
  - (* accepted texts follow the grammar *)
    assert (Hdec : (exists v, JS.digits 10 (String c t) = Some v) ->
                   exists sign body,
                     In sign [EmptyString; "+"; "-"]
                     /\ String c t = String.append sign body
                     /\ digit_run 10 body = true).
    { intros H. exists EmptyString, (String c t).
      split; [now left|]. split; [reflexivity|now apply digits_run]. }
    destruct (Ascii.eqb_spec c "0") as [->|_].
    + destruct t as [|p body]; [intros H; left; now apply Hdec|].
      destruct (Ascii.eqb p "x" || Ascii.eqb p "X")%bool eqn:Ex;
        [|destruct (Ascii.eqb p "o" || Ascii.eqb p "O")%bool eqn:Eo;
          [|destruct (Ascii.eqb p "b" || Ascii.eqb p "B")%bool eqn:Eb]].
      * intros H. right; left. apply digits_run in H.
        apply orb_true_iff in Ex as [E|E]; apply Ascii.eqb_eq in E; subst p.
        -- exists "0x", body. split; [now left|now split].
        -- exists "0X", body. split; [right; now left|now split].
      * intros H. right; right; left. apply digits_run in H.
        apply orb_true_iff in Eo as [E|E]; apply Ascii.eqb_eq in E; subst p.
        -- exists "0o", body. split; [now left|now split].
        -- exists "0O", body. split; [right; now left|now split].
      * intros H. right; right; right. apply digits_run in H.
        apply orb_true_iff in Eb as [E|E]; apply Ascii.eqb_eq in E; subst p.
        -- exists "0b", body. split; [now left|now split].
        -- exists "0B", body. split; [right; now left|now split].
      * intros H. left. now apply Hdec.
    + destruct (Ascii.eqb_spec c "+") as [->|_];
        [|destruct (Ascii.eqb_spec c "-") as [->|_]].
      * intros H. left. apply digits_run in H.
        exists "+", t. split; [right; now left|now split].
      * intros (v & H). left.
        destruct (JS.digits 10 t) as [w|] eqn:Hd; [|discriminate].
        exists "-", t. split; [right; right; now left|].
        split; [reflexivity|]. apply digits_run. now exists w.
      * intros H. left. now apply Hdec.
  - (* texts of the grammar are accepted *)
    intros [(sign & body & Hs & Ht & Hr)
           |[(prefix & body & Hp & Ht & Hr)
            |[(prefix & body & Hp & Ht & Hr)
             |(prefix & body & Hp & Ht & Hr)]]].
    + destruct Hs as [<-|[<-|[<-|[]]]]; cbn [String.append] in Ht.
      * (* no sign *)
        subst body.
        pose proof (digit_run_first _ _ _ Hr) as Hc.
        destruct (JS.digit_in 10 c) as [d|] eqn:Dc; [|congruence].
        destruct (decimal_digit_facts _ _ Dc) as (_ & _ & _ & _ & Pc & Mc).
        rewrite Pc, Mc.
        destruct (Ascii.eqb c "0"); [|now apply digits_run].
        destruct t as [|p rest]; [now apply digits_run|].
        pose proof (digit_run_second _ _ _ _ Hr) as Hp.
        destruct (JS.digit_in 10 p) as [d'|] eqn:Dp; [|congruence].
        destruct (decimal_digit_facts _ _ Dp) as (_ & -> & -> & -> & _ & _).
        now apply digits_run.
      * injection Ht as -> ->. cbn. now apply digits_run.
      * injection Ht as -> ->. cbn. apply digits_run in Hr as (v & ->).
        now exists (- v).
    + destruct Hp as [<-|[<-|[]]]; cbn [String.append] in Ht;
        injection Ht as -> ->; cbn; now apply digits_run.
    + destruct Hp as [<-|[<-|[]]]; cbn [String.append] in Ht;
        injection Ht as -> ->; cbn; now apply digits_run.
    + destruct Hp as [<-|[<-|[]]]; cbn [String.append] in Ht;
        injection Ht as -> ->; cbn; now apply digits_run.
Qed.

(** [BigInt] throws exactly on the strings that, trimmed, are neither empty
    nor of the grammar; the error is a [SyntaxError]. *)
Lemma BigInt_throws (h : string) :
  (JS.BigInt h = Throw SyntaxError
   <-> JS.trim h <> EmptyString /\ ~ integer_text (JS.trim h))
  /\ (forall e, JS.BigInt h = Throw e -> e = SyntaxError).
Proof.
  unfold JS.BigInt, JS.StringToBigInt.
  destruct (JS.trim h) as [|c t] eqn:E.
  - split; [|discriminate]. split; [discriminate|]. intros (H & _). now elim H.
  - pose proof (StrIntegerLiteral_integer_text (String c t) ltac:(discriminate))
      as Hg.
    destruct (JS.StrIntegerLiteral (String c t)) as [v|].
    + split; [|discriminate]. split; [discriminate|].
      intros (_ & Hn). elim Hn. apply Hg. now exists v.
    + split; [|now intros e [= <-]]. split; [|reflexivity].
      intros _. split; [discriminate|].
      intros Ht. apply Hg in Ht as (v & Hv). discriminate.
Qed.

Lemma extractBits_throws (h : string) (s c : Z) (e : js_error) :
  extractBits h s c = Throw e <-> JS.BigInt h = Throw e.
Proof.
  unfold extractBits. destruct (JS.BigInt h); split; congruence.
Qed.

(** White space after the prefix [0x] and in front of the digits is not
    trimmed; white space at the end is. *)
Lemma trim_prefixed (body : string) :
  JS.trim (String "0" (String "x" body))
  = String "0" (String "x" (JS.rtrim body)).
Proof.
  unfold JS.trim. cbn [JS.ltrim].
  replace (JS.is_ws "0") with false by reflexivity.
  cbn [JS.rtrim]. destruct (JS.rtrim body); reflexivity.
Qed.

Lemma digit_run_no_ws (radix : Z) (s : string) :
  digit_run radix s = true ->
  forallb (fun c => negb (JS.is_ws c)) (chars s) = true.
Proof.
  unfold digit_run. intros H. apply andb_true_iff in H as [_ H].
  rewrite forallb_forall in *. intros c Hc. specialize (H c Hc).
  destruct (JS.is_ws c) eqn:W; [|reflexivity].
  unfold JS.digit_in in H. now rewrite (ws_not_hex _ W) in H.
Qed.

Lemma trim_digit_run (radix : Z) (s : string) :
  digit_run radix s = true -> JS.trim s = s.
Proof.
  intros H. pose proof (digit_run_no_ws _ _ H) as Hw.
  unfold JS.trim. destruct s as [|c s]; [reflexivity|].
  pose proof Hw as Hw'. cbn in Hw'. apply andb_true_iff in Hw' as [Hc _].
  apply negb_true_iff in Hc. cbn [JS.ltrim]. rewrite Hc.
  now apply rtrim_no_ws.
Qed.

Lemma append_digit_run (radix : Z) (prefix body : string) (c : ascii) :
  digit_run radix (String.append prefix body) = true ->
  In c (chars prefix) -> JS.digit_in radix c <> None.
Proof.
  unfold digit_run. intros H Hc. apply andb_true_iff in H as [_ H].
  rewrite forallb_forall in H.
  assert (Hin : In c (chars (String.append prefix body))).
  { clear H. induction prefix as [|a prefix IH]; [destruct Hc|].
    destruct Hc as [->|Hc]; [now left|right; now apply IH]. }
  specialize (H c Hin). now destruct (JS.digit_in radix c).
Qed.

(** C6 (as stated) fails: ["255"] lacks the [0x] prefix, yet it is read as
    a decimal number and [extractBits] returns. *)
Lemma extractBits_decimal_string_accepted :
  is_hex_literal "255" = false /\ extractBits "255" 0 8 = Ok 255.
Proof. split; reflexivity. Qed.

(** C6 (as amended): for every start and count, [extractBits] returns on a
    well-formed [0x] literal.  It fails exactly when the string, with the
    white space at its two ends removed, is neither empty nor an integer
    literal of [BigInt], and the error is then the [SyntaxError] of
    [BigInt].  Hence: a string that holds a character which is none of a
    hexadecimal digit, a prefix letter, a sign or white space fails; a
    string with the prefix [0x] fails exactly when what follows the
    prefix, up to white space at the end, is not a non-empty run of
    hexadecimal digits; and a run of hexadecimal digits without the prefix
    fails exactly when it is neither a run of decimal digits nor a binary
    literal [0b...]: the missing prefix alone is no failure. *)
Theorem extractBits_failures :
  forall (h : string) (s c : Z),
    (is_hex_literal h = true -> exists n, extractBits h s c = Ok n)
    /\ (extractBits h s c = Throw SyntaxError
        <-> JS.trim h <> EmptyString /\ ~ integer_text (JS.trim h))
    /\ (forall e, extractBits h s c = Throw e -> e = SyntaxError)
    /\ (forall ch, In ch (chars h) -> bigint_char ch = false ->
        extractBits h s c = Throw SyntaxError)
    /\ (forall body,
          h = String "0" (String "x" body) ->
          (extractBits h s c = Throw SyntaxError
           <-> digit_run 16 (JS.rtrim body) = false))
    /\ (digit_run 16 h = true ->
        (extractBits h s c = Throw SyntaxError
         <-> digit_run 10 h = false
             /\ forall body,
                  h = String "0" (String "b" body)
                  \/ h = String "0" (String "B" body) ->
                  digit_run 2 body = false)).
Proof.
  intros h s c.
  destruct (BigInt_throws h) as (Hexact & Herr).
  split; [|split; [|split; [|split; [|split]]]].
  - intros Hh. destruct (BigInt_hex_literal h Hh) as (v & Hv & _).
    eexists. exact (extractBits_BigInt h v s c Hv).
  - rewrite extractBits_throws. exact Hexact.
  - intros e He. apply extractBits_throws in He. now apply Herr.
  - intros ch Hin Hbad. unfold extractBits.
    now rewrite (BigInt_rejects h ch Hin Hbad).
  - intros body ->. rewrite extractBits_throws.
    unfold JS.BigInt, JS.StringToBigInt. rewrite trim_prefixed.
    cbn [JS.StrIntegerLiteral]. cbn [Ascii.eqb Bool.eqb orb].
    pose proof (digits_run 16 (JS.rtrim body)) as Hd.
    destruct (JS.digits 16 (JS.rtrim body)) as [v|].
    + split; [discriminate|]. intros Hf.
      rewrite (proj1 Hd) in Hf; [discriminate|now exists v].
    + split; [|reflexivity]. intros _.
      destruct (digit_run 16 (JS.rtrim body)); [|reflexivity].
      destruct (proj2 Hd eq_refl) as (v & Hv). discriminate.
  - intros Hhex. rewrite extractBits_throws.
    rewrite Hexact, (trim_digit_run _ _ Hhex).
    assert (Hne : h <> EmptyString) by (intros ->; discriminate).
    split.
    + intros (_ & Hn). split.
      * destruct (digit_run 10 h) eqn:D; [|reflexivity].
        elim Hn. left. exists EmptyString, h.
        split; [now left|now split].
      * intros body Hb. destruct (digit_run 2 body) eqn:D; [|reflexivity].
        elim Hn. right; right; right.
        destruct Hb as [->| ->].
        -- exists "0b", body. split; [now left|now split].
        -- exists "0B", body. split; [right; now left|now split].
    + intros (Hdec & Hbin). split; [exact Hne|].
      intros [(sign & body & Hs & -> & Hr)
             |[(prefix & body & Hp & -> & Hr)
              |[(prefix & body & Hp & -> & Hr)
               |(prefix & body & Hp & -> & Hr)]]].
      * destruct Hs as [<-|[<-|[<-|[]]]].
        -- cbn [String.append] in Hdec. congruence.
        -- now apply (append_digit_run 16 "+" body "+"%char Hhex); [left|].
        -- now apply (append_digit_run 16 "-" body "-"%char Hhex); [left|].
      * destruct Hp as [<-|[<-|[]]].
        -- now apply (append_digit_run 16 "0x" body "x"%char Hhex);
             [right; left|].
        -- now apply (append_digit_run 16 "0X" body "X"%char Hhex);
             [right; left|].
      * destruct Hp as [<-|[<-|[]]].
        -- now apply (append_digit_run 16 "0o" body "o"%char Hhex);
             [right; left|].
        -- now apply (append_digit_run 16 "0O" body "O"%char Hhex);
             [right; left|].
      * destruct Hp as [<-|[<-|[]]]; cbn [String.append] in Hbin.
        -- rewrite (Hbin body) in Hr; [discriminate|now left].
        -- rewrite (Hbin body) in Hr; [discriminate|now right].
Qed.

Lemma extractBits_failures_witness :
  (exists n, extractBits "0x1f" 0 8 = Ok n)
  /\ extractBits "0x1g" 0 8 = Throw SyntaxError
  /\ extractBits "0xx1" 0 8 = Throw SyntaxError
  /\ extractBits "0x12 34" 0 8 = Throw SyntaxError
  /\ extractBits "0x" 0 8 = Throw SyntaxError
  /\ extractBits "FF" 0 8 = Throw SyntaxError.
Proof.
  split; [|split; [|split; [|split; [|split]]]].
  - apply (proj1 (extractBits_failures "0x1f" 0 8)). reflexivity.
  - apply (proj1 (proj2 (proj2 (proj2 (extractBits_failures "0x1g" 0 8))))
             "g"%char).
    + right. right. right. now left.
    + reflexivity.
  - apply (proj1 (proj2 (proj2 (proj2 (proj2
             (extractBits_failures "0xx1" 0 8))))) "x1" eq_refl).
    reflexivity.
  - apply (proj1 (proj2 (proj2 (proj2 (proj2
             (extractBits_failures "0x12 34" 0 8))))) "12 34" eq_refl).
    reflexivity.
  - apply (proj1 (proj2 (proj2 (proj2 (proj2
             (extractBits_failures "0x" 0 8))))) EmptyString eq_refl).
    reflexivity.
  - apply (proj2 (proj2 (proj2 (proj2 (proj2
             (extractBits_failures "FF" 0 8))))) eq_refl).
    split; [reflexivity|]. intros body [H|H]; discriminate.
Defined.

(** What [BigInt] makes of a few strings. *)
Example BigInt_examples :
  JS.BigInt " 0xfF  " = Ok 255
  /\ JS.BigInt "0b101" = Ok 5
  /\ JS.BigInt "-5" = Ok (-5)
  /\ JS.BigInt EmptyString = Ok 0
  /\ JS.BigInt "FF" = Throw SyntaxError
  /\ JS.BigInt "0x" = Throw SyntaxError
  /\ JS.BigInt "0x12 34" = Throw SyntaxError
  /\ JS.BigInt "0xx1" = Throw SyntaxError
  /\ JS.BigInt "-0x1" = Throw SyntaxError.
Proof. repeat split. Qed.

(** The no-break space U+00A0 is white space: in front of a literal it is
    trimmed like a space. *)
Example BigInt_no_break_space :
  JS.BigInt (String (ascii_of_nat 160) "0xff") = Ok 255
  /\ extractBits (String (ascii_of_nat 160) "0xff") 0 8 = Ok 255.
Proof. split; reflexivity. Qed.

(** Ties go to the even neighbour: [2^53 + 1] becomes [2^53], and
    [2^53 + 3] becomes [2^53 + 4]. *)
Example Number_examples :
  JS.Number 9007199254740993 = 9007199254740992
  /\ JS.Number 9007199254740995 = 9007199254740996
  /\ JS.Number 9007199254740994 = 9007199254740994.
Proof. repeat split. Qed.

End Decoder.

(** ** The reel generator *)

Section ReelGenerator.

Lemma bind_ext {A B : Type} (m : Dec A) (f g : A -> Dec B) :
  (forall a, f a = g a) -> bind m f = bind m g.
Proof.
  intros H. destruct m as [[a l]|e]; cbn; [rewrite H|]; reflexivity.
Qed.

Lemma readBits_ok (vrf : string) (v s c : Z) :
  JS.BigInt vrf = Ok v ->
  readBits vrf s c
  = Ok (JS.Number (Z.land (Z.shiftr v s) (Z.ones c)), [mkRead s c]).
Proof.
  intros H. unfold readBits. now rewrite (extractBits_BigInt vrf v s c H).
Qed.

Lemma readBits_same_BigInt (vrf vrf' : string) (s c : Z) :
  JS.BigInt vrf' = JS.BigInt vrf -> readBits vrf' s c = readBits vrf s c.
Proof.
  intros H. unfold readBits, extractBits. now rewrite H.
Qed.

Lemma generateReelConfiguration_loop_same (vrf vrf' : string) :
  JS.BigInt vrf' = JS.BigInt vrf ->
  forall n i idx reels,
    generateReelConfiguration_loop vrf' n i idx reels
    = generateReelConfiguration_loop vrf n i idx reels.
Proof.
  intros H. induction n as [|n IH]; intros i idx reels; [reflexivity|].
  cbn [generateReelConfiguration_loop].
  rewrite (readBits_same_BigInt vrf vrf' _ _ H).
  apply bind_ext. intros a. apply IH.
Qed.

(** The three bits of a height, and the height they give. *)
Lemma height_bits (v s : Z) :
  let bits := JS.Number (Z.land (Z.shiftr v s) (Z.ones 3)) in
  0 <= bits <= 7
  /\ Z.of_nat (Z.to_nat (2 + Z.rem bits 6)) = 2 + bits mod 6
  /\ (2 <= Z.to_nat (2 + Z.rem bits 6) <= 7)%nat.
Proof.
  intros bits. subst bits.
  pose proof (masked_range (Z.shiftr v s) 3 ltac:(lia)) as Hr.
  change (2 ^ 3 - 1) with 7 in Hr.
  rewrite Number_exact by lia.
  set (b := Z.land (Z.shiftr v s) (Z.ones 3)) in *.
  rewrite Z.rem_mod_nonneg by lia.
  pose proof (Z.mod_pos_bound b 6 ltac:(lia)). lia.
Qed.

(** C7: on a valid random value [generateReelConfiguration] returns six
    reels; reel [i] carries [reelIndex = i], no symbols, and the height
    [2 + (extractBits(random, 3 i, 3) mod 6)], which lies in [[2,7]]; and
    the result is a function of the random value alone (two spellings of
    the same number give the same reels). *)
Theorem generateReelConfiguration_heights (vrf : string) :
  is_hex_literal vrf = true ->
  exists reels log,
    generateReelConfiguration vrf = Ok (reels, log)
    /\ List.length reels = 6%nat
    /\ (forall i, (i < 6)%nat ->
        exists r bits,
          nth_error reels i = Some r
          /\ reelIndex r = Some i
          /\ reel_symbols r = []
          /\ extractBits vrf (3 * Z.of_nat i) 3 = Ok bits
          /\ Z.of_nat (height r) = 2 + bits mod 6
          /\ (2 <= height r <= 7)%nat)
    /\ (forall vrf', JS.BigInt vrf' = JS.BigInt vrf ->
        generateReelConfiguration vrf' = generateReelConfiguration vrf).
Proof.
  intros Hh. destruct (BigInt_hex_literal vrf Hh) as (v & Hv & _).
  unfold generateReelConfiguration at 1.
  cbn [generateReelConfiguration_loop].
  repeat (rewrite (readBits_ok vrf v _ 3 Hv);
          cbn [bind generateReelConfiguration_loop ret app]).
  do 2 eexists. split; [reflexivity|]. split; [reflexivity|]. split.
  - intros i Hi.
    do 6 (destruct i as [|i];
          [ do 2 eexists; cbn [nth_error reelIndex reel_symbols height];
            repeat split;
            [ rewrite (extractBits_BigInt vrf v _ 3 Hv); reflexivity
            | apply (height_bits v) | apply (height_bits v) | apply (height_bits v) ]
          | ]).
    lia.
  - intros vrf' H. apply generateReelConfiguration_loop_same, H.
Qed.

Lemma generateReelConfiguration_heights_witness :
  exists reels log,
    generateReelConfiguration "0x1234567890abcdef" = Ok (reels, log)
    /\ List.length reels = 6%nat
    /\ (forall i, (i < 6)%nat ->
        exists r bits,
          nth_error reels i = Some r
          /\ reelIndex r = Some i
          /\ reel_symbols r = []
          /\ extractBits "0x1234567890abcdef" (3 * Z.of_nat i) 3 = Ok bits
          /\ Z.of_nat (height r) = 2 + bits mod 6
          /\ (2 <= height r <= 7)%nat)
    /\ (forall vrf', JS.BigInt vrf' = JS.BigInt "0x1234567890abcdef" ->
        generateReelConfiguration vrf'
        = generateReelConfiguration "0x1234567890abcdef").
Proof.
  apply (generateReelConfiguration_heights "0x1234567890abcdef"). reflexivity.
Defined.

Example generateReelConfiguration_example :
  option_map (map height)
    (match generateReelConfiguration "0x1234567890abcdef" with
     | Ok (reels, _) => Some reels
     | Throw _ => None
     end)
  = Some [3; 7; 3; 2; 6; 3]%nat.
Proof. reflexivity. Qed.

End ReelGenerator.

(** ** Ways to win *)

Section WaysToWin.

Lemma fold_left_heights (reels : list reel) (a : Z) :
  fold_left (fun waysToWin r => waysToWin * Z.of_nat (height r)) reels a
  = a * heights_product reels.
Proof.
  revert a. induction reels as [|r reels IH]; intros a; cbn.
  - lia.
  - rewrite IH. unfold heights_product. cbn. lia.
Qed.

Lemma calculateWaysToWin_min (reels : list reel) :
  calculateWaysToWin reels = Z.min (heights_product reels) 117649.
Proof.
  unfold calculateWaysToWin, maxWaysToWin. rewrite fold_left_heights.
  f_equal. lia.
Qed.

Lemma heights_product_bound (reels : list reel) :
  Forall (fun r => (height r <= 7)%nat) reels ->
  0 <= heights_product reels <= 7 ^ Z.of_nat (List.length reels).
Proof.
  induction 1 as [|r reels Hr _ IH].
  - cbn. lia.
  - unfold heights_product in *. cbn [map fold_right List.length].
    rewrite Nat2Z.inj_succ, Z.pow_succ_r by lia. nia.
Qed.

Lemma heights_product_all_7 (reels : list reel) :
  Forall (fun r => height r = 7%nat) reels ->
  heights_product reels = 7 ^ Z.of_nat (List.length reels).
Proof.
  induction 1 as [|r reels Hr _ IH].
  - reflexivity.
  - unfold heights_product in *. cbn [map fold_right List.length].
    rewrite Nat2Z.inj_succ, Z.pow_succ_r, IH, Hr by lia. reflexivity.
Qed.

(** C8 (as stated) fails on its example: heights 2, 3, 4, 5, 6, 7 give
    5040 ways, not 2520. *)
Lemma calculateWaysToWin_example_is_5040 :
  calculateWaysToWin (grid_of_heights [2; 3; 4; 5; 6; 7]%nat) = 5040
  /\ calculateWaysToWin (grid_of_heights [2; 3; 4; 5; 6; 7]%nat) <> 2520.
Proof. split; [reflexivity|discriminate]. Qed.

(** C8 (as amended): for every grid [calculateWaysToWin] is the product of
    the reel heights capped at 117,649; for six reels of heights in [[2,7]]
    it is the raw product, which is 117,649 when all heights are 7; and
    heights 2, 3, 4, 5, 6, 7 give 5040 ways. *)
Theorem calculateWaysToWin_capped_product :
  (forall reels : list reel,
      calculateWaysToWin reels = Z.min (heights_product reels) 117649)
  /\ (forall reels : list reel,
         List.length reels = 6%nat ->
         Forall (fun r => (2 <= height r <= 7)%nat) reels ->
         calculateWaysToWin reels = heights_product reels
         /\ (Forall (fun r => height r = 7%nat) reels ->
             calculateWaysToWin reels = 117649))
  /\ calculateWaysToWin (grid_of_heights [2; 3; 4; 5; 6; 7]%nat) = 5040.
Proof.
  split; [exact calculateWaysToWin_min|]. split; [|reflexivity].
  intros reels Hlen Hr.
  assert (Hb : 0 <= heights_product reels <= 117649).
  { replace 117649 with (7 ^ Z.of_nat (List.length reels))
      by (rewrite Hlen; reflexivity).
    apply heights_product_bound.
    eapply Forall_impl; [|exact Hr]. cbn. intros; lia. }
  rewrite calculateWaysToWin_min. split; [lia|].
  intros H7. rewrite (heights_product_all_7 reels H7), Hlen. reflexivity.
Qed.

Lemma calculateWaysToWin_capped_product_witness :
  calculateWaysToWin (grid_of_heights [7; 7; 7; 7; 7; 7]%nat)
  = heights_product (grid_of_heights [7; 7; 7; 7; 7; 7]%nat)
  /\ (Forall (fun r => height r = 7%nat) (grid_of_heights [7; 7; 7; 7; 7; 7]%nat) ->
      calculateWaysToWin (grid_of_heights [7; 7; 7; 7; 7; 7]%nat) = 117649).
Proof.
  apply (proj1 (proj2 calculateWaysToWin_capped_product)).
  - reflexivity.
  - repeat constructor.
Defined.

End WaysToWin.

(** ** Dropping symbols *)

Section Drop.

Lemma not_null_json (syms : list cell) :
  filter not_null (map json_cell syms) = filter is_symbol syms.
Proof.
  induction syms as [|c syms IH]; [reflexivity|].
  destruct c; cbn; rewrite IH; reflexivity.
Qed.

Lemma filter_is_symbol_all (syms : list cell) :
  forallb is_symbol (filter is_symbol syms) = true.
Proof.
  induction syms as [|c syms IH]; [reflexivity|].
  cbn. destruct (is_symbol c) eqn:E; [cbn; now rewrite E|exact IH].
Qed.

Lemma forallb_skipn {A : Type} (f : A -> bool) (n : nat) (l : list A) :
  forallb f l = true -> forallb f (skipn n l) = true.
Proof.
  intros H. rewrite <- (firstn_skipn n l), forallb_app in H.
  now apply andb_true_iff in H.
Qed.

Lemma symbols_not_null (l : list cell) :
  forallb is_symbol l = true -> filter not_null l = l.
Proof.
  intros H. apply forallb_filter_id.
  rewrite forallb_forall in *. intros c Hc. specialize (H c Hc).
  now destruct c.
Qed.

Lemma repeat_Null_filter (k : nat) : filter not_null (repeat Null k) = [].
Proof. induction k; cbn; congruence. Qed.

Lemma repeat_Null_symbols (k : nat) : filter is_symbol (repeat Null k) = [].
Proof. induction k; cbn; congruence. Qed.

Lemma nth_map_seq {A : Type} (f : nat -> A) (h j : nat) (d : A) :
  (j < h)%nat -> nth j (map f (seq 0 h)) d = f j.
Proof.
  intros Hj.
  rewrite (nth_indep _ d (f 0%nat)) by (rewrite length_map, length_seq; exact Hj).
  rewrite map_nth, seq_nth by exact Hj. reflexivity.
Qed.

(** The bottom-up loop builds: the empty cells first, then the last
    [height] of the remaining symbols in their order. *)
Lemma drop_cells_shape (h : nat) (syms : list cell) :
  let remaining := filter not_null syms in
  let len := List.length remaining in
  drop_cells h syms
  = (repeat Null (h - len) ++ skipn (len - h) remaining)%list.
Proof.
  intros remaining len. unfold drop_cells. fold remaining. fold len.
  apply (nth_ext _ _ Null Null).
  - rewrite length_map, length_seq, length_app, repeat_length, length_skipn.
    fold len. lia.
  - intros j Hj. rewrite length_map, length_seq in Hj.
    rewrite nth_map_seq by exact Hj.
    destruct (Nat.ltb_spec (h - 1 - j) len) as [Hlt|Hge].
    + rewrite app_nth2 by (rewrite repeat_length; lia).
      rewrite repeat_length, nth_skipn. f_equal. lia.
    + rewrite app_nth1 by (rewrite repeat_length; lia).
      now rewrite nth_repeat.
Qed.

Lemma dropSymbolsDown_map (reels : list reel) :
  dropSymbolsDown reels = map drop_reel reels.
Proof.
  unfold dropSymbolsDown, deepCopy. rewrite map_map. reflexivity.
Qed.

Lemma drop_reel_cells (r : reel) :
  let kept := filter is_symbol (reel_symbols r) in
  reel_symbols (drop_reel r)
  = (repeat Null (height r - List.length kept)
     ++ skipn (List.length kept - height r) kept)%list.
Proof.
  cbn. rewrite drop_cells_shape, not_null_json. reflexivity.
Qed.

Lemma drop_reel_idempotent (r : reel) : drop_reel (drop_reel r) = drop_reel r.
Proof.
  unfold drop_reel at 1. cbn [reelIndex height drop_reel].
  rewrite (drop_reel_cells r).
  set (kept := filter is_symbol (reel_symbols r)).
  set (h := height r).
  assert (Hk : forallb is_symbol (skipn (List.length kept - h) kept) = true)
    by (apply forallb_skipn, filter_is_symbol_all).
  unfold drop_reel. f_equal. fold h.
  rewrite !drop_cells_shape, !not_null_json. fold kept.
  rewrite filter_app, repeat_Null_symbols, (forallb_filter_id _ _ Hk).
  cbn [app]. rewrite length_skipn, skipn_skipn.
  f_equal; f_equal; lia.
Qed.

Lemma Null_above_symbols (k : nat) (rest : list cell) (i j : nat) (c : cell) :
  forallb is_symbol rest = true ->
  nth_error (repeat Null k ++ rest) i = Some Null ->
  nth_error (repeat Null k ++ rest) j = Some c ->
  c <> Null ->
  (i < j)%nat.
Proof.
  intros Hrest Hi Hj Hc.
  assert (Hik : (i < k)%nat).
  { destruct (Nat.lt_ge_cases i k) as [|Hge]; [assumption|exfalso].
    rewrite nth_error_app2 in Hi by (rewrite repeat_length; lia).
    apply nth_error_In in Hi.
    rewrite forallb_forall in Hrest. now specialize (Hrest _ Hi). }
  destruct (Nat.lt_ge_cases j k) as [Hlt|]; [exfalso|lia].
  rewrite nth_error_app1 in Hj by (rewrite repeat_length; lia).
  rewrite nth_error_repeat in Hj by lia. congruence.
Qed.

(** C10 (as stated) fails: a reel of height 2 that holds the four cells
    [a], [null], [b], [c] comes back with the two cells [b], [c]: the
    number of cells is not kept and the symbol [a] is lost. *)
Lemma dropSymbolsDown_overfull_reel :
  map reel_symbols (dropSymbolsDown overfull_reel) = [ [Sym "b"; Sym "c"] ]
  /\ map (fun r => List.length (reel_symbols r)) (dropSymbolsDown overfull_reel)
     <> map (fun r => List.length (reel_symbols r)) overfull_reel
  /\ map (fun r => filter is_symbol (reel_symbols r))
         (dropSymbolsDown overfull_reel)
     <> map (fun r => filter is_symbol (reel_symbols r)) overfull_reel.
Proof. split; [reflexivity|]. split; discriminate. Qed.

(** C10 (as amended): [dropSymbolsDown] is idempotent; it keeps the reels and their
    heights; every reel of the result has exactly [height] cells, with
    every empty cell above every symbol; and on a grid whose reels have as
    many cells as their height the number of cells of each reel and the
    symbols of each reel, in their order, are kept. *)
Theorem dropSymbolsDown_idempotent_shape (reels : list reel) :
  dropSymbolsDown (dropSymbolsDown reels) = dropSymbolsDown reels
  /\ map height (dropSymbolsDown reels) = map height reels
  /\ map reelIndex (dropSymbolsDown reels) = map reelIndex reels
  /\ (forall r, In r (dropSymbolsDown reels) ->
      List.length (reel_symbols r) = height r
      /\ forall i j c,
           nth_error (reel_symbols r) i = Some Null ->
           nth_error (reel_symbols r) j = Some c ->
           c <> Null -> (i < j)%nat)
  /\ (cells_match_height reels ->
      map (fun r => List.length (reel_symbols r)) (dropSymbolsDown reels)
      = map (fun r => List.length (reel_symbols r)) reels
      /\ map (fun r => filter not_null (reel_symbols r)) (dropSymbolsDown reels)
         = map (fun r => filter is_symbol (reel_symbols r)) reels
      /\ map (fun r => filter is_symbol (reel_symbols r)) (dropSymbolsDown reels)
         = map (fun r => filter is_symbol (reel_symbols r)) reels).
Proof.
  rewrite !dropSymbolsDown_map, !map_map.
  split; [|split; [reflexivity|split; [reflexivity|split]]].
  - apply map_ext. intros r. apply drop_reel_idempotent.
  - intros r Hr. apply in_map_iff in Hr as (r0 & <- & _).
    rewrite drop_reel_cells. split.
    + rewrite length_app, repeat_length, length_skipn.
      cbn [height drop_reel]. lia.
    + intros i j c.
      apply Null_above_symbols, forallb_skipn, filter_is_symbol_all.
  - intros H. unfold cells_match_height in H. rewrite Forall_forall in H.
    assert (Hd : forall r, In r reels ->
              (List.length (filter is_symbol (reel_symbols r)) - height r)%nat
              = 0%nat
              /\ (height r - List.length (filter is_symbol (reel_symbols r))
                  + List.length (filter is_symbol (reel_symbols r)))%nat
                 = List.length (reel_symbols r)).
    { intros r Hr. specialize (H r Hr).
      pose proof (filter_length_le is_symbol (reel_symbols r)). lia. }
    repeat split; apply map_ext_in; intros r Hr;
      destruct (Hd r Hr) as [H0 Hl]; rewrite drop_reel_cells, H0; cbn [skipn].
    + rewrite length_app, repeat_length. exact Hl.
    + rewrite filter_app, repeat_Null_filter.
      apply symbols_not_null, filter_is_symbol_all.
    + rewrite filter_app, repeat_Null_symbols.
      apply forallb_filter_id, filter_is_symbol_all.
Qed.

Lemma dropSymbolsDown_idempotent_shape_witness :
  map (fun r => List.length (reel_symbols r)) (dropSymbolsDown drop_example)
  = map (fun r => List.length (reel_symbols r)) drop_example
  /\ map (fun r => filter not_null (reel_symbols r)) (dropSymbolsDown drop_example)
     = map (fun r => filter is_symbol (reel_symbols r)) drop_example
  /\ map (fun r => filter is_symbol (reel_symbols r)) (dropSymbolsDown drop_example)
     = map (fun r => filter is_symbol (reel_symbols r)) drop_example.
Proof.
  apply (proj2 (proj2 (proj2 (proj2 (dropSymbolsDown_idempotent_shape drop_example))))).
  repeat constructor.
Defined.

(** The expectations of the repository's own test of the drop. *)
Example dropSymbolsDown_test :
  map reel_symbols (dropSymbolsDown drop_example)
  = [ [Null; Null; Sym "eth"; Sym "sol"];
      [Null; Sym "btc"; Sym "nft_common"];
      [Null; Null; Sym "wallet"] ].
Proof. reflexivity. Qed.

End Drop.

(** ** The win evaluator *)

Section WinEvaluator.

Variable cfg : config.

Lemma cell_eqb_eq (a b : cell) : cell_eqb a b = true <-> a = b.
Proof.
  destruct a, b; cbn; try (split; [discriminate|congruence]);
    try (split; reflexivity).
  rewrite String.eqb_eq. split; congruence.
Qed.

Lemma Qltb_lt (a b : Q) : Qltb a b = true <-> (a < b)%Q.
Proof.
  unfold Qltb. rewrite negb_true_iff, <- not_true_iff_false, Qle_bool_iff.
  split; [apply Qnot_le_lt|apply Qlt_not_le].
Qed.

Lemma find_match_holds (target : cell) (syms : list cell) (i : nat) :
  find_match cfg target i syms = None
  <-> existsb (matches cfg target) syms = false.
Proof.
  revert i. induction syms as [|c syms IH]; intros i; cbn; [tauto|].
  destruct (matches cfg target c); cbn; [split; discriminate|apply IH].
Qed.

(** The combination [findSymbolCombination] returns has one position per
    reel of the run. *)
Lemma findSymbolCombination_from_length (target : cell) (reels : list reel) :
  forall i,
    List.length (findSymbolCombination_from cfg target i reels)
    = run_length cfg target reels.
Proof.
  induction reels as [|r reels IH]; intros i; [reflexivity|].
  cbn [findSymbolCombination_from run_length]. unfold reel_holds.
  destruct (find_match cfg target 0 (reel_symbols r)) as [[si sy]|] eqn:E.
  - destruct (existsb (matches cfg target) (reel_symbols r)) eqn:X.
    + cbn. now rewrite IH.
    + apply (find_match_holds _ _ 0%nat) in X. congruence.
  - apply find_match_holds in E. now rewrite E.
Qed.

Lemma findSymbolCombination_length (target : cell) (reels : list reel) :
  List.length (findSymbolCombination cfg reels target)
  = run_length cfg target reels.
Proof. apply findSymbolCombination_from_length. Qed.

Lemma set_add_in (acc : list cell) (c x : cell) :
  In x (set_add acc c) <-> In x acc \/ x = c.
Proof.
  unfold set_add. destruct (existsb (cell_eqb c) acc) eqn:E.
  - split; [now left|]. intros [H| ->]; [exact H|].
    apply existsb_exists in E as (y & Hy & Hc).
    apply cell_eqb_eq in Hc. now subst.
  - rewrite in_app_iff. cbn. intuition congruence.
Qed.

Lemma fold_set_add_in (syms acc : list cell) (x : cell) :
  In x (fold_left set_add syms acc) <-> In x acc \/ In x syms.
Proof.
  revert acc. induction syms as [|c syms IH]; intros acc; cbn; [tauto|].
  rewrite IH, set_add_in. intuition congruence.
Qed.

Lemma getUniqueSymbols_on_grid (reels : list reel) (x : cell) :
  In x (getUniqueSymbols reels) <-> on_grid x reels.
Proof.
  unfold getUniqueSymbols, on_grid.
  assert (G : forall acc,
             In x (fold_left (fun acc r => fold_left set_add (reel_symbols r) acc)
                             reels acc)
             <-> In x acc \/ exists r, In r reels /\ In x (reel_symbols r)).
  { induction reels as [|r reels IH]; intros acc; cbn [fold_left].
    - split; [now left|]. intros [H|(r & [] & _)]. exact H.
    - rewrite IH, fold_set_add_in. split.
      + intros [[H|H]|(r' & Hr & Hx)]; [now left|right|right].
        * exists r. split; [now left|exact H].
        * exists r'. split; [now right|exact Hx].
      + intros [H|(r' & [<-|Hr] & Hx)]; [now left; left|now left; right|].
        right. now exists r'. }
  rewrite G. cbn. tauto.
Qed.

(** What [combination_of] contributes, read off its tests. *)
Lemma combination_of_in (reels : list reel) (s : cell) (c : combination) :
  In c (combination_of cfg reels s)
  <-> s <> Sym "scatter"
      /\ (3 <= run_length cfg s reels)%nat
      /\ (0 < calculateSymbolPayout cfg s (run_length cfg s reels))%Q
      /\ c = mkCombination s (run_length cfg s reels)
               (findSymbolCombination cfg reels s)
               (calculateSymbolPayout cfg s (run_length cfg s reels))
               (countWaysForCombination reels s (run_length cfg s reels)).
Proof.
  unfold combination_of. rewrite findSymbolCombination_length.
  destruct (cell_eqb s (Sym "scatter")) eqn:Es.
  - apply cell_eqb_eq in Es. split; [intros []|]. intros (H & _). contradiction.
  - assert (Hs : s <> Sym "scatter").
    { intros ->. cbn in Es. discriminate. }
    destruct (Nat.leb_spec 3 (run_length cfg s reels)) as [Hl|Hl].
    + destruct (Qltb 0 (calculateSymbolPayout cfg s (run_length cfg s reels)))
        eqn:Ep.
      * apply Qltb_lt in Ep. cbn. intuition congruence.
      * split; [intros []|]. intros (_ & _ & Hp & _).
        apply Qltb_lt in Hp. congruence.
    + split; [intros []|]. intros (_ & H3 & _). lia.
Qed.

Lemma wild_never_pays (n : nat) :
  calculateSymbolPayout SymbolConfigurationService (Sym "wild") n = 0%Q.
Proof.
  do 7 (destruct n as [|n]; [reflexivity|]). reflexivity.
Qed.

(** C4 (as amended): the win evaluator lists an entry for a symbol exactly
    when the symbol occurs on the grid, is not the scatter, its run from reel 0 (wilds
    substituting) spans at least 3 reels and the catalog payout at that
    length is positive; every entry carries that run length and that
    positive payout, so no entry has payout 0; the scatter never has an
    entry, and with the catalog as shipped neither has the wild. *)
Theorem winning_entry_iff (reels : list reel) (s : cell) :
  ((exists c, In c (combinations (calculateWinningCombinations cfg reels))
              /\ comb_symbol c = s)
   <-> on_grid s reels
       /\ s <> Sym "scatter"
       /\ (3 <= run_length cfg s reels)%nat
       /\ (0 < getSymbolPayout cfg (property_key s) (run_length cfg s reels))%Q)
  /\ (forall c, In c (combinations (calculateWinningCombinations cfg reels)) ->
      on_grid (comb_symbol c) reels
      /\ comb_symbol c <> Sym "scatter"
      /\ comb_length c = run_length cfg (comb_symbol c) reels
      /\ (3 <= comb_length c)%nat
      /\ comb_positions c = findSymbolCombination cfg reels (comb_symbol c)
      /\ basePayout c
         = getSymbolPayout cfg (property_key (comb_symbol c)) (comb_length c)
      /\ (0 < basePayout c)%Q)
  /\ (forall c,
      In c (combinations
              (calculateWinningCombinations SymbolConfigurationService reels)) ->
      comb_symbol c <> Sym "wild").
Proof.
  cbn [combinations calculateWinningCombinations]. split; [|split].
  - split.
    + intros (c & Hin & <-).
      apply in_flat_map in Hin as (x & Hx & Hc).
      apply combination_of_in in Hc as (Hs & Hl & Hp & ->). cbn.
      rewrite getUniqueSymbols_on_grid in Hx. exact (conj Hx (conj Hs (conj Hl Hp))).
    + intros (Hg & Hs & Hl & Hp).
      eexists. split.
      { apply in_flat_map. exists s. split; [now apply getUniqueSymbols_on_grid|].
        apply combination_of_in.
        exact (conj Hs (conj Hl (conj Hp eq_refl))). }
      reflexivity.
  - intros c Hin. apply in_flat_map in Hin as (x & Hx & Hc).
    apply combination_of_in in Hc as (Hs & Hl & Hp & ->). cbn.
    rewrite getUniqueSymbols_on_grid in Hx.
    exact (conj Hx (conj Hs (conj eq_refl (conj Hl (conj eq_refl (conj eq_refl Hp)))))).
  - intros c Hin Hw. apply in_flat_map in Hin as (x & Hx & Hc).
    unfold combination_of in Hc.
    destruct (cell_eqb x (Sym "scatter")); [destruct Hc|].
    destruct (3 <=? _)%nat; [|destruct Hc].
    destruct (Qltb 0 _) eqn:Ep; [|destruct Hc].
    destruct Hc as [<-|[]]. cbn in Hw. subst x.
    rewrite wild_never_pays in Ep. discriminate.
Qed.

End WinEvaluator.

Lemma winning_entry_iff_witness :
  exists c,
    In c (combinations
            (calculateWinningCombinations SymbolConfigurationService btc_grid))
    /\ comb_symbol c = Sym "btc".
Proof.
  apply (proj2 (proj1 (winning_entry_iff SymbolConfigurationService btc_grid
                         (Sym "btc")))).
  split; [|split; [|split]].
  - exists (mkReel None 3 [Sym "btc"; Sym "eth"; Sym "sol"]).
    split; [now left|now left].
  - discriminate.
  - vm_compute. lia.
  - reflexivity.
Defined.

(** C4 (as stated) fails: on [wild_grid] the symbol [btc] is not the
    scatter, the three wilds give it a run of 3, and the catalog pays 5 for
    three [btc]; yet the evaluator lists no entry for [btc], because it
    looks only at the symbols that occur on the grid. *)
Lemma winning_entry_needs_symbol_on_grid :
  Sym "btc" <> Sym "scatter"
  /\ (3 <= run_length SymbolConfigurationService (Sym "btc") wild_grid)%nat
  /\ (0 < getSymbolPayout SymbolConfigurationService "btc"
             (run_length SymbolConfigurationService (Sym "btc") wild_grid))%Q
  /\ ~ (exists c,
          In c (combinations
                  (calculateWinningCombinations SymbolConfigurationService
                                                wild_grid))
          /\ comb_symbol c = Sym "btc").
Proof.
  split; [discriminate|]. split; [vm_compute; lia|]. split; [reflexivity|].
  intros (c & Hin & _). vm_compute in Hin. exact Hin.
Qed.

(** The repository's test of the evaluator: one combination, [btc] over
    three reels, paying 5. *)
Example calculateWinningCombinations_test :
  map (fun c => (comb_symbol c, comb_length c, basePayout c))
      (combinations
         (calculateWinningCombinations SymbolConfigurationService btc_grid))
  = [ (Sym "btc", 3%nat, 5%Q) ].
Proof. reflexivity. Qed.

(** Three wilds on the first reels win nothing for a symbol that is not
    on the grid, and nothing for the wild itself. *)
Example wilds_alone_win_nothing :
  combinations
    (calculateWinningCombinations SymbolConfigurationService
       (map (fun l => mkReel None 2 (map Sym l))
          [ ["wild"; "scatter"]; ["wild"; "scatter"]; ["wild"; "scatter"];
            ["scatter"; "scatter"]; ["scatter"; "scatter"];
            ["scatter"; "scatter"] ]))
  = [].
Proof. reflexivity. Qed.

(** ** The cascade engine *)

Section Cascade.

Variable cfg : config.
Variable vrfNumber : string.
Variable betAmount : Q.

Lemma bind_Ok {A B : Type} (m : Dec A) (f : A -> Dec B) (b : B) (l : list read) :
  bind m f = Ok (b, l) ->
  exists a l1 l2, m = Ok (a, l1) /\ f a = Ok (b, l2) /\ l = (l1 ++ l2)%list.
Proof.
  destruct m as [[a l1]|e]; cbn; [|discriminate].
  destruct (f a) as [[b' l2]|e] eqn:E; [|discriminate].
  intros [= <- <-]. now exists a, l1, l2.
Qed.

Lemma sum_levelPayout_snoc (rounds : list cascade_round) (r : cascade_round) :
  sum_levelPayout (rounds ++ [r]) = (sum_levelPayout rounds + levelPayout r)%Q.
Proof. unfold sum_levelPayout. now rewrite fold_left_app. Qed.

(** Appending the round of the next level keeps the record in order. *)
Lemma rounds_recorded_snoc (rounds : list cascade_round) (r : cascade_round) :
  rounds_recorded betAmount rounds ->
  level r = List.length rounds ->
  (0 < level r <= maxCascades)%nat ->
  multiplier r = nth (Nat.min (level r) 6) [1; 2; 3; 5; 8; 12; 20]%Q 0%Q ->
  levelPayout r
  = (calculateTotalPayout (winningCombinations r) betAmount * multiplier r)%Q ->
  totalPayout r = (sum_levelPayout rounds + levelPayout r)%Q ->
  rounds_recorded betAmount (rounds ++ [r]).
Proof.
  intros Hrec Hlev Hpos Hmul Hpay Htot i r0 Hi.
  destruct (Nat.lt_ge_cases i (List.length rounds)) as [Hlt|Hge].
  - rewrite nth_error_app1 in Hi by exact Hlt.
    destruct (Hrec i r0 Hi) as (H1 & H2 & H3 & H4 & H5).
    repeat split; try assumption.
    rewrite firstn_app, H5.
    replace (S i - List.length rounds)%nat with 0%nat by lia.
    cbn [firstn]. now rewrite app_nil_r.
  - rewrite nth_error_app2 in Hi by exact Hge.
    destruct (i - List.length rounds)%nat as [|k] eqn:E;
      [|destruct k; discriminate].
    cbn in Hi. injection Hi as <-.
    assert (i = List.length rounds) by lia. subst i.
    repeat split; try assumption; try lia.
    + destruct (Nat.eqb_spec (List.length rounds) 0); [lia|exact Hpay].
    + rewrite firstn_all2 by (rewrite length_app; cbn; lia).
      now rewrite sum_levelPayout_snoc.
Qed.

Lemma cascade_loop_outcome (fuel : nat) :
  forall st st' log,
    loop_invariant betAmount st ->
    cascade_loop cfg vrfNumber betAmount fuel st = Ok (st', log) ->
    loop_outcome betAmount st'.
Proof.
  induction fuel as [|fuel IH]; intros st st' log (Hrec & Hlen & Hlev & Htw) Hrun.
  - injection Hrun as <- _. unfold loop_outcome; split; [exact Hrec|split; [lia|exact Htw]].
  - cbn [cascade_loop] in Hrun.
    destruct (hasWins (currentWins st) && (cascadeLevel st <? maxCascades)%nat)%bool
      eqn:Hcond.
    2:{ injection Hrun as <- _. unfold loop_outcome; split; [exact Hrec|split; [lia|exact Htw]]. }
    apply andb_true_iff in Hcond as [_ Hlt]. apply Nat.ltb_lt in Hlt.
    apply bind_Ok in Hrun as (refilled & l1 & l2 & _ & Hk & _).
    destruct (hasWins (calculateWinningCombinations cfg refilled)).
    + apply IH in Hk; [exact Hk|].
      unfold loop_invariant. cbn [cascadeResults cascadeLevel totalWinnings].
      split; [|split; [|split]].
      * apply rounds_recorded_snoc; cbn [level multiplier levelPayout
                                           totalPayout winningCombinations];
          try reflexivity; try assumption; try lia.
        now rewrite Htw.
      * rewrite length_app. cbn. lia.
      * lia.
      * rewrite sum_levelPayout_snoc, Htw. reflexivity.
    + injection Hk as <- _. unfold loop_outcome.
      cbn [cascadeResults totalWinnings].
      split; [exact Hrec|split; [lia|exact Htw]].
Qed.

Lemma processCascadingReels_outcome (reels : list reel) (res : cascade_result)
  (log : list read) :
  processCascadingReels cfg reels vrfNumber betAmount = Ok (res, log) ->
  rounds_recorded betAmount (cascades res)
  /\ (List.length (cascades res) <= 7)%nat
  /\ totalCascades res = List.length (cascades res)
  /\ res_totalWinnings res = sum_levelPayout (cascades res).
Proof.
  unfold processCascadingReels.
  destruct (hasWins (calculateWinningCombinations cfg (deepCopy reels))).
  - intros Hrun. apply bind_Ok in Hrun as (st & l1 & l2 & Hloop & Hfin & _).
    injection Hfin as <- _. cbn [cascades totalCascades res_totalWinnings finish].
    apply cascade_loop_outcome in Hloop.
    + destruct Hloop as (H1 & H2 & H3).
      exact (conj H1 (conj H2 (conj eq_refl H3))).
    + unfold loop_invariant. cbn [cascadeResults cascadeLevel totalWinnings].
      split; [|split; [reflexivity|split; [unfold maxCascades; lia|reflexivity]]].
      intros i r Hi. destruct i as [|[|i]]; try discriminate.
      injection Hi as <-. unfold round_recorded. cbn.
      split; [reflexivity|]. split; [unfold maxCascades; lia|].
      repeat split.
  - intros [= <- _]. cbn.
    split; [|split; [lia|split; reflexivity]].
    intros i r Hi. destruct i; discriminate.
Qed.

(** *** The loop ends within [maxCascades] iterations *)

Lemma cascade_loop_S (fuel : nat) (st : cascade_state) :
  cascade_loop cfg vrfNumber betAmount (S fuel) st
  = if (hasWins (currentWins st) && (cascadeLevel st <? maxCascades)%nat)%bool
    then
      bind (generateNewSymbols cfg
              (dropSymbolsDown
                 (removeWinningSymbols (currentReels st)
                    (combinations (currentWins st))))
              vrfNumber (vrfOffset st))
        (fun refilled =>
           let vrfOffset' := vrfOffset st + calculateVrfBitsNeeded refilled in
           let cascadeWins := calculateWinningCombinations cfg refilled in
           if hasWins cascadeWins then
             let cascadeMultiplier :=
               nth (Nat.min (S (cascadeLevel st))
                            (List.length cascadeMultipliers - 1))
                   cascadeMultipliers 0%Q in
             let basePayout :=
               calculateTotalPayout (combinations cascadeWins) betAmount in
             let multipliedPayout := (basePayout * cascadeMultiplier)%Q in
             let totalWinnings' := (totalWinnings st + multipliedPayout)%Q in
             cascade_loop cfg vrfNumber betAmount fuel
               (mkState
                  (cascadeResults st
                   ++ [mkRound (S (cascadeLevel st)) (deepCopy refilled)
                         (combinations cascadeWins) cascadeMultiplier
                         multipliedPayout totalWinnings'])
                  refilled vrfOffset' (S (cascadeLevel st)) totalWinnings'
                  cascadeWins)
           else
             ret (mkState (cascadeResults st) refilled vrfOffset'
                          (S (cascadeLevel st)) (totalWinnings st)
                          (currentWins st)))
    else ret st.
Proof. reflexivity. Qed.

Lemma cascade_loop_fuel_step (fuel : nat) :
  forall st,
    (maxCascades - cascadeLevel st <= fuel)%nat ->
    cascade_loop cfg vrfNumber betAmount (S fuel) st
    = cascade_loop cfg vrfNumber betAmount fuel st.
Proof.
  induction fuel as [|fuel IH]; intros st Hf.
  - rewrite cascade_loop_S.
    replace (cascadeLevel st <? maxCascades)%nat with false
      by (symmetry; apply Nat.ltb_ge; lia).
    now rewrite andb_false_r.
  - rewrite (cascade_loop_S (S fuel)), (cascade_loop_S fuel).
    destruct (hasWins (currentWins st) && (cascadeLevel st <? maxCascades)%nat)%bool;
      [|reflexivity].
    apply bind_ext. intros refilled. cbv zeta.
    destruct (hasWins (calculateWinningCombinations cfg refilled)); [|reflexivity].
    apply IH. cbn [cascadeLevel]. lia.
Qed.

(** More iterations than [maxCascades] allowed change nothing: the bound
    on the fuel is the bound of the loop condition. *)
Lemma cascade_loop_fuel_enough (k : nat) (st : cascade_state) :
  cascade_loop cfg vrfNumber betAmount (k + maxCascades) st
  = cascade_loop cfg vrfNumber betAmount maxCascades st.
Proof.
  induction k as [|k IH]; [reflexivity|].
  cbn [Nat.add]. rewrite cascade_loop_fuel_step; [exact IH|lia].
Qed.

(** *** The refill and its reads *)

Lemma pick_not_null (w : list string) (bits : Z) : not_null (pick w bits) = true.
Proof.
  unfold pick. destruct w as [|s w]; [reflexivity|].
  destruct (_ <? 0); [reflexivity|].
  destruct (nth_error _ _); reflexivity.
Qed.

Lemma byte_reads_S (offset : Z) (n : nat) :
  byte_reads offset (S n) = mkRead offset 8 :: byte_reads (offset + 8) n.
Proof.
  unfold byte_reads. cbn [seq map]. rewrite <- seq_shift, map_map.
  f_equal; [f_equal; lia|].
  apply map_ext. intros k. f_equal. lia.
Qed.

Lemma refill_cells_Ok (w : list string) (syms : list cell) :
  forall off syms' off' log,
    refill_cells vrfNumber w syms off = Ok ((syms', off'), log) ->
    forallb not_null syms' = true
    /\ off' = off + 8 * Z.of_nat (nulls syms)
    /\ log = byte_reads off (nulls syms).
Proof.
  induction syms as [|c syms IH]; intros off syms' off' log H.
  - injection H as <- <- <-. cbn. repeat split. lia.
  - cbn [refill_cells] in H. unfold nulls. cbn [filter].
    destruct (cell_eqb c Null) eqn:Ec.
    + apply bind_Ok in H as (bits & l1 & l2 & Hr & H & ->).
      apply bind_Ok in H as ([rest off2] & l3 & l4 & Hrest & H & ->).
      injection H as <- <- <-.
      destruct (IH _ _ _ _ Hrest) as (Hn & -> & ->).
      unfold readBits in Hr.
      destruct (extractBits vrfNumber off 8); [|discriminate].
      injection Hr as <- <-.
      cbn [forallb List.length]. rewrite pick_not_null, Hn.
      fold (nulls syms). rewrite byte_reads_S, app_nil_r.
      repeat split. lia.
    + apply bind_Ok in H as ([rest off2] & l3 & l4 & Hrest & H & ->).
      injection H as <- <- <-.
      destruct (IH _ _ _ _ Hrest) as (Hn & -> & ->).
      cbn [forallb]. unfold not_null at 1. rewrite Ec, Hn.
      fold (nulls syms). rewrite app_nil_r. repeat split.
Qed.

Lemma byte_reads_app (offset : Z) (n m : nat) :
  (byte_reads offset n ++ byte_reads (offset + 8 * Z.of_nat n) m)%list
  = byte_reads offset (n + m).
Proof.
  revert offset. induction n as [|n IH]; intros offset.
  - cbn [Nat.add]. replace (offset + 8 * Z.of_nat 0) with offset by lia.
    reflexivity.
  - cbn [Nat.add]. rewrite !byte_reads_S. cbn [app]. f_equal.
    rewrite <- IH. do 2 f_equal. lia.
Qed.

Lemma refill_reels_Ok (w : list string) (reels : list reel) :
  forall off reels' log,
    refill_reels vrfNumber w reels off = Ok (reels', log) ->
    no_null reels' = true /\ log = byte_reads off (count_null reels).
Proof.
  induction reels as [|r reels IH]; intros off reels' log H.
  - injection H as <- <-. split; reflexivity.
  - cbn [refill_reels] in H.
    apply bind_Ok in H as ([syms off1] & l1 & l2 & Hc & H & ->).
    apply bind_Ok in H as (rest & l3 & l4 & Hrest & H & ->).
    injection H as <- <-.
    destruct (refill_cells_Ok _ _ _ _ _ _ Hc) as (Hn & -> & ->).
    destruct (IH _ _ _ Hrest) as (Hn' & ->).
    cbn [no_null forallb reel_symbols count_null fold_right].
    fold (no_null rest). fold (count_null reels).
    rewrite Hn, Hn', app_nil_r, byte_reads_app. split; reflexivity.
Qed.

(** A refill leaves no [null] cell, and reads one byte per empty cell,
    consecutively from the offset it is given. *)
Lemma generateNewSymbols_Ok (reels refilled : list reel) (off : Z)
  (log : list read) :
  generateNewSymbols cfg reels vrfNumber off = Ok (refilled, log) ->
  no_null refilled = true
  /\ log = byte_reads off (count_null (deepCopy reels)).
Proof. apply refill_reels_Ok. Qed.

Lemma fold_nulls_zero (syms : list cell) (n : Z) :
  forallb not_null syms = true ->
  fold_left (fun n symbol => if cell_eqb symbol Null then n + 1 else n) syms n = n.
Proof.
  revert n. induction syms as [|c syms IH]; intros n H; [reflexivity|].
  cbn in H. apply andb_true_iff in H as [Hc Hs].
  cbn [fold_left]. unfold not_null in Hc. apply negb_true_iff in Hc.
  rewrite Hc. now apply IH.
Qed.

(** On the reels as the refill returns them there is nothing to count. *)
Lemma calculateVrfBitsNeeded_refilled (reels : list reel) :
  no_null reels = true -> calculateVrfBitsNeeded reels = 0.
Proof.
  unfold calculateVrfBitsNeeded, no_null. intros H.
  assert (G : forall n,
             fold_left
               (fun n r =>
                  fold_left (fun n symbol => if cell_eqb symbol Null then n + 1 else n)
                            (reel_symbols r) n)
               reels n = n).
  { induction reels as [|r reels IH]; intros n; [reflexivity|].
    cbn in H. apply andb_true_iff in H as [Hr Hs].
    cbn [fold_left]. rewrite (fold_nulls_zero _ _ Hr). now apply IH. }
  now rewrite G.
Qed.

(** Every iteration of the loop reads its bytes from the same offset. *)
Lemma cascade_loop_reads (fuel : nat) :
  forall st st' log,
    cascade_loop cfg vrfNumber betAmount fuel st = Ok (st', log) ->
    vrfOffset st' = vrfOffset st
    /\ exists ns, (List.length ns <= fuel)%nat
                  /\ log = flat_map (byte_reads (vrfOffset st)) ns.
Proof.
  induction fuel as [|fuel IH]; intros st st' log H.
  - injection H as <- <-. split; [reflexivity|]. now exists [].
  - rewrite cascade_loop_S in H.
    destruct (hasWins (currentWins st) && (cascadeLevel st <? maxCascades)%nat)%bool.
    2:{ injection H as <- <-. split; [reflexivity|]. exists []. cbn. split; [lia|easy]. }
    apply bind_Ok in H as (refilled & l1 & l2 & Hg & H & ->).
    destruct (generateNewSymbols_Ok _ _ _ _ Hg) as (Hn & ->).
    cbv zeta in H. rewrite (calculateVrfBitsNeeded_refilled _ Hn), Z.add_0_r in H.
    destruct (hasWins (calculateWinningCombinations cfg refilled)).
    + apply IH in H as (Ho & ns & Hl & ->). cbn [vrfOffset] in *.
      split; [exact Ho|].
      eexists (_ :: ns). split; [cbn; lia|reflexivity].
    + injection H as <- <-. split; [reflexivity|].
      eexists [_]. split; [cbn; lia|]. cbn [flat_map]. reflexivity.
Qed.

(** Whatever the heights of the reels, every cascade round of
    [processCascadingReels] reads its refill bytes from offset 256 on. *)
Lemma processCascadingReels_reads (reels : list reel) (res : cascade_result)
  (log : list read) :
  processCascadingReels cfg reels vrfNumber betAmount = Ok (res, log) ->
  exists ns, (List.length ns <= 6)%nat /\ log = flat_map (byte_reads 256) ns.
Proof.
  unfold processCascadingReels.
  destruct (hasWins (calculateWinningCombinations cfg (deepCopy reels))).
  - intros H. apply bind_Ok in H as (st & l1 & l2 & Hloop & Hfin & ->).
    injection Hfin as _ <-. rewrite app_nil_r.
    apply cascade_loop_reads in Hloop as (_ & ns & Hl & ->).
    exists ns. split; [exact Hl|reflexivity].
  - intros [= _ <-]. exists []. cbn. split; [lia|reflexivity].
Qed.

(** The initial population reads one byte per cell, consecutively from
    bit 18. *)
Lemma populateReel_Ok (w : list string) (n : nat) :
  forall off syms syms' off' log,
    populateReel vrfNumber w n off syms = Ok ((syms', off'), log) ->
    off' = off + 8 * Z.of_nat n /\ log = byte_reads off n.
Proof.
  induction n as [|n IH]; intros off syms syms' off' log H.
  - injection H as _ <- <-. split; [lia|reflexivity].
  - cbn [populateReel] in H.
    apply bind_Ok in H as (bits & l1 & l2 & Hr & H & ->).
    destruct (IH _ _ _ _ _ H) as (-> & ->).
    unfold readBits in Hr.
    destruct (extractBits vrfNumber off 8); [|discriminate].
    injection Hr as _ <-. rewrite byte_reads_S. split; [lia|reflexivity].
Qed.

Lemma populateReels_loop_Ok (w : list string) (reels : list reel) :
  forall off reels' log,
    populateReels_loop vrfNumber w reels off = Ok (reels', log) ->
    log = byte_reads off (heights_sum reels).
Proof.
  induction reels as [|r reels IH]; intros off reels' log H.
  - injection H as _ <-. reflexivity.
  - cbn [populateReels_loop] in H.
    apply bind_Ok in H as ([syms off1] & l1 & l2 & Hc & H & ->).
    apply bind_Ok in H as (rest & l3 & l4 & Hrest & H & ->).
    injection H as _ <-.
    destruct (populateReel_Ok _ _ _ _ _ _ _ Hc) as (-> & ->).
    rewrite (IH _ _ _ Hrest), app_nil_r, byte_reads_app. reflexivity.
Qed.

Lemma heights_sum_deepCopy (reels : list reel) :
  heights_sum (deepCopy reels) = heights_sum reels.
Proof.
  induction reels as [|r reels IH]; [reflexivity|].
  cbn [deepCopy map heights_sum fold_right height].
  fold (deepCopy reels). fold (heights_sum (deepCopy reels)).
  fold (heights_sum reels). now rewrite IH.
Qed.

Lemma populateReels_reads (reels populated : list reel) (log : list read) :
  populateReels cfg vrfNumber reels = Ok (populated, log) ->
  log = byte_reads 18 (heights_sum reels).
Proof.
  unfold populateReels. intros H.
  rewrite (populateReels_loop_Ok _ _ _ _ _ H). now rewrite heights_sum_deepCopy.
Qed.

(** *** The engine returns *)

Lemma refill_cells_returns (v : Z) (w : list string) (syms : list cell) :
  JS.BigInt vrfNumber = Ok v ->
  forall off, exists x log, refill_cells vrfNumber w syms off = Ok (x, log).
Proof.
  intros Hv. induction syms as [|c syms IH]; intros off.
  - now exists ([], off), [].
  - cbn [refill_cells]. destruct (cell_eqb c Null).
    + rewrite (readBits_ok vrfNumber v off 8 Hv). cbn [bind].
      destruct (IH (off + 8)) as ([rest off'] & l & ->). cbn. eauto.
    + destruct (IH off) as ([rest off'] & l & ->). cbn. eauto.
Qed.

Lemma refill_reels_returns (v : Z) (w : list string) (reels : list reel) :
  JS.BigInt vrfNumber = Ok v ->
  forall off, exists x log, refill_reels vrfNumber w reels off = Ok (x, log).
Proof.
  intros Hv. induction reels as [|r reels IH]; intros off.
  - now exists [], [].
  - cbn [refill_reels].
    destruct (refill_cells_returns v w (reel_symbols r) Hv off)
      as ([syms off'] & l & ->).
    cbn [bind]. destruct (IH off') as (rest & l' & ->). cbn. eauto.
Qed.

Lemma cascade_loop_returns (v : Z) (fuel : nat) :
  JS.BigInt vrfNumber = Ok v ->
  forall st, exists st' log,
    cascade_loop cfg vrfNumber betAmount fuel st = Ok (st', log).
Proof.
  intros Hv. induction fuel as [|fuel IH]; intros st.
  - now exists st, [].
  - rewrite cascade_loop_S.
    destruct (hasWins (currentWins st) && (cascadeLevel st <? maxCascades)%nat)%bool;
      [|now exists st, []].
    unfold generateNewSymbols.
    destruct (refill_reels_returns v (createWeightedSymbolArray cfg true [])
                (deepCopy
                   (dropSymbolsDown
                      (removeWinningSymbols (currentReels st)
                         (combinations (currentWins st)))))
                Hv (vrfOffset st)) as (refilled & l & ->).
    cbn [bind]. cbv zeta.
    destruct (hasWins (calculateWinningCombinations cfg refilled)).
    + match goal with
      | |- context [cascade_loop _ _ _ fuel ?s] => destruct (IH s) as (st' & l' & ->)
      end. eauto.
    + cbn. eauto.
Qed.

Lemma processCascadingReels_returns (v : Z) (reels : list reel) :
  JS.BigInt vrfNumber = Ok v ->
  exists res log,
    processCascadingReels cfg reels vrfNumber betAmount = Ok (res, log).
Proof.
  intros Hv. unfold processCascadingReels.
  destruct (hasWins (calculateWinningCombinations cfg (deepCopy reels)));
    [|unfold ret; eauto].
  match goal with
  | |- context [cascade_loop _ _ _ maxCascades ?s] =>
      destruct (cascade_loop_returns v maxCascades Hv s) as (st' & l' & ->)
  end.
  cbn. eauto.
Qed.

End Cascade.

(** C2: [processCascadingReels] returns for every random value [BigInt]
    reads; what it returns holds at most 7 rounds (the initial one and at
    most 6 cascades); the round at index [i] has level [i], and a round of
    level [L] carries the multiplier [[1,2,3,5,8,12,20][min(L, 6)]], which
    is 1 for level 0. *)
Theorem processCascadingReels_rounds_bounded (cfg : config) (reels : list reel)
  (vrf : string) (bet : Q) :
  (forall v, JS.BigInt vrf = Ok v ->
     exists res log, processCascadingReels cfg reels vrf bet = Ok (res, log))
  /\ (forall res log,
        processCascadingReels cfg reels vrf bet = Ok (res, log) ->
        (List.length (cascades res) <= 7)%nat
        /\ totalCascades res = List.length (cascades res)
        /\ forall i r,
             nth_error (cascades res) i = Some r ->
             level r = i
             /\ (level r <= 6)%nat
             /\ multiplier r
                = nth (Nat.min (level r) 6) [1; 2; 3; 5; 8; 12; 20]%Q 0%Q
             /\ (level r = 0%nat -> multiplier r = 1%Q)).
Proof.
  split.
  - intros v Hv. exact (processCascadingReels_returns cfg vrf bet v reels Hv).
  - intros res log H.
    destruct (processCascadingReels_outcome cfg vrf bet reels res log H)
      as (Hrec & Hlen & Htc & _).
    split; [exact Hlen|]. split; [exact Htc|].
    intros i r Hi. destruct (Hrec i r Hi) as (Hl & Hb & Hm & _).
    split; [exact Hl|]. split; [unfold maxCascades in Hb; lia|].
    split; [exact Hm|]. intros H0. rewrite Hm, H0. reflexivity.
Qed.

Lemma processCascadingReels_rounds_bounded_witness :
  exists res log,
    processCascadingReels SymbolConfigurationService test_reels test_vrf 100
    = Ok (res, log)
    /\ (List.length (cascades res) <= 7)%nat
    /\ totalCascades res = List.length (cascades res)
    /\ forall i r,
         nth_error (cascades res) i = Some r ->
         level r = i
         /\ (level r <= 6)%nat
         /\ multiplier r = nth (Nat.min (level r) 6) [1; 2; 3; 5; 8; 12; 20]%Q 0%Q
         /\ (level r = 0%nat -> multiplier r = 1%Q).
Proof.
  destruct (proj1 (processCascadingReels_rounds_bounded
                     SymbolConfigurationService test_reels test_vrf 100)
                  _ eq_refl) as (res & log & H).
  exists res, log. split; [exact H|].
  exact (proj2 (processCascadingReels_rounds_bounded
                  SymbolConfigurationService test_reels test_vrf 100)
               res log H).
Defined.

(** C9: the [totalWinnings] that [processCascadingReels] reports is the
    sum of the [levelPayout] fields of the recorded rounds; each round's
    [totalPayout] is the sum up to and including that round; and a round's
    [levelPayout] is the evaluator's total for its combinations, taken as
    it is at level 0 (multiplier 1) and scaled by the round's multiplier
    from level 1 on. *)
Theorem processCascadingReels_totalWinnings_sum (cfg : config)
  (reels : list reel) (vrf : string) (bet : Q) (res : cascade_result)
  (log : list read) :
  processCascadingReels cfg reels vrf bet = Ok (res, log) ->
  res_totalWinnings res = sum_levelPayout (cascades res)
  /\ forall i r,
       nth_error (cascades res) i = Some r ->
       totalPayout r = sum_levelPayout (firstn (S i) (cascades res))
       /\ levelPayout r
          = (if Nat.eqb (level r) 0
             then calculateTotalPayout (winningCombinations r) bet
             else (calculateTotalPayout (winningCombinations r) bet
                   * multiplier r)%Q)
       /\ (level r = 0%nat -> multiplier r = 1%Q).
Proof.
  intros H.
  destruct (processCascadingReels_outcome cfg vrf bet reels res log H)
    as (Hrec & _ & _ & Hsum).
  split; [exact Hsum|].
  intros i r Hi. destruct (Hrec i r Hi) as (Hl & _ & Hm & Hp & Ht).
  split; [exact Ht|]. split; [rewrite Hl; exact Hp|].
  intros H0. rewrite Hm, H0. reflexivity.
Qed.

Lemma processCascadingReels_totalWinnings_sum_witness :
  exists res log,
    processCascadingReels SymbolConfigurationService test_reels test_vrf 100
    = Ok (res, log)
    /\ res_totalWinnings res = sum_levelPayout (cascades res)
    /\ forall i r,
         nth_error (cascades res) i = Some r ->
         totalPayout r = sum_levelPayout (firstn (S i) (cascades res))
         /\ levelPayout r
            = (if Nat.eqb (level r) 0
               then calculateTotalPayout (winningCombinations r) 100
               else (calculateTotalPayout (winningCombinations r) 100
                     * multiplier r)%Q)
         /\ (level r = 0%nat -> multiplier r = 1%Q).
Proof.
  destruct (processCascadingReels_returns SymbolConfigurationService test_vrf
              100 _ test_reels eq_refl) as (res & log & H).
  exists res, log. split; [exact H|].
  exact (processCascadingReels_totalWinnings_sum
           SymbolConfigurationService test_reels test_vrf 100 res log H).
Defined.

(** The figures of the repository's test spin: seven rounds, and a total
    that is the sum of the level payouts. *)
Example processCascadingReels_test :
  match processCascadingReels SymbolConfigurationService test_reels test_vrf 100
  with
  | Ok (res, _) =>
      map level (cascades res) = [0; 1; 2; 3; 4; 5; 6]%nat
      /\ map (fun c => Qred (multiplier c)) (cascades res)
         = [1; 2; 3; 5; 8; 12; 20]%Q
      /\ map (fun c => Qred (levelPayout c)) (cascades res)
         = [4500; 1500; 750; 1250; 2000; 3000; 5000]%Q
      /\ map (fun c => Qred (totalPayout c)) (cascades res)
         = [4500; 6000; 6750; 8000; 10000; 13000; 18000]%Q
      /\ Qred (res_totalWinnings res) = 18000%Q
  | Throw _ => False
  end.
Proof. vm_compute. repeat split. Qed.

(** C1, on the repository's own test spin (six reels of height 4, so that
    heights and initial population end at bit 18 + 8 * 24 = 210): the seven
    empty cells of the first cascade are read at bits 256, 264, ..., 304,
    not from bit 210 on, and every later cascade starts at bit 256 again
    instead of going on from where the previous one stopped. *)
Theorem refill_reads_on_test_spin :
  18 + 8 * Z.of_nat (heights_sum test_reels) = 210
  /\ exists res log,
       processCascadingReels SymbolConfigurationService test_reels test_vrf 100
       = Ok (res, log)
       /\ map level (cascades res) = [0; 1; 2; 3; 4; 5; 6]%nat
       /\ map startBit log
          = [ 256; 264; 272; 280; 288; 296; 304;
              256; 264; 272; 280; 288; 296; 304;
              256; 264; 272; 280;
              256; 264; 272; 280;
              256; 264; 272; 280;
              256; 264; 272; 280 ].
Proof.
  split; [reflexivity|].
  do 2 eexists. split; [vm_compute; reflexivity|].
  split; vm_compute; reflexivity.
Qed.

(** The same on a whole spin, from the random value [0x0]: six heights of
    2, twelve cells populated from bit 18 to bit 113, and six cascades that
    each read their six bytes at bits 256 to 296. *)
Example spin_reads :
  match spin SymbolConfigurationService "0x0" 1 with
  | Ok ((grid, res), log) =>
      map height grid = [2; 2; 2; 2; 2; 2]%nat
      /\ List.length (cascades res) = 7%nat
      /\ map startBit log
         = ([0; 3; 6; 9; 12; 15]
            ++ [18; 26; 34; 42; 50; 58; 66; 74; 82; 90; 98; 106]
            ++ List.concat (repeat [256; 264; 272; 280; 288; 296] 6%nat))%list
  | Throw _ => False
  end.
Proof. vm_compute. repeat split. Qed.

(** ** The administrative updates *)

Section Administration.

Variable cfg : config.


Lemma lookup_update {A : Type} (k : string) (f : A -> A) (m : list (string * A)) :
  lookup k (update k f m) = option_map f (lookup k m).
Proof.
  induction m as [|[k' v] m IH]; [reflexivity|].
  cbn. destruct (String.eqb k k') eqn:E; cbn; rewrite E; [reflexivity|exact IH].
Qed.

(** A known symbol takes every weight that is not negative, zero
    included. *)
Lemma updateSymbolWeight_accepts (symbolId : string) (newWeight : Q) :
  lookup symbolId (symbols cfg) <> None -> (0 <= newWeight)%Q ->
  fst (updateSymbolWeight cfg symbolId newWeight) = true
  /\ option_map sym_weight
       (getSymbol (snd (updateSymbolWeight cfg symbolId newWeight)) symbolId)
     = Some newWeight.
Proof.
  intros Hk Hw. unfold updateSymbolWeight, getSymbol.
  destruct (lookup symbolId (symbols cfg)) as [d|] eqn:E; [|contradiction].
  assert (Qltb newWeight 0 = false) as ->.
  { apply not_true_iff_false. rewrite Qltb_lt. now apply Qle_not_lt. }
  cbn [fst snd symbols]. rewrite lookup_update, E. split; reflexivity.
Qed.


End Administration.

(** The repository's tests of the rejected updates. *)
Example update_tests :
  updateSymbolWeight SymbolConfigurationService "btc" (-5)
  = (false, SymbolConfigurationService)
  /\ updateSymbolWeight SymbolConfigurationService "nonexistent" 10
     = (false, SymbolConfigurationService)
  /\ updateSymbolPayouts SymbolConfigurationService "btc"
       (mkPayoutObject (Some (JNumber 10)) (Some (JNumber 50)) None None)
     = (false, SymbolConfigurationService)
  /\ updateSymbolPayouts SymbolConfigurationService "btc"
       (mkPayoutObject (Some (JNumber 10)) (Some (JNumber 50))
          (Some (JNumber 200)) (Some (JString "invalid")))
     = (false, SymbolConfigurationService)
  /\ fst (updateSymbolPayouts SymbolConfigurationService "btc"
            (mkPayoutObject (Some (JNumber 10)) (Some (JNumber 50))
               (Some (JNumber 200)) (Some (JNumber 1000))))
     = true.
Proof. repeat split. Qed.

(** C3, at the weight 0: [updateSymbolWeight('btc', 0)] returns [true] and
    sets the weight of [btc] to 0, where the claim has it fail and leave
    the catalog alone; the catalog's own [validateConfiguration], clean
    before, then reports [btc] as having an invalid weight. *)
Theorem updateSymbolWeight_zero_accepted :
  fst (updateSymbolWeight SymbolConfigurationService "btc" 0) = true
  /\ option_map sym_weight (getSymbol SymbolConfigurationService "btc")
     = Some 15%Q
  /\ option_map sym_weight
       (getSymbol (snd (updateSymbolWeight SymbolConfigurationService "btc" 0))
                  "btc")
     = Some 0%Q
  /\ errors (validateConfiguration SymbolConfigurationService) = []
  /\ errors (validateConfiguration
               (snd (updateSymbolWeight SymbolConfigurationService "btc" 0)))
     = [InvalidWeight "btc" 0].
Proof. repeat split. Qed.

(* ================================================================== *)
(** * Part III.  Further properties of the services *)
(* ================================================================== *)

(** ** The catalog *)

Section Catalog.

Variable cfg : config.

Lemma lookup_update_other {A : Type} (k k' : string) (f : A -> A)
  (m : list (string * A)) :
  k' <> k -> lookup k' (update k f m) = lookup k' m.
Proof.
  intros Hne. induction m as [|[k0 v] m IH]; [reflexivity|].
  cbn. destruct (String.eqb k k0) eqn:E; cbn.
  - apply String.eqb_eq in E. subst k0.
    replace (String.eqb k' k) with false
      by (symmetry; now apply String.eqb_neq).
    exact IH.
  - destruct (String.eqb k' k0); [reflexivity|exact IH].
Qed.

Lemma update_keys {A : Type} (k : string) (f : A -> A) (m : list (string * A)) :
  map fst (update k f m) = map fst m.
Proof.
  unfold update. rewrite map_map. apply map_ext.
  intros [k0 v]. cbn. now destruct (String.eqb k k0).
Qed.

(** X2: an accepted weight update returns [true]; the symbol then has
    the new weight and is otherwise as before; every other symbol, the
    order of the ids, the payout tables and the special behaviours are
    untouched. *)
Theorem updateSymbolWeight_round_trip (symbolId : string) (newWeight : Q) :
  lookup symbolId (symbols cfg) <> None -> (0 <= newWeight)%Q ->
  fst (updateSymbolWeight cfg symbolId newWeight) = true
  /\ (exists d,
        getSymbol cfg symbolId = Some d
        /\ getSymbol (snd (updateSymbolWeight cfg symbolId newWeight)) symbolId
           = Some (mkSymbol (sym_id d) (sym_name d) (sym_type d) (sym_value d)
                            newWeight))
  /\ (forall other, other <> symbolId ->
      getSymbol (snd (updateSymbolWeight cfg symbolId newWeight)) other
      = getSymbol cfg other)
  /\ getAllSymbolIds (snd (updateSymbolWeight cfg symbolId newWeight))
     = getAllSymbolIds cfg
  /\ payoutTables (snd (updateSymbolWeight cfg symbolId newWeight))
     = payoutTables cfg
  /\ specialBehaviors (snd (updateSymbolWeight cfg symbolId newWeight))
     = specialBehaviors cfg.
Proof.
  intros Hk Hw. unfold updateSymbolWeight, getSymbol, getAllSymbolIds.
  destruct (lookup symbolId (symbols cfg)) as [d|] eqn:E; [|contradiction].
  assert (Qltb newWeight 0 = false) as ->.
  { apply not_true_iff_false. rewrite Qltb_lt. now apply Qle_not_lt. }
  cbn [fst snd symbols payoutTables specialBehaviors].
  split; [reflexivity|]. split.
  - exists d. split; [reflexivity|]. now rewrite lookup_update, E.
  - split; [intros other Ho; now apply lookup_update_other|].
    split; [apply update_keys|]. split; reflexivity.
Qed.

(** X3: an accepted payout update returns [true]; the symbol's table is
    then the four numbers given; the tables of the other symbols, hence
    their payouts, and the symbols themselves are untouched. *)
Theorem updateSymbolPayouts_round_trip (symbolId : string) (a b c d : Q) :
  lookup symbolId (symbols cfg) <> None ->
  lookup symbolId (payoutTables cfg) <> None ->
  let newPayouts :=
    mkPayoutObject (Some (JNumber a)) (Some (JNumber b))
                   (Some (JNumber c)) (Some (JNumber d)) in
  fst (updateSymbolPayouts cfg symbolId newPayouts) = true
  /\ getSymbolPayoutTable (snd (updateSymbolPayouts cfg symbolId newPayouts))
                          symbolId
     = Some (mkPayouts a b c d)
  /\ (forall other, other <> symbolId ->
      getSymbolPayoutTable (snd (updateSymbolPayouts cfg symbolId newPayouts))
                           other
      = getSymbolPayoutTable cfg other)
  /\ (forall other count, other <> symbolId ->
      getSymbolPayout (snd (updateSymbolPayouts cfg symbolId newPayouts))
                      other count
      = getSymbolPayout cfg other count)
  /\ symbols (snd (updateSymbolPayouts cfg symbolId newPayouts)) = symbols cfg.
Proof.
  intros Hs Hp newPayouts.
  unfold updateSymbolPayouts, getSymbolPayoutTable, getSymbolPayout.
  destruct (lookup symbolId (symbols cfg)) eqn:Es; [|contradiction].
  destruct (lookup symbolId (payoutTables cfg)) eqn:Ep; [|contradiction].
  cbn [newPayouts at3 at4 at5 at6 own_number fst snd symbols payoutTables].
  split; [reflexivity|]. split; [now rewrite lookup_update, Ep|].
  split; [intros other Ho; now apply lookup_update_other|].
  split; [|reflexivity].
  intros other count Ho. now rewrite lookup_update_other.
Qed.




(** *** The weighted pool *)

Lemma pushes_positive (symbol : symbol_def) :
  (0 < pushes symbol)%nat <-> (0 < sym_weight symbol)%Q.
Proof.
  unfold pushes. set (w := sym_weight symbol).
  pose proof (Qle_ceiling w) as Hup. pose proof (Qceiling_lt w) as Hlo.
  split.
  - intros H. assert (1 <= Qceiling w) by lia.
    eapply Qle_lt_trans; [|exact Hlo].
    change 0%Q with (inject_Z 0). rewrite <- Zle_Qle. lia.
  - intros H. assert (0 < Qceiling w); [|lia].
    rewrite Zlt_Qlt. eapply Qlt_le_trans; [exact H|exact Hup].
Qed.

Lemma createWeightedSymbolArray_flat (includeSpecial : bool)
  (excludeSymbols : list string) :
  createWeightedSymbolArray cfg includeSpecial excludeSymbols
  = flat_map
      (fun kv =>
         if pooled includeSpecial excludeSymbols (snd kv)
         then repeat (sym_id (snd kv)) (pushes (snd kv)) else [])
      (symbols cfg).
Proof.
  unfold createWeightedSymbolArray, pooled, pushes.
  apply flat_map_ext. intros [k d]. cbn [snd].
  destruct (includes (Sym (sym_id d)) excludeSymbols); [reflexivity|].
  destruct includeSpecial; [reflexivity|].
  cbn. now destruct (symbol_type_eqb (sym_type d) regular).
Qed.

(** X5: the weighted pool holds exactly the ids of the symbols that are
    not excluded, are regular when specials are left out, and have a
    positive weight; its length is the sum of the rounded-up weights of
    those symbols. *)
Theorem createWeightedSymbolArray_members (includeSpecial : bool)
  (excludeSymbols : list string) :
  (forall x,
      In x (createWeightedSymbolArray cfg includeSpecial excludeSymbols)
      <-> exists kv,
            In kv (symbols cfg)
            /\ sym_id (snd kv) = x
            /\ includes (Sym x) excludeSymbols = false
            /\ (includeSpecial = true \/ sym_type (snd kv) = regular)
            /\ (0 < sym_weight (snd kv))%Q)
  /\ List.length (createWeightedSymbolArray cfg includeSpecial excludeSymbols)
     = fold_right
         (fun kv n =>
            ((if pooled includeSpecial excludeSymbols (snd kv)
              then pushes (snd kv) else 0) + n)%nat)
         0%nat (symbols cfg).
Proof.
  rewrite createWeightedSymbolArray_flat. split.
  - intros x. rewrite in_flat_map. split.
    + intros (kv & Hin & Hx). exists kv.
      destruct (pooled includeSpecial excludeSymbols (snd kv)) eqn:P;
        [|destruct Hx].
      pose proof (repeat_spec _ _ _ Hx) as ->.
      unfold pooled in P. apply andb_true_iff in P as [P1 P2].
      apply negb_true_iff in P1.
      split; [exact Hin|]. split; [reflexivity|]. split; [exact P1|]. split.
      * apply orb_true_iff in P2 as [P2|P2]; [now left|right].
        destruct (sym_type (snd kv)); try discriminate; reflexivity.
      * apply pushes_positive. destruct (pushes (snd kv)); [destruct Hx|lia].
    + intros (kv & Hin & <- & He & Ht & Hw). exists kv. split; [exact Hin|].
      unfold pooled. rewrite He. cbn [negb andb].
      replace (includeSpecial || symbol_type_eqb (sym_type (snd kv)) regular)%bool
        with true.
      * apply pushes_positive in Hw.
        destruct (pushes (snd kv)); [lia|now left].
      * symmetry. destruct Ht as [->| ->]; [reflexivity|apply orb_true_r].
  - induction (symbols cfg) as [|kv l IH]; [reflexivity|].
    cbn [flat_map fold_right]. rewrite length_app, IH.
    destruct (pooled includeSpecial excludeSymbols (snd kv));
      [now rewrite repeat_length|reflexivity].
Qed.

(** X6: when the ids of the catalog are distinct, the id of a symbol the
    pool takes occurs in it exactly as many times as its weight, rounded
    up to an integer. *)
Theorem createWeightedSymbolArray_count (includeSpecial : bool)
  (excludeSymbols : list string) (kv : string * symbol_def) :
  distinct_ids cfg ->
  In kv (symbols cfg) ->
  count_occ string_dec
            (createWeightedSymbolArray cfg includeSpecial excludeSymbols)
            (sym_id (snd kv))
  = if pooled includeSpecial excludeSymbols (snd kv)
    then pushes (snd kv) else 0%nat.
Proof.
  rewrite createWeightedSymbolArray_flat. unfold distinct_ids.
  induction (symbols cfg) as [|kv0 l IH]; intros Hnd Hin; [destruct Hin|].
  cbn [map] in Hnd. apply NoDup_cons_iff in Hnd as [Hnotin Hnd].
  cbn [flat_map]. rewrite count_occ_app.
  assert (Hzero : forall (kv1 : string * symbol_def) l1,
             ~ In (sym_id (snd kv1))
                  (map (fun kv : string * symbol_def => sym_id (snd kv)) l1) ->
             count_occ string_dec
               (flat_map
                  (fun kv : string * symbol_def =>
                     if pooled includeSpecial excludeSymbols (snd kv)
                     then repeat (sym_id (snd kv)) (pushes (snd kv)) else [])
                  l1)
               (sym_id (snd kv1)) = 0%nat).
  { intros kv1 l1 Hn. apply count_occ_not_In. rewrite in_flat_map.
    intros (kv2 & Hin2 & Hx). apply Hn. apply in_map_iff. exists kv2.
    split; [|exact Hin2].
    destruct (pooled includeSpecial excludeSymbols (snd kv2)); [|destruct Hx].
    now apply repeat_spec in Hx. }
  destruct Hin as [->|Hin].
  - rewrite (Hzero kv l Hnotin), Nat.add_0_r.
    destruct (pooled includeSpecial excludeSymbols (snd kv)); [|reflexivity].
    now apply count_occ_repeat_eq.
  - rewrite (IH Hnd Hin).
    assert (Hne : sym_id (snd kv) <> sym_id (snd kv0)).
    { intros Heq. apply Hnotin. rewrite <- Heq. apply in_map_iff. now exists kv. }
    destruct (pooled includeSpecial excludeSymbols (snd kv0)); [|reflexivity].
    now rewrite count_occ_repeat_neq.
Qed.

(** *** Validation *)

Lemma errors_nil (c : config) :
  isValid (validateConfiguration c) = true
  <-> forall kv, In kv (symbols c) ->
        String.eqb (sym_name (snd kv)) EmptyString = false
        /\ Qle_bool (sym_weight (snd kv)) 0 = false
        /\ (symbol_type_eqb (sym_type (snd kv)) regular
            && is_none (lookup (fst kv) (payoutTables c)))%bool = false.
Proof.
  unfold validateConfiguration. cbn [isValid].
  induction (symbols c) as [|kv l IH].
  - cbn. split; [intros _ kv []|reflexivity].
  - cbn [flat_map].
    destruct (String.eqb (sym_name (snd kv)) EmptyString) eqn:E1;
      [cbn; split; [discriminate|];
       intros H; destruct (H kv (or_introl eq_refl)) as (H1 & _); congruence|].
    destruct (Qle_bool (sym_weight (snd kv)) 0) eqn:E2;
      [cbn; split; [discriminate|];
       intros H; destruct (H kv (or_introl eq_refl)) as (_ & H2 & _); congruence|].
    destruct (symbol_type_eqb (sym_type (snd kv)) regular
              && is_none (lookup (fst kv) (payoutTables c)))%bool eqn:E3;
      [cbn; split; [discriminate|];
       intros H; destruct (H kv (or_introl eq_refl)) as (_ & _ & H3); congruence|].
    cbn [app]. rewrite IH. split.
    + intros H kv' [<-|Hin]; [repeat split; assumption|now apply H].
    + intros H kv' Hin. apply H. now right.
Qed.

Lemma is_none_lookup_update {A : Type} (k k' : string) (f : A -> A)
  (m : list (string * A)) :
  is_none (lookup k' (update k f m)) = is_none (lookup k' m).
Proof.
  destruct (String.eqb_spec k' k) as [->|Hne].
  - rewrite lookup_update. now destruct (lookup k m).
  - now rewrite lookup_update_other.
Qed.

(** X7: the updates keep a valid configuration valid: a configuration
    that [validateConfiguration] accepts is still accepted after any
    [updateSymbolPayouts], and after any [updateSymbolWeight] with a
    positive weight. *)
Theorem updates_keep_configuration_valid :
  isValid (validateConfiguration cfg) = true ->
  (forall symbolId newPayouts,
      isValid (validateConfiguration
                 (snd (updateSymbolPayouts cfg symbolId newPayouts))) = true)
  /\ (forall symbolId newWeight,
         (0 < newWeight)%Q ->
         isValid (validateConfiguration
                    (snd (updateSymbolWeight cfg symbolId newWeight))) = true).
Proof.
  intros Hv. pose proof (proj1 (errors_nil cfg) Hv) as H. split.
  - intros symbolId t. unfold updateSymbolPayouts.
    destruct (lookup symbolId (symbols cfg)); [|exact Hv].
    destruct (lookup symbolId (payoutTables cfg)); [|exact Hv].
    destruct (own_number (at3 t)); [|exact Hv].
    destruct (own_number (at4 t)); [|exact Hv].
    destruct (own_number (at5 t)); [|exact Hv].
    destruct (own_number (at6 t)); [|exact Hv].
    cbn [snd]. apply errors_nil. cbn [symbols payoutTables].
    intros kv Hin. rewrite is_none_lookup_update. now apply H.
  - intros symbolId w Hw. unfold updateSymbolWeight.
    destruct (lookup symbolId (symbols cfg)); [|exact Hv].
    destruct (Qltb w 0); [exact Hv|].
    cbn [snd]. apply errors_nil. cbn [symbols payoutTables].
    intros kv Hin. unfold update in Hin.
    apply in_map_iff in Hin as (kv0 & <- & Hin0).
    destruct (H kv0 Hin0) as (H1 & H2 & H3).
    destruct (String.eqb symbolId (fst kv0)); [|repeat split; assumption].
    cbn [fst snd set_weight sym_name sym_weight sym_type].
    split; [exact H1|]. split; [|exact H3].
    apply not_true_iff_false. rewrite Qle_bool_iff. now apply Qlt_not_le.
Qed.

End Catalog.

Lemma updateSymbolWeight_round_trip_witness :
  fst (updateSymbolWeight SymbolConfigurationService "btc" 20) = true
  /\ (exists d,
        getSymbol SymbolConfigurationService "btc" = Some d
        /\ getSymbol (snd (updateSymbolWeight SymbolConfigurationService "btc" 20))
                     "btc"
           = Some (mkSymbol (sym_id d) (sym_name d) (sym_type d) (sym_value d) 20))
  /\ (forall other, other <> "btc" ->
      getSymbol (snd (updateSymbolWeight SymbolConfigurationService "btc" 20)) other
      = getSymbol SymbolConfigurationService other)
  /\ getAllSymbolIds (snd (updateSymbolWeight SymbolConfigurationService "btc" 20))
     = getAllSymbolIds SymbolConfigurationService
  /\ payoutTables (snd (updateSymbolWeight SymbolConfigurationService "btc" 20))
     = payoutTables SymbolConfigurationService
  /\ specialBehaviors (snd (updateSymbolWeight SymbolConfigurationService "btc" 20))
     = specialBehaviors SymbolConfigurationService.
Proof.
  apply (updateSymbolWeight_round_trip SymbolConfigurationService "btc" 20).
  - discriminate.
  - discriminate.
Defined.

Lemma updateSymbolPayouts_round_trip_witness :
  fst (updateSymbolPayouts SymbolConfigurationService "btc"
         (mkPayoutObject (Some (JNumber 10)) (Some (JNumber 50))
                         (Some (JNumber 200)) (Some (JNumber 1000)))) = true.
Proof.
  apply (updateSymbolPayouts_round_trip SymbolConfigurationService "btc"
           10 50 200 1000); discriminate.
Defined.


Lemma createWeightedSymbolArray_members_witness :
  In "btc" (createWeightedSymbolArray SymbolConfigurationService true []).
Proof.
  apply (proj1 (createWeightedSymbolArray_members SymbolConfigurationService
                  true [])).
  exists (symbol_entry "btc" "Bitcoin (BTC)" regular 100 15).
  split; [do 7 right; now left|].
  split; [reflexivity|]. split; [reflexivity|]. split; [now left|reflexivity].
Defined.

Lemma createWeightedSymbolArray_count_witness :
  count_occ string_dec
            (createWeightedSymbolArray SymbolConfigurationService true [])
            "btc"
  = 15%nat.
Proof.
  apply (createWeightedSymbolArray_count SymbolConfigurationService true []
           (symbol_entry "btc" "Bitcoin (BTC)" regular 100 15)).
  - unfold distinct_ids. cbn.
    repeat (constructor; [cbn; intuition discriminate|]). constructor.
  - do 7 right. now left.
Defined.

Lemma updates_keep_configuration_valid_witness :
  isValid (validateConfiguration
             (snd (updateSymbolWeight SymbolConfigurationService "btc" 20)))
  = true.
Proof.
  apply (proj2 (updates_keep_configuration_valid SymbolConfigurationService
                  eq_refl) "btc" 20%Q).
  reflexivity.
Defined.

(** The pool of the catalog as shipped has 246 entries. *)
Example createWeightedSymbolArray_default :
  List.length (createWeightedSymbolArray SymbolConfigurationService true [])
  = 246%nat
  /\ List.length (createWeightedSymbolArray SymbolConfigurationService false [])
     = 230%nat.
Proof. split; reflexivity. Qed.

(** ** The decoder and the reel generator *)

Section Generation.

Variable cfg : config.
Variable vrfNumber : string.

(** X8: reads of the random value fit together: for a random value
    [BigInt] accepts and bit counts [a], [b] with [a + b <= 53], the
    [a + b] bits at [s] are the [a] bits at [s] with the [b] bits at
    [s + a] on top of them. *)
Theorem extractBits_concat (v s a b : Z) :
  JS.BigInt vrfNumber = Ok v ->
  0 <= s -> 0 <= a -> 0 <= b -> a + b <= 53 ->
  exists lo hi,
    extractBits vrfNumber s a = Ok lo
    /\ extractBits vrfNumber (s + a) b = Ok hi
    /\ extractBits vrfNumber s (a + b) = Ok (lo + 2 ^ a * hi)
    /\ 0 <= lo < 2 ^ a
    /\ 0 <= hi < 2 ^ b.
Proof.
  intros Hv Hs Ha Hb Hab.
  assert (Hexact : forall x c, 0 <= c <= 53 ->
                     JS.Number (Z.land x (Z.ones c)) = Z.land x (Z.ones c)).
  { intros x c Hc. apply Number_exact.
    pose proof (masked_range x c ltac:(lia)).
    assert (2 ^ c <= 2 ^ 53) by (apply Z.pow_le_mono_r; lia). lia. }
  rewrite !(extractBits_BigInt vrfNumber v _ _ Hv), !Hexact by lia.
  do 2 eexists. split; [reflexivity|]. split; [reflexivity|].
  pose proof (masked_range (Z.shiftr v s) a Ha).
  pose proof (masked_range (Z.shiftr v (s + a)) b Hb).
  split; [|split; lia].
  f_equal. rewrite !Z.land_ones by lia.
  rewrite <- Z.shiftr_shiftr by lia.
  rewrite (Z.shiftr_div_pow2 (Z.shiftr v s) a) by lia.
  rewrite Z.pow_add_r by lia.
  apply Z.rem_mul_r; [|apply Z.pow_pos_nonneg; lia].
  apply Z.pow_nonzero; lia.
Qed.

(** *** Population *)

Lemma decoded_cells_S (offset : Z) (n : nat) :
  decoded_cells cfg vrfNumber offset (S n)
  = decoded_cell cfg vrfNumber offset
    :: decoded_cells cfg vrfNumber (offset + 8) n.
Proof.
  unfold decoded_cells. cbn [seq map]. rewrite <- seq_shift, map_map.
  f_equal; [f_equal; lia|].
  apply map_ext. intros k. f_equal. lia.
Qed.

Lemma decoded_cells_app (offset : Z) (n m : nat) :
  (decoded_cells cfg vrfNumber offset n
   ++ decoded_cells cfg vrfNumber (offset + 8 * Z.of_nat n) m)%list
  = decoded_cells cfg vrfNumber offset (n + m).
Proof.
  revert offset. induction n as [|n IH]; intros offset.
  - cbn [Nat.add]. replace (offset + 8 * Z.of_nat 0) with offset by lia.
    reflexivity.
  - cbn [Nat.add]. rewrite !decoded_cells_S. cbn [app]. f_equal.
    rewrite <- IH. do 2 f_equal. lia.
Qed.

Lemma populateReel_cells (n : nat) :
  forall off syms syms' off' log,
    populateReel vrfNumber (createWeightedSymbolArray cfg true []) n off syms
    = Ok ((syms', off'), log) ->
    syms' = (syms ++ decoded_cells cfg vrfNumber off n)%list.
Proof.
  induction n as [|n IH]; intros off syms syms' off' log H.
  - injection H as <- _ _. now rewrite app_nil_r.
  - cbn [populateReel] in H.
    apply bind_Ok in H as (bits & l1 & l2 & Hr & H & _).
    rewrite (IH _ _ _ _ _ H), decoded_cells_S, <- app_assoc. cbn [app].
    unfold readBits in Hr. unfold decoded_cell.
    destruct (extractBits vrfNumber off 8); [|discriminate].
    now injection Hr as <- _.
Qed.

Lemma populateReels_loop_cells (reels : list reel) :
  forall off reels' log,
    populateReels_loop vrfNumber (createWeightedSymbolArray cfg true []) reels off
    = Ok (reels', log) ->
    map height reels' = map height reels
    /\ map reelIndex reels' = map reelIndex reels
    /\ (Forall (fun r => reel_symbols r = []) reels ->
        flat_map reel_symbols reels'
        = decoded_cells cfg vrfNumber off (heights_sum reels)
        /\ map (fun r => List.length (reel_symbols r)) reels'
           = map height reels).
Proof.
  induction reels as [|r reels IH]; intros off reels' log H.
  - injection H as <- _. repeat split.
  - cbn [populateReels_loop] in H.
    apply bind_Ok in H as ([syms off1] & l1 & l2 & Hc & H & _).
    apply bind_Ok in H as (rest & l3 & l4 & Hrest & H & _).
    injection H as <- _.
    pose proof (populateReel_cells _ _ _ _ _ _ Hc) as ->.
    destruct (populateReel_Ok _ _ _ _ _ _ _ _ Hc) as (-> & _).
    destruct (IH _ _ _ Hrest) as (Hh & Hi & Hcells).
    cbn [map height reelIndex]. rewrite Hh, Hi.
    split; [reflexivity|]. split; [reflexivity|].
    intros Hempty. apply Forall_cons_iff in Hempty as [Hr Hempty].
    destruct (Hcells Hempty) as (Hf & Hl).
    cbn [flat_map reel_symbols heights_sum fold_right].
    fold (heights_sum reels).
    rewrite Hr, Hf, Hl. cbn [app]. rewrite decoded_cells_app. split; [reflexivity|].
    f_equal. unfold decoded_cells. now rewrite length_map, length_seq.
Qed.

Lemma deepCopy_shape (reels : list reel) :
  map height (deepCopy reels) = map height reels
  /\ map reelIndex (deepCopy reels) = map reelIndex reels
  /\ map (fun r => List.length (reel_symbols r)) (deepCopy reels)
     = map (fun r => List.length (reel_symbols r)) reels.
Proof.
  unfold deepCopy. rewrite !map_map. cbn [height reelIndex reel_symbols].
  repeat split. apply map_ext. intros r. apply length_map.
Qed.

Lemma deepCopy_fresh (reels : list reel) :
  Forall (fun r => reel_symbols r = []) reels ->
  Forall (fun r => reel_symbols r = []) (deepCopy reels).
Proof.
  unfold deepCopy. intros H. apply Forall_map. cbn [reel_symbols].
  eapply Forall_impl; [|exact H]. cbn. intros r ->. reflexivity.
Qed.

Lemma populateReels_grid (reelConfig populated : list reel)
  (log : list read) :
  populateReels cfg vrfNumber reelConfig = Ok (populated, log) ->
  map height populated = map height reelConfig
  /\ map reelIndex populated = map reelIndex reelConfig
  /\ log = byte_reads 18 (heights_sum reelConfig)
  /\ (Forall (fun r => reel_symbols r = []) reelConfig ->
      flat_map reel_symbols populated
      = decoded_cells cfg vrfNumber 18 (heights_sum reelConfig)
      /\ map (fun r => List.length (reel_symbols r)) populated
         = map height reelConfig).
Proof.
  intros H. pose proof (populateReels_reads cfg vrfNumber _ _ _ H) as Hlog.
  unfold populateReels in H.
  destruct (populateReels_loop_cells _ _ _ _ H) as (Hh & Hi & Hc).
  destruct (deepCopy_shape reelConfig) as (Dh & Di & _).
  rewrite Dh in Hh. rewrite Di in Hi.
  split; [exact Hh|]. split; [exact Hi|]. split; [exact Hlog|].
  intros He. destruct (Hc (deepCopy_fresh _ He)) as (Hf & Hl).
  rewrite heights_sum_deepCopy in Hf. rewrite Dh in Hl. now split.
Qed.

(** X9: [populateReels] keeps the reels, their indices and heights, and
    reads one byte per cell, consecutively from bit 18; on reels that
    have no cells yet it gives every reel [height] cells, the cells being,
    in reel-then-position order, what the bytes at bits 18, 26, 34, ...
    select from the weighted pool. *)
Theorem populateReels_cells (reelConfig populated : list reel)
  (log : list read) :
  populateReels cfg vrfNumber reelConfig = Ok (populated, log) ->
  map height populated = map height reelConfig
  /\ map reelIndex populated = map reelIndex reelConfig
  /\ log = byte_reads 18 (heights_sum reelConfig)
  /\ (Forall (fun r => reel_symbols r = []) reelConfig ->
      flat_map reel_symbols populated
      = decoded_cells cfg vrfNumber 18 (heights_sum reelConfig)
      /\ map (fun r => List.length (reel_symbols r)) populated
         = map height reelConfig).
Proof.
  intros H. pose proof (populateReels_reads cfg vrfNumber _ _ _ H) as Hlog.
  unfold populateReels in H.
  destruct (populateReels_loop_cells _ _ _ _ H) as (Hh & Hi & Hc).
  destruct (deepCopy_shape reelConfig) as (Dh & Di & _).
  rewrite Dh in Hh. rewrite Di in Hi.
  split; [exact Hh|]. split; [exact Hi|]. split; [exact Hlog|].
  intros He. destruct (Hc (deepCopy_fresh _ He)) as (Hf & Hl).
  rewrite heights_sum_deepCopy in Hf. rewrite Dh in Hl. now split.
Qed.

(** *** The grid of a spin *)

Lemma generateReelConfiguration_loop_fresh (v : Z) (n : nat) :
  JS.BigInt vrfNumber = Ok v ->
  forall i idx reels,
  exists new log,
    generateReelConfiguration_loop vrfNumber n i idx reels
    = Ok ((reels ++ new)%list, log)
    /\ List.length new = n
    /\ Forall fresh_reel new.
Proof.
  intros Hv. induction n as [|n IH]; intros i idx reels.
  - exists [], []. rewrite app_nil_r. repeat split. constructor.
  - cbn [generateReelConfiguration_loop].
    rewrite (readBits_ok vrfNumber v idx 3 Hv). cbn [bind].
    destruct (IH (S i) (idx + 3)
                (reels
                 ++ [mkReel (Some i)
                       (Z.to_nat
                          (2 + Z.rem (JS.Number
                                        (Z.land (Z.shiftr v idx) (Z.ones 3))) 6))
                       []])%list)
      as (new & log & -> & Hl & Hf).
    eexists (_ :: new), _. rewrite <- app_assoc. cbn [app].
    split; [reflexivity|]. split; [cbn; now rewrite Hl|].
    constructor; [|exact Hf]. split; [reflexivity|]. cbn [height].
    apply (height_bits v idx).
Qed.

Lemma populateReel_returns (v : Z) (w : list string) (n : nat) :
  JS.BigInt vrfNumber = Ok v ->
  forall off syms, exists x log, populateReel vrfNumber w n off syms = Ok (x, log).
Proof.
  intros Hv. induction n as [|n IH]; intros off syms.
  - now exists (syms, off), [].
  - cbn [populateReel]. rewrite (readBits_ok vrfNumber v off 8 Hv). cbn [bind].
    match goal with
    | |- context [populateReel _ _ n ?o ?s] => destruct (IH o s) as (x & l & ->)
    end. destruct x. eauto.
Qed.

Lemma populateReels_loop_returns (v : Z) (w : list string) (reels : list reel) :
  JS.BigInt vrfNumber = Ok v ->
  forall off, exists x log, populateReels_loop vrfNumber w reels off = Ok (x, log).
Proof.
  intros Hv. induction reels as [|r reels IH]; intros off.
  - now exists [], [].
  - cbn [populateReels_loop].
    destruct (populateReel_returns v w (height r) Hv off (reel_symbols r))
      as ([syms off'] & l & ->).
    cbn [bind]. destruct (IH off') as (rest & l' & ->). cbn. eauto.
Qed.

Lemma pick_in_pool (w : list string) (bits : Z) :
  w <> [] -> 0 <= bits -> exists id, pick w bits = Sym id /\ In id w.
Proof.
  intros Hw Hb. unfold pick. destruct w as [|s0 w0] eqn:E; [contradiction|].
  rewrite <- E. set (len := Z.of_nat (List.length w)).
  assert (0 < len) by (subst len; rewrite E; cbn [List.length]; lia).
  rewrite Z.rem_mod_nonneg by lia.
  pose proof (Z.mod_pos_bound bits len ltac:(lia)) as Hm.
  replace (bits mod len <? 0) with false by (symmetry; apply Z.ltb_ge; lia).
  destruct (nth_error w (Z.to_nat (bits mod len))) as [id|] eqn:N.
  - exists id. split; [reflexivity|]. eapply nth_error_In, N.
  - apply nth_error_None in N. subst len. lia.
Qed.

Lemma decoded_cell_in_pool (v off : Z) :
  JS.BigInt vrfNumber = Ok v ->
  createWeightedSymbolArray cfg true [] <> [] ->
  exists id, decoded_cell cfg vrfNumber off = Sym id
             /\ In id (createWeightedSymbolArray cfg true []).
Proof.
  intros Hv Hw. unfold decoded_cell.
  rewrite (extractBits_BigInt vrfNumber v off 8 Hv).
  apply pick_in_pool; [exact Hw|].
  pose proof (masked_range (Z.shiftr v off) 8 ltac:(lia)) as Hr.
  change (2 ^ 8 - 1) with 255 in Hr. rewrite Number_exact; lia.
Qed.

(** X10: the grid of a spin always passes the handler's check: for every
    well-formed random value, [generateReelConfiguration] and then
    [populateReels] return, and [validateReelConfiguration] accepts the
    populated reels (six reels, heights between 2 and 7, as many cells as
    the height); and when the weighted pool is not empty every cell is a
    symbol id taken from the pool. *)
Theorem spin_grid_is_valid :
  is_hex_literal vrfNumber = true ->
  exists reelConfig log1 populated log2,
    generateReelConfiguration vrfNumber = Ok (reelConfig, log1)
    /\ populateReels cfg vrfNumber reelConfig = Ok (populated, log2)
    /\ validateReelConfiguration reelConfig false = true
    /\ validateReelConfiguration populated true = true
    /\ (createWeightedSymbolArray cfg true [] <> [] ->
        forall c, In c (flat_map reel_symbols populated) ->
          exists id, c = Sym id /\ In id (createWeightedSymbolArray cfg true [])).
Proof.
  intros Hh. destruct (BigInt_hex_literal vrfNumber Hh) as (v & Hv & _).
  destruct (generateReelConfiguration_loop_fresh v 6 Hv 0%nat 0 [])
    as (reelConfig & log1 & Hgen & Hlen & Hfresh).
  cbn [app] in Hgen.
  assert (Hempty : Forall (fun r => reel_symbols r = []) reelConfig).
  { eapply Forall_impl; [|exact Hfresh]. now intros r [H _]. }
  destruct (populateReels_loop_returns v (createWeightedSymbolArray cfg true [])
              (deepCopy reelConfig) Hv 18) as (populated & log2 & Hpop).
  exists reelConfig, log1, populated, log2.
  split; [exact Hgen|]. split; [exact Hpop|].
  destruct (populateReels_grid reelConfig populated log2 Hpop)
    as (Hhs & _ & _ & Hcells).
  destruct (Hcells Hempty) as (Hflat & Hlens).
  assert (Hrange : forallb (fun r => ((2 <=? height r)%nat
                                      && (height r <=? 7)%nat)%bool) reelConfig
                   = true).
  { apply forallb_forall. intros r Hr. rewrite Forall_forall in Hfresh.
    destruct (Hfresh r Hr) as (_ & H2 & H7).
    apply andb_true_iff. split; apply Nat.leb_le; assumption. }
  split; [|split].
  - unfold validateReelConfiguration. rewrite Hlen. cbn [Nat.eqb andb].
    apply forallb_forall. intros r Hr.
    rewrite forallb_forall in Hrange. now rewrite (Hrange r Hr).
  - unfold validateReelConfiguration.
    assert (Hl6 : List.length populated = 6%nat).
    { rewrite <- (length_map height), Hhs, length_map. exact Hlen. }
    rewrite Hl6. cbn [Nat.eqb andb].
    assert (G : forall (l l' : list reel),
               map height l = map height l' ->
               map (fun r => List.length (reel_symbols r)) l = map height l' ->
               forallb (fun r => ((2 <=? height r)%nat
                                  && (height r <=? 7)%nat)%bool) l' = true ->
               forallb
                 (fun r =>
                    if negb ((2 <=? height r)%nat && (height r <=? 7)%nat)
                    then false
                    else Nat.eqb (List.length (reel_symbols r)) (height r))
                 l = true).
    { induction l as [|r l IHl]; intros [|r' l'] E1 E2 E3; try discriminate;
        [reflexivity|].
      cbn [map] in E1, E2. cbn [forallb] in E3.
      injection E1 as E1 E1'. injection E2 as E2 E2'.
      apply andb_true_iff in E3 as [E3 E3'].
      cbn [forallb]. rewrite E1, E3, E2, Nat.eqb_refl. cbn [negb andb].
      now apply (IHl l'). }
    now apply (G populated reelConfig).
  - intros Hw c Hc. rewrite Hflat in Hc. unfold decoded_cells in Hc.
    apply in_map_iff in Hc as (k & <- & _).
    now apply (decoded_cell_in_pool v).
Qed.

End Generation.

Lemma extractBits_concat_witness :
  exists lo hi,
    extractBits "0x1234567890abcdef" 18 8 = Ok lo
    /\ extractBits "0x1234567890abcdef" (18 + 8) 8 = Ok hi
    /\ extractBits "0x1234567890abcdef" 18 (8 + 8) = Ok (lo + 2 ^ 8 * hi)
    /\ 0 <= lo < 2 ^ 8
    /\ 0 <= hi < 2 ^ 8.
Proof.
  apply (extractBits_concat "0x1234567890abcdef" 1311768467294899695 18 8 8);
    [reflexivity|lia..].
Defined.

Lemma populateReels_cells_witness :
  exists populated log,
    populateReels SymbolConfigurationService "0xff"
      [mkReel (Some 0%nat) 2 []; mkReel (Some 1%nat) 3 []]
    = Ok (populated, log)
    /\ map height populated = [2; 3]%nat
    /\ log = byte_reads 18 5.
Proof.
  do 2 eexists. split; [vm_compute; reflexivity|].
  match goal with
  | |- map height ?p = _ /\ ?l = _ =>
      destruct (populateReels_cells SymbolConfigurationService "0xff"
                  [mkReel (Some 0%nat) 2 []; mkReel (Some 1%nat) 3 []] p l)
        as (H1 & _ & H3 & _); [vm_compute; reflexivity|]
  end.
  split; [exact H1|exact H3].
Defined.

Lemma spin_grid_is_valid_witness :
  exists reelConfig log1 populated log2,
    generateReelConfiguration test_vrf = Ok (reelConfig, log1)
    /\ populateReels SymbolConfigurationService test_vrf reelConfig
       = Ok (populated, log2)
    /\ validateReelConfiguration reelConfig false = true
    /\ validateReelConfiguration populated true = true
    /\ (createWeightedSymbolArray SymbolConfigurationService true [] <> [] ->
        forall c, In c (flat_map reel_symbols populated) ->
          exists id, c = Sym id
                     /\ In id (createWeightedSymbolArray
                                 SymbolConfigurationService true [])).
Proof.
  apply (spin_grid_is_valid SymbolConfigurationService test_vrf). reflexivity.
Defined.

(** ** The win evaluator, continued *)

Section Evaluation.

Variable cfg : config.

Lemma find_match_first (target : cell) (syms : list cell) :
  forall i j c,
    find_match cfg target i syms = Some (j, c) ->
    (i <= j)%nat
    /\ nth_error syms (j - i) = Some c
    /\ matches cfg target c = true
    /\ forall k c', (k < j - i)%nat -> nth_error syms k = Some c' ->
                    matches cfg target c' = false.
Proof.
  induction syms as [|s syms IH]; intros i j c H; [discriminate|].
  cbn [find_match] in H. destruct (matches cfg target s) eqn:M.
  - injection H as <- <-. rewrite Nat.sub_diag.
    repeat split; [lia|exact M|]. intros k c' Hk. lia.
  - destruct (IH _ _ _ H) as (Hle & Hn & Hm & Hfirst).
    replace (j - i)%nat with (S (j - S i)) by lia.
    repeat split; [lia|exact Hn|exact Hm|].
    intros [|k] c' Hk Hc'; [cbn in Hc'; congruence|].
    cbn in Hc'. apply (Hfirst k); [lia|exact Hc'].
Qed.

Lemma findSymbolCombination_from_positions (target : cell) (reels : list reel) :
  forall i,
    map pos_reel (findSymbolCombination_from cfg target i reels)
    = seq i (run_length cfg target reels)
    /\ forall p, In p (findSymbolCombination_from cfg target i reels) ->
         (i <= pos_reel p)%nat
         /\ exists r,
              nth_error reels (pos_reel p - i) = Some r
              /\ nth_error (reel_symbols r) (pos_position p) = Some (pos_symbol p)
              /\ matches cfg target (pos_symbol p) = true
              /\ forall k c, (k < pos_position p)%nat ->
                             nth_error (reel_symbols r) k = Some c ->
                             matches cfg target c = false.
Proof.
  induction reels as [|r reels IH]; intros i.
  - split; [reflexivity|intros p []].
  - cbn [findSymbolCombination_from run_length]. unfold reel_holds.
    destruct (find_match cfg target 0 (reel_symbols r)) as [[si sy]|] eqn:E.
    + replace (existsb (matches cfg target) (reel_symbols r)) with true.
      2:{ symmetry. apply not_false_iff_true. intros X.
          apply (find_match_holds cfg target (reel_symbols r) 0%nat) in X.
          congruence. }
      destruct (IH (S i)) as (Hseq & Hpos).
      split; [cbn; now rewrite Hseq|].
      intros p [<-|Hin].
      * cbn [pos_reel pos_position pos_symbol]. split; [lia|].
        exists r. rewrite Nat.sub_diag.
        destruct (find_match_first _ _ _ _ _ E) as (_ & Hn & Hm & Hf).
        rewrite Nat.sub_0_r in Hn, Hf. repeat split; assumption.
      * destruct (Hpos p Hin) as (Hle & r' & Hn & Hrest).
        split; [lia|]. exists r'. split; [|exact Hrest].
        replace (pos_reel p - i)%nat with (S (pos_reel p - S i)) by lia.
        exact Hn.
    + apply find_match_holds in E. rewrite E. split; [reflexivity|intros p []].
Qed.

(** X11: the positions of a combination are real cells: they lie on the
    reels 0, 1, 2, ... of the run, one per reel and in this order; each
    names a cell of its reel that holds the recorded symbol, which is the
    target or a wild standing in for it; and it is the topmost such cell
    of the reel. *)
Theorem findSymbolCombination_positions (reels : list reel) (target : cell) :
  map pos_reel (findSymbolCombination cfg reels target)
  = seq 0 (run_length cfg target reels)
  /\ forall p, In p (findSymbolCombination cfg reels target) ->
       exists r,
         nth_error reels (pos_reel p) = Some r
         /\ nth_error (reel_symbols r) (pos_position p) = Some (pos_symbol p)
         /\ matches cfg target (pos_symbol p) = true
         /\ forall k c, (k < pos_position p)%nat ->
                        nth_error (reel_symbols r) k = Some c ->
                        matches cfg target c = false.
Proof.
  destruct (findSymbolCombination_from_positions target reels 0) as (Hs & Hp).
  split; [exact Hs|].
  intros p Hin. destruct (Hp p Hin) as (_ & r & Hn & Hrest).
  exists r. rewrite Nat.sub_0_r in Hn. now split.
Qed.

(** *** One entry per symbol *)

Lemma set_add_NoDup (acc : list cell) (c : cell) :
  NoDup acc -> NoDup (set_add acc c).
Proof.
  intros H. unfold set_add. destruct (existsb (cell_eqb c) acc) eqn:E; [exact H|].
  apply NoDup_app; [exact H|repeat constructor; intros []|].
  intros a Ha [Hc|[]]. subst a.
  assert (existsb (cell_eqb c) acc = true); [|congruence].
  apply existsb_exists. exists c. split; [exact Ha|now apply cell_eqb_eq].
Qed.

Lemma getUniqueSymbols_NoDup (reels : list reel) : NoDup (getUniqueSymbols reels).
Proof.
  unfold getUniqueSymbols.
  assert (G : forall acc, NoDup acc ->
             NoDup (fold_left
                      (fun acc r => fold_left set_add (reel_symbols r) acc)
                      reels acc)).
  { induction reels as [|r reels IH]; intros acc Hacc; [exact Hacc|].
    cbn [fold_left]. apply IH.
    revert acc Hacc. induction (reel_symbols r) as [|c syms IHs];
      intros acc Hacc; [exact Hacc|].
    cbn [fold_left]. now apply IHs, set_add_NoDup. }
  apply G. constructor.
Qed.

Lemma combination_of_symbol (reels : list reel) (s : cell) (c : combination) :
  In c (combination_of cfg reels s) ->
  comb_symbol c = s /\ combination_of cfg reels s = [c].
Proof.
  unfold combination_of.
  destruct (cell_eqb s (Sym "scatter")); [intros []|].
  destruct (3 <=? _)%nat; [|intros []].
  destruct (Qltb 0 _); [|intros []].
  intros [<-|[]]. split; reflexivity.
Qed.

Lemma winning_symbols_NoDup (reels : list reel) (l : list cell) :
  NoDup l -> NoDup (map comb_symbol (flat_map (combination_of cfg reels) l)).
Proof.
  induction 1 as [|s l Hs Hl IH]; [constructor|].
  cbn [flat_map]. rewrite map_app.
  apply NoDup_app; [|exact IH|].
  - destruct (combination_of cfg reels s) as [|c [|c' rest]] eqn:E.
    + constructor.
    + repeat constructor. intros [].
    + destruct (combination_of_symbol reels s c) as (_ & Hone);
        [rewrite E; now left|]. congruence.
  - intros a Ha Hb.
    apply in_map_iff in Ha as (c & <- & Hc).
    apply in_map_iff in Hb as (c' & Heq & Hc').
    apply in_flat_map in Hc' as (s' & Hs' & Hc').
    destruct (combination_of_symbol _ _ _ Hc) as (H1 & _).
    destruct (combination_of_symbol _ _ _ Hc') as (H2 & _).
    apply Hs. congruence.
Qed.

(** X12: a symbol wins at most once per evaluation: the symbols of the
    winning combinations are pairwise distinct, two entries for the same
    symbol are the same entry, and there are no more entries than distinct
    cells on the grid. *)
Theorem one_combination_per_symbol (reels : list reel) :
  NoDup (map comb_symbol (combinations (calculateWinningCombinations cfg reels)))
  /\ (forall c1 c2,
        In c1 (combinations (calculateWinningCombinations cfg reels)) ->
        In c2 (combinations (calculateWinningCombinations cfg reels)) ->
        comb_symbol c1 = comb_symbol c2 -> c1 = c2)
  /\ (List.length (combinations (calculateWinningCombinations cfg reels))
      <= List.length (getUniqueSymbols reels))%nat.
Proof.
  cbn [combinations calculateWinningCombinations]. split; [|split].
  - apply winning_symbols_NoDup, getUniqueSymbols_NoDup.
  - intros c1 c2 H1 H2 Heq.
    apply in_flat_map in H1 as (s1 & _ & H1).
    apply in_flat_map in H2 as (s2 & _ & H2).
    destruct (combination_of_symbol _ _ _ H1) as (E1 & L1).
    destruct (combination_of_symbol _ _ _ H2) as (E2 & L2).
    assert (s1 = s2) by congruence. subst s2. congruence.
  - induction (getUniqueSymbols reels) as [|s l IH]; [cbn; lia|].
    cbn [flat_map]. rewrite length_app. cbn [List.length].
    destruct (combination_of cfg reels s) as [|c [|c' rest]] eqn:E;
      cbn [List.length]; try lia.
    destruct (combination_of_symbol reels s c) as (_ & Hone);
      [rewrite E; now left|]. congruence.
Qed.

(** *** Ways *)

Lemma symbolCount_filter (symbol : cell) (syms : list cell) (n : Z) :
  fold_left
    (fun n reelSymbol =>
       if (cell_eqb reelSymbol symbol || cell_eqb reelSymbol (Sym "wild"))%bool
       then n + 1 else n)
    syms n
  = n + Z.of_nat (List.length (filter (counted symbol) syms)).
Proof.
  revert n. induction syms as [|c syms IH]; intros n; cbn [fold_left filter].
  - cbn. lia.
  - rewrite IH. unfold counted at 2.
    destruct (cell_eqb c symbol || cell_eqb c (Sym "wild"))%bool;
      cbn [List.length]; lia.
Qed.

Lemma countWays_bounds (symbol : cell) (l : list reel) :
  forall a b,
    1 <= a <= b ->
    Forall (fun r => reel_holds cfg symbol r = true) l ->
    1 <= fold_left
           (fun ways r =>
              ways * fold_left
                       (fun n reelSymbol =>
                          if (cell_eqb reelSymbol symbol
                              || cell_eqb reelSymbol (Sym "wild"))%bool
                          then n + 1 else n)
                       (reel_symbols r) 0)
           l a
    /\ (Forall (fun r => List.length (reel_symbols r) = height r) l ->
        fold_left
          (fun ways r =>
             ways * fold_left
                      (fun n reelSymbol =>
                         if (cell_eqb reelSymbol symbol
                             || cell_eqb reelSymbol (Sym "wild"))%bool
                         then n + 1 else n)
                      (reel_symbols r) 0)
          l a
        <= b * heights_product l).
Proof.
  induction l as [|r l IH]; intros a b Hab Hholds.
  - cbn. split; [lia|]. intros _. unfold heights_product. cbn. lia.
  - apply Forall_cons_iff in Hholds as [Hr Hholds].
    cbn [fold_left]. rewrite symbolCount_filter.
    set (n := Z.of_nat (List.length (filter (counted symbol) (reel_symbols r)))).
    assert (Hn1 : 1 <= n).
    { unfold reel_holds in Hr. apply existsb_exists in Hr as (c & Hc & Hm).
      assert (Hin : In c (filter (counted symbol) (reel_symbols r))).
      { apply filter_In. split; [exact Hc|]. unfold counted, matches in *.
        apply orb_true_iff in Hm as [->|Hm]; [reflexivity|].
        apply andb_true_iff in Hm as [_ ->]. apply orb_true_r. }
      subst n. destruct (filter (counted symbol) (reel_symbols r));
        [destruct Hin|cbn [List.length]; lia]. }
    assert (Hn2 : n <= Z.of_nat (List.length (reel_symbols r))).
    { subst n. pose proof (filter_length_le (counted symbol) (reel_symbols r)).
      lia. }
    destruct (IH (a * (0 + n)) (b * Z.of_nat (List.length (reel_symbols r))))
      as (H1 & H2); [nia|exact Hholds|].
    split; [exact H1|].
    intros Hwf. apply Forall_cons_iff in Hwf as [Hlen Hwf].
    specialize (H2 Hwf). rewrite Hlen in H2.
    unfold heights_product in *. cbn [map fold_right]. lia.
Qed.

Lemma run_length_holds (symbol : cell) (reels : list reel) :
  Forall (fun r => reel_holds cfg symbol r = true)
         (firstn (run_length cfg symbol reels) reels).
Proof.
  induction reels as [|r reels IH]; [constructor|].
  cbn [run_length]. destruct (reel_holds cfg symbol r) eqn:E; [|constructor].
  cbn [firstn]. now constructor.
Qed.

Lemma heights_product_app (l1 l2 : list reel) :
  heights_product (l1 ++ l2) = heights_product l1 * heights_product l2.
Proof.
  unfold heights_product. induction l1 as [|r l1 IH]; cbn [app map fold_right].
  - lia.
  - rewrite IH. lia.
Qed.

Lemma heights_product_pos (l : list reel) :
  Forall (fun r => (1 <= height r)%nat) l -> 1 <= heights_product l.
Proof.
  unfold heights_product. induction 1 as [|r l Hr _ IH]; cbn [map fold_right].
  - lia.
  - nia.
Qed.

Lemma validateReelConfiguration_valid (reels : list reel) :
  validateReelConfiguration reels true = true <-> valid_grid reels.
Proof.
  unfold validateReelConfiguration, valid_grid.
  rewrite andb_true_iff, Nat.eqb_eq, forallb_forall, Forall_forall.
  split; intros [Hl H]; (split; [exact Hl|]); intros r Hr; specialize (H r Hr).
  - destruct ((2 <=? height r)%nat && (height r <=? 7)%nat)%bool eqn:E;
      [|discriminate].
    apply andb_true_iff in E as [E1 E2].
    apply Nat.leb_le in E1. apply Nat.leb_le in E2. apply Nat.eqb_eq in H.
    repeat split; assumption.
  - destruct H as ((H2 & H7) & Hlen).
    replace ((2 <=? height r)%nat && (height r <=? 7)%nat)%bool with true.
    + cbn. now apply Nat.eqb_eq.
    + symmetry. apply andb_true_iff. split; now apply Nat.leb_le.
Qed.

(** X13: every winning combination can be made in at least one way, and on
    a grid that [validateReelConfiguration] accepts in no more ways than the
    grid's total [totalWaysToWin]. *)
Theorem waysCount_bounds (reels : list reel) (c : combination) :
  In c (combinations (calculateWinningCombinations cfg reels)) ->
  1 <= waysCount c
  /\ (validateReelConfiguration reels true = true ->
      waysCount c <= totalWaysToWin (calculateWinningCombinations cfg reels)).
Proof.
  cbn [combinations calculateWinningCombinations totalWaysToWin].
  intros Hin. apply in_flat_map in Hin as (s & _ & Hc).
  apply combination_of_in in Hc as (_ & _ & _ & ->). cbn [waysCount].
  unfold countWaysForCombination.
  destruct (countWays_bounds s (firstn (run_length cfg s reels) reels) 1 1
              ltac:(lia) (run_length_holds s reels)) as (H1 & H2).
  split; [exact H1|].
  intros Hv. apply validateReelConfiguration_valid in Hv as (Hlen & Hall).
  assert (Hfst : Forall (fun r => List.length (reel_symbols r) = height r)
                        (firstn (run_length cfg s reels) reels)).
  { rewrite <- (firstn_skipn (run_length cfg s reels) reels) in Hall.
    apply Forall_app in Hall as [Hall _].
    eapply Forall_impl; [|exact Hall]. now intros r [_ H]. }
  specialize (H2 Hfst).
  assert (Hrest : 1 <= heights_product (skipn (run_length cfg s reels) reels)).
  { apply heights_product_pos.
    rewrite <- (firstn_skipn (run_length cfg s reels) reels) in Hall.
    apply Forall_app in Hall as [_ Hall].
    eapply Forall_impl; [|exact Hall]. cbn. intros r [H _]. lia. }
  assert (Hfirst : 1 <= heights_product (firstn (run_length cfg s reels) reels)).
  { apply heights_product_pos.
    rewrite <- (firstn_skipn (run_length cfg s reels) reels) in Hall.
    apply Forall_app in Hall as [Hall _].
    eapply Forall_impl; [|exact Hall]. cbn. intros r [H _]. lia. }
  assert (Hsplit : heights_product reels
                   = heights_product (firstn (run_length cfg s reels) reels)
                     * heights_product (skipn (run_length cfg s reels) reels)).
  { rewrite <- heights_product_app. now rewrite firstn_skipn. }
  assert (Hcap : heights_product reels <= 117649).
  { replace 117649 with (7 ^ Z.of_nat (List.length reels))
      by (rewrite Hlen; reflexivity).
    apply heights_product_bound.
    eapply Forall_impl; [|exact Hall]. cbn. intros r [H _]. lia. }
  rewrite calculateWaysToWin_min. nia.
Qed.

End Evaluation.

Lemma findSymbolCombination_positions_witness :
  exists r,
    nth_error btc_grid 1 = Some r
    /\ nth_error (reel_symbols r) 0 = Some (Sym "btc").
Proof.
  destruct (proj2 (findSymbolCombination_positions SymbolConfigurationService
                     btc_grid (Sym "btc"))
                  (mkPosition 1 0 (Sym "btc")))
    as (r & H1 & H2 & _).
  - right. now left.
  - exists r. split; [exact H1|exact H2].
Defined.

Lemma one_combination_per_symbol_witness :
  NoDup (map comb_symbol
             (combinations
                (calculateWinningCombinations SymbolConfigurationService
                                              test_reels))).
Proof.
  exact (proj1 (one_combination_per_symbol SymbolConfigurationService test_reels)).
Defined.

Lemma waysCount_bounds_witness :
  1 <= waysCount btc_combination
  /\ (validateReelConfiguration btc_grid true = true ->
      waysCount btc_combination
      <= totalWaysToWin
           (calculateWinningCombinations SymbolConfigurationService btc_grid)).
Proof.
  apply (waysCount_bounds SymbolConfigurationService btc_grid btc_combination).
  now left.
Defined.

(** ** The cascade steps *)

Section Steps.

Variable cfg : config.
Variable vrfNumber : string.

Lemma mapi_from_length {A B : Type} (f : nat -> A -> B) (l : list A) :
  forall i, List.length (mapi_from f i l) = List.length l.
Proof. induction l as [|x l IH]; intros i; cbn; [|rewrite IH]; reflexivity. Qed.

Lemma mapi_from_nth {A B : Type} (f : nat -> A -> B) (l : list A) :
  forall i n,
    nth_error (mapi_from f i l) n = option_map (f (i + n)%nat) (nth_error l n).
Proof.
  induction l as [|x l IH]; intros i n.
  - now destruct n.
  - destruct n as [|n]; cbn [mapi_from nth_error option_map].
    + now rewrite Nat.add_0_r.
    + rewrite IH. now rewrite Nat.add_succ_r.
Qed.

Lemma mapi_from_map {A B C : Type} (f : nat -> A -> B) (g : B -> C)
  (h : A -> C) (l : list A) :
  (forall i x, g (f i x) = h x) ->
  forall i, map g (mapi_from f i l) = map h l.
Proof.
  intros H. induction l as [|x l IH]; intros i; cbn; [reflexivity|].
  now rewrite H, IH.
Qed.

Lemma has_key_removed_at (combos : list combination) (ri si : nat) :
  has_key (symbolsToRemove combos) ri si = true <-> removed_at combos ri si.
Proof.
  unfold has_key, symbolsToRemove, removed_at. rewrite existsb_exists. split.
  - intros ([a b] & Hin & Hk). cbn in Hk.
    apply andb_true_iff in Hk as [Ha Hb].
    apply Nat.eqb_eq in Ha. apply Nat.eqb_eq in Hb. subst a b.
    apply in_flat_map in Hin as (c & Hc & Hin).
    apply in_map_iff in Hin as (p & [= <- <-] & Hp). now exists c, p.
  - intros (c & p & Hc & Hp & <- & <-).
    exists (pos_reel p, pos_position p). split.
    + apply in_flat_map. exists c. split; [exact Hc|].
      apply in_map_iff. now exists p.
    + cbn. now rewrite !Nat.eqb_refl.
Qed.

Lemma removeWinningSymbols_shape (reels : list reel) (combos : list combination) :
  shape (removeWinningSymbols reels combos) = shape reels
  /\ map (fun r => List.length (reel_symbols r)) (removeWinningSymbols reels combos)
     = map (fun r => List.length (reel_symbols r)) reels.
Proof.
  unfold removeWinningSymbols, shape, deepCopy. split.
  - rewrite (mapi_from_map _ _ (fun r => (reelIndex r, height r)))
      by reflexivity.
    now rewrite map_map.
  - rewrite (mapi_from_map _ _ (fun r => List.length (reel_symbols r))).
    + rewrite map_map. apply map_ext. intros r. apply length_map.
    + intros i r. cbn [reel_symbols]. apply mapi_from_length.
Qed.

Lemma removeWinningSymbols_cell (reels : list reel) (combos : list combination)
  (ri si : nat) (r : reel) (c : cell) :
  nth_error reels ri = Some r ->
  nth_error (reel_symbols r) si = Some c ->
  exists r',
    nth_error (removeWinningSymbols reels combos) ri = Some r'
    /\ nth_error (reel_symbols r') si
       = Some (if has_key (symbolsToRemove combos) ri si
               then Null else json_cell c).
Proof.
  intros Hr Hc. unfold removeWinningSymbols, deepCopy.
  rewrite mapi_from_nth, nth_error_map, Hr. cbn [option_map Nat.add].
  eexists. split; [reflexivity|]. cbn [reel_symbols].
  now rewrite mapi_from_nth, nth_error_map, Hc.
Qed.

(** X15: [removeWinningSymbols] keeps the reels, their indices, heights
    and numbers of cells; a cell that a position of some combination
    names becomes [null]; every other cell keeps its symbol. *)
Theorem removeWinningSymbols_cells (reels : list reel)
  (combos : list combination) :
  shape (removeWinningSymbols reels combos) = shape reels
  /\ map (fun r => List.length (reel_symbols r)) (removeWinningSymbols reels combos)
     = map (fun r => List.length (reel_symbols r)) reels
  /\ forall ri si r c,
       nth_error reels ri = Some r ->
       nth_error (reel_symbols r) si = Some c ->
       exists r',
         nth_error (removeWinningSymbols reels combos) ri = Some r'
         /\ (removed_at combos ri si ->
             nth_error (reel_symbols r') si = Some Null)
         /\ (~ removed_at combos ri si ->
             nth_error (reel_symbols r') si = Some (json_cell c)).
Proof.
  destruct (removeWinningSymbols_shape reels combos) as (Hs & Hl).
  split; [exact Hs|]. split; [exact Hl|].
  intros ri si r c Hr Hc.
  destruct (removeWinningSymbols_cell reels combos ri si r c Hr Hc)
    as (r' & Hr' & Hcell).
  exists r'. split; [exact Hr'|].
  destruct (has_key (symbolsToRemove combos) ri si) eqn:K.
  - apply has_key_removed_at in K. split; [intros _; exact Hcell|].
    intros N. now elim N.
  - split; [|intros _; exact Hcell].
    intros H. apply has_key_removed_at in H. congruence.
Qed.

(** *** Refill *)

Lemma fill_nil_fresh (syms : list cell) : fill syms [] = syms.
Proof.
  induction syms as [|c syms IH]; [reflexivity|].
  cbn [fill]. rewrite IH. now destruct (cell_eqb c Null).
Qed.

Lemma refill_cells_fill (syms : list cell) :
  forall off syms' off' log,
    refill_cells vrfNumber (createWeightedSymbolArray cfg true []) syms off
    = Ok ((syms', off'), log) ->
    syms' = fill syms (decoded_cells cfg vrfNumber off (nulls syms)).
Proof.
  induction syms as [|c syms IH]; intros off syms' off' log H.
  - now injection H as <- _ _.
  - cbn [refill_cells] in H. unfold nulls. cbn [filter fill].
    destruct (cell_eqb c Null) eqn:Ec.
    + apply bind_Ok in H as (bits & l1 & l2 & Hr & H & _).
      apply bind_Ok in H as ([rest off2] & l3 & l4 & Hrest & H & _).
      injection H as <- _ _.
      cbn [List.length]. fold (nulls syms). rewrite decoded_cells_S.
      rewrite (IH _ _ _ _ Hrest). f_equal.
      unfold readBits in Hr. unfold decoded_cell.
      destruct (extractBits vrfNumber off 8); [|discriminate].
      now injection Hr as <- _.
    + apply bind_Ok in H as ([rest off2] & l3 & l4 & Hrest & H & _).
      injection H as <- _ _. fold (nulls syms).
      now rewrite (IH _ _ _ _ Hrest).
Qed.

Lemma fill_length (syms fresh : list cell) :
  List.length (fill syms fresh) = List.length syms.
Proof.
  revert fresh. induction syms as [|c syms IH]; intros fresh; [reflexivity|].
  cbn [fill]. destruct (cell_eqb c Null); [destruct fresh|];
    cbn [List.length]; now rewrite IH.
Qed.

Lemma fill_keeps (syms : list cell) :
  forall fresh si c,
    nth_error syms si = Some c -> cell_eqb c Null = false ->
    nth_error (fill syms fresh) si = Some c.
Proof.
  induction syms as [|s syms IH]; intros fresh si c Hn Hc; [now destruct si|].
  cbn [fill]. destruct si as [|si]; cbn [nth_error] in *.
  - injection Hn as ->. now rewrite Hc.
  - destruct (cell_eqb s Null); [destruct fresh|]; cbn [nth_error];
      now apply IH.
Qed.

Lemma fill_app (a b fresh1 fresh2 : list cell) :
  List.length fresh1 = nulls a ->
  fill (a ++ b) (fresh1 ++ fresh2) = (fill a fresh1 ++ fill b fresh2)%list.
Proof.
  revert fresh1. induction a as [|c a IH]; intros fresh1 Hl.
  - destruct fresh1; [reflexivity|discriminate].
  - unfold nulls in Hl. cbn [filter] in Hl. cbn [app fill].
    destruct (cell_eqb c Null).
    + destruct fresh1 as [|f fresh1]; [discriminate|].
      cbn [app]. f_equal. apply IH. cbn in Hl. now injection Hl.
    + cbn [app]. f_equal. now apply IH.
Qed.

Lemma decoded_cells_length (off : Z) (n : nat) :
  List.length (decoded_cells cfg vrfNumber off n) = n.
Proof. unfold decoded_cells. now rewrite length_map, length_seq. Qed.

Lemma refill_reels_fill (reels : list reel) :
  forall off reels' log,
    refill_reels vrfNumber (createWeightedSymbolArray cfg true []) reels off
    = Ok (reels', log) ->
    shape reels' = shape reels
    /\ flat_map reel_symbols reels'
       = fill (flat_map reel_symbols reels)
              (decoded_cells cfg vrfNumber off (count_null reels))
    /\ Forall2 (fun r' r =>
                  exists fresh, reel_symbols r' = fill (reel_symbols r) fresh)
               reels' reels.
Proof.
  induction reels as [|r reels IH]; intros off reels' log H.
  - injection H as <- _. repeat split. constructor.
  - cbn [refill_reels] in H.
    apply bind_Ok in H as ([syms off1] & l1 & l2 & Hc & H & _).
    apply bind_Ok in H as (rest & l3 & l4 & Hrest & H & _).
    injection H as <- _.
    pose proof (refill_cells_fill _ _ _ _ _ Hc) as Hsyms.
    destruct (refill_cells_Ok vrfNumber _ _ _ _ _ _ Hc) as (_ & -> & _).
    destruct (IH _ _ _ Hrest) as (Hsh & Hflat & Hall).
    unfold shape in *. cbn [map reelIndex height flat_map reel_symbols count_null
                              fold_right].
    fold (count_null reels). rewrite Hsh.
    split; [reflexivity|]. split.
    + rewrite Hflat, Hsyms, <- decoded_cells_app.
      symmetry. apply fill_app. apply decoded_cells_length.
    + constructor; [|exact Hall]. cbn [reel_symbols]. eexists. exact Hsyms.
Qed.

Lemma shape_deepCopy (reels : list reel) : shape (deepCopy reels) = shape reels.
Proof. unfold shape, deepCopy. now rewrite map_map. Qed.

Lemma shape_heights (l l' : list reel) :
  shape l = shape l' -> map height l = map height l'.
Proof.
  unfold shape. intros H.
  apply (f_equal (map snd)) in H. now rewrite !map_map in H.
Qed.

Lemma Forall2_nth {A B : Type} (R : A -> B -> Prop) (l : list A) (l' : list B) :
  Forall2 R l l' ->
  forall i y, nth_error l' i = Some y ->
  exists x, nth_error l i = Some x /\ R x y.
Proof.
  induction 1 as [|x y l l' Hxy _ IH]; intros i z Hi; [now destruct i|].
  destruct i as [|i]; cbn in *.
  - injection Hi as <-. now exists x.
  - now apply IH.
Qed.

Lemma Forall2_lengths (l' l : list reel) :
  Forall2 (fun r' r =>
             exists fresh, reel_symbols r' = fill (reel_symbols r) fresh) l' l ->
  map (fun r => List.length (reel_symbols r)) l'
  = map (fun r => List.length (reel_symbols r)) l.
Proof.
  induction 1 as [|r' r l' l (fresh & Hf) _ IH]; [reflexivity|].
  cbn [map]. now rewrite Hf, fill_length, IH.
Qed.

(** X16: [generateNewSymbols] keeps the reels, their indices, heights and
    numbers of cells, and every symbol in its place; it leaves no [null]
    cell; it reads one byte per [null] cell, consecutively from the offset
    it is given; and the empty cells, taken reel by reel from the top,
    receive in this order what those bytes select from the weighted
    pool. *)
Theorem generateNewSymbols_fills (reels refilled : list reel) (off : Z)
  (log : list read) :
  generateNewSymbols cfg reels vrfNumber off = Ok (refilled, log) ->
  shape refilled = shape reels
  /\ map (fun r => List.length (reel_symbols r)) refilled
     = map (fun r => List.length (reel_symbols r)) reels
  /\ no_null refilled = true
  /\ log = byte_reads off (count_null (deepCopy reels))
  /\ flat_map reel_symbols refilled
     = fill (flat_map reel_symbols (deepCopy reels))
            (decoded_cells cfg vrfNumber off (count_null (deepCopy reels)))
  /\ (forall ri si r id,
        nth_error reels ri = Some r ->
        nth_error (reel_symbols r) si = Some (Sym id) ->
        exists r',
          nth_error refilled ri = Some r'
          /\ nth_error (reel_symbols r') si = Some (Sym id)).
Proof.
  intros H.
  destruct (generateNewSymbols_Ok cfg vrfNumber _ _ _ _ H) as (Hnn & Hlog).
  unfold generateNewSymbols in H.
  destruct (refill_reels_fill _ _ _ _ H) as (Hsh & Hflat & Hall).
  rewrite shape_deepCopy in Hsh.
  split; [exact Hsh|]. split.
  { rewrite (Forall2_lengths _ _ Hall).
    now destruct (deepCopy_shape reels) as (_ & _ & ->). }
  split; [exact Hnn|]. split; [exact Hlog|]. split; [exact Hflat|].
  intros ri si r id Hr Hc.
  assert (Hlen : List.length refilled = List.length (deepCopy reels)).
  { apply (f_equal (@List.length _)) in Hsh. unfold shape in Hsh.
    rewrite !length_map in Hsh. unfold deepCopy. now rewrite length_map. }
  destruct (nth_error refilled ri) as [r'|] eqn:Er'.
  2:{ apply nth_error_None in Er'. rewrite Hlen in Er'.
      unfold deepCopy in Er'. rewrite length_map in Er'.
      apply nth_error_None in Er'. congruence. }
  exists r'. split; [reflexivity|].
  assert (Hall' : Forall2 (fun r r' =>
                             exists fresh,
                               reel_symbols r' = fill (reel_symbols r) fresh)
                          (deepCopy reels) refilled).
  { clear -Hall. induction Hall; constructor; assumption. }
  destruct (Forall2_nth _ _ _ Hall' ri r' Er') as (r0 & Hr0 & fresh & ->).
  unfold deepCopy in Hr0. rewrite nth_error_map, Hr in Hr0.
  injection Hr0 as <-. cbn [reel_symbols].
  apply fill_keeps; [|reflexivity].
  now rewrite nth_error_map, Hc.
Qed.

(** *** The bits of a cascade step *)

Lemma fold_nulls_count (syms : list cell) (n : Z) :
  fold_left (fun n symbol => if cell_eqb symbol Null then n + 1 else n) syms n
  = n + Z.of_nat (nulls syms).
Proof.
  revert n. unfold nulls.
  induction syms as [|c syms IH]; intros n; cbn [fold_left filter].
  - cbn. lia.
  - rewrite IH. destruct (cell_eqb c Null); cbn [List.length]; lia.
Qed.

Lemma calculateVrfBitsNeeded_count (reels : list reel) :
  calculateVrfBitsNeeded reels = 8 * Z.of_nat (count_null reels).
Proof.
  unfold calculateVrfBitsNeeded.
  assert (G : forall n,
             fold_left
               (fun n r =>
                  fold_left
                    (fun n symbol => if cell_eqb symbol Null then n + 1 else n)
                    (reel_symbols r) n)
               reels n
             = n + Z.of_nat (count_null reels)).
  { induction reels as [|r reels IH]; intros n; cbn [fold_left count_null fold_right].
    - lia.
    - rewrite IH, fold_nulls_count. fold (count_null reels). lia. }
  rewrite G. lia.
Qed.

Lemma nulls_symbols (syms : list cell) :
  defined_cells syms ->
  (nulls syms + List.length (filter is_symbol syms))%nat = List.length syms.
Proof.
  unfold nulls. induction 1 as [|c syms Hc _ IH]; [reflexivity|].
  destruct c; cbn [filter cell_eqb is_symbol List.length]; try lia.
  now elim Hc.
Qed.

Lemma nulls_app (a b : list cell) : nulls (a ++ b) = (nulls a + nulls b)%nat.
Proof. unfold nulls. now rewrite filter_app, length_app. Qed.

Lemma nulls_repeat (n : nat) : nulls (repeat Null n) = n.
Proof. unfold nulls. induction n; cbn; congruence. Qed.

Lemma nulls_of_symbols (l : list cell) :
  forallb is_symbol l = true -> nulls (map json_cell l) = 0%nat.
Proof.
  unfold nulls. induction l as [|c l IH]; [reflexivity|].
  cbn. intros H. apply andb_true_iff in H as [Hc Hl].
  destruct c; try discriminate. cbn. now apply IH.
Qed.

Lemma json_repeat_Null (k : nat) : map json_cell (repeat Null k) = repeat Null k.
Proof. induction k; cbn; congruence. Qed.

(** After the drop a reel has as many empty cells as its height exceeds
    the number of its symbols. *)
Lemma count_null_dropped (reels : list reel) :
  count_null (deepCopy (dropSymbolsDown reels))
  = fold_right
      (fun r n =>
         (height r - List.length (filter is_symbol (reel_symbols r)) + n)%nat)
      0%nat reels.
Proof.
  rewrite dropSymbolsDown_map. unfold deepCopy. rewrite map_map.
  induction reels as [|r reels IH]; [reflexivity|].
  cbn [map count_null fold_right reel_symbols]. fold (count_null) in *.
  f_equal; [|exact IH].
  rewrite drop_reel_cells, map_app, nulls_app, json_repeat_Null, nulls_repeat.
  rewrite nulls_of_symbols; [lia|].
  apply forallb_skipn, filter_is_symbol_all.
Qed.

Lemma count_null_drop_kept (reels : list reel) :
  cells_match_height reels ->
  Forall (fun r => defined_cells (reel_symbols r)) reels ->
  count_null (deepCopy (dropSymbolsDown reels)) = count_null reels.
Proof.
  rewrite count_null_dropped. unfold cells_match_height.
  induction reels as [|r reels IH]; intros Hm Hd; [reflexivity|].
  apply Forall_cons_iff in Hm as [Hr Hm]. apply Forall_cons_iff in Hd as [Hdr Hd].
  cbn [fold_right count_null]. fold (count_null reels).
  rewrite (IH Hm Hd). pose proof (nulls_symbols _ Hdr). lia.
Qed.

Lemma mapi_from_Forall {A B : Type} (P : B -> Prop) (f : nat -> A -> B)
  (l : list A) :
  (forall i x, In x l -> P (f i x)) -> forall i, Forall P (mapi_from f i l).
Proof.
  induction l as [|x l IH]; intros H i; cbn; constructor.
  - apply H. now left.
  - apply IH. intros j y Hy. apply H. now right.
Qed.

Lemma removeWinningSymbols_defined (reels : list reel) (combos : list combination) :
  Forall (fun r => defined_cells (reel_symbols r))
         (removeWinningSymbols reels combos).
Proof.
  unfold removeWinningSymbols. apply mapi_from_Forall.
  intros ri r Hr. cbn [reel_symbols]. apply mapi_from_Forall.
  intros si c Hc. destruct (has_key _ ri si); [discriminate|].
  unfold deepCopy in Hr. apply in_map_iff in Hr as (r0 & <- & _).
  cbn [reel_symbols] in Hc. apply in_map_iff in Hc as (c0 & <- & _).
  now destruct c0.
Qed.

Lemma byte_reads_length (off : Z) (n : nat) :
  List.length (byte_reads off n) = n.
Proof. unfold byte_reads. now rewrite length_map, length_seq. Qed.

Lemma cells_match_height_transfer (l' l : list reel) :
  shape l' = shape l ->
  map (fun r => List.length (reel_symbols r)) l'
  = map (fun r => List.length (reel_symbols r)) l ->
  cells_match_height l -> cells_match_height l'.
Proof.
  unfold cells_match_height, shape. revert l.
  induction l' as [|r' l' IH]; intros [|r l] Hs Hl H; try discriminate;
    constructor.
  - cbn [map] in Hs, Hl. injection Hs as _ Hh _. injection Hl as Hl _.
    apply Forall_cons_iff in H as [H _]. congruence.
  - cbn [map] in Hs, Hl. injection Hs as _ _ Hs. injection Hl as _ Hl.
    apply Forall_cons_iff in H as [_ H]. now apply (IH l).
Qed.

(** X17: [calculateVrfBitsNeeded] is 8 bits for each [null] cell
    ([undefined] cells do not count); and in [simulateCascadeStep], on a
    grid whose reels have as many cells as their height, the [vrfBitsUsed]
    it reports, counted before the drop, is exactly the number of bits the
    refill then reads, consecutively from the offset given. *)
Theorem simulateCascadeStep_bits (reels : list reel)
  (combos : list combination) (off : Z) (step : cascade_step)
  (log : list read) :
  cells_match_height reels ->
  simulateCascadeStep cfg reels combos vrfNumber off = Ok (step, log) ->
  (forall grid, calculateVrfBitsNeeded grid = 8 * Z.of_nat (count_null grid))
  /\ vrfBitsUsed step = 8 * Z.of_nat (List.length log)
  /\ log = byte_reads off (List.length log)
  /\ shape (step_reelState step) = shape reels
  /\ no_null (step_reelState step) = true.
Proof.
  intros Hm H. split; [exact calculateVrfBitsNeeded_count|].
  unfold simulateCascadeStep in H.
  apply bind_Ok in H as (refilled & l1 & l2 & Hg & H & ->).
  injection H as <- <-. cbn [vrfBitsUsed step_reelState]. rewrite app_nil_r.
  destruct (generateNewSymbols_Ok cfg vrfNumber _ _ _ _ Hg) as (Hnn & ->).
  destruct (removeWinningSymbols_shape reels combos) as (Hs & Hl).
  assert (Hm' : cells_match_height (removeWinningSymbols reels combos))
    by exact (cells_match_height_transfer _ _ Hs Hl Hm).
  rewrite (count_null_drop_kept _ Hm' (removeWinningSymbols_defined reels combos)).
  rewrite byte_reads_length.
  split; [apply calculateVrfBitsNeeded_count|]. split; [reflexivity|].
  split; [|exact Hnn].
  unfold generateNewSymbols in Hg.
  destruct (refill_reels_fill _ _ _ _ Hg) as (Hsh & _).
  rewrite Hsh, shape_deepCopy, dropSymbolsDown_map.
  unfold shape at 1. rewrite map_map. cbn [reelIndex height drop_reel].
  exact Hs.
Qed.

End Steps.

Lemma removeWinningSymbols_cells_witness :
  exists r',
    nth_error (removeWinningSymbols btc_grid [btc_combination]) 1 = Some r'
    /\ (removed_at [btc_combination] 1 0 ->
        nth_error (reel_symbols r') 0 = Some Null)
    /\ (~ removed_at [btc_combination] 1 0 ->
        nth_error (reel_symbols r') 0 = Some (json_cell (Sym "btc"))).
Proof.
  apply (proj2 (proj2 (removeWinningSymbols_cells btc_grid [btc_combination]))
           1%nat 0%nat
           (mkReel None 3 [Sym "btc"; Sym "defi_token"; Sym "nft_common"]));
    reflexivity.
Defined.

Lemma generateNewSymbols_fills_witness :
  exists refilled log,
    generateNewSymbols SymbolConfigurationService drop_example test_vrf 0
    = Ok (refilled, log)
    /\ shape refilled = shape drop_example
    /\ no_null refilled = true
    /\ log = byte_reads 0 5.
Proof.
  do 2 eexists. split; [vm_compute; reflexivity|].
  match goal with
  | |- shape ?g = _ /\ _ /\ ?l = _ =>
      destruct (generateNewSymbols_fills SymbolConfigurationService test_vrf
                  drop_example g 0 l)
        as (H1 & _ & H3 & H4 & _); [vm_compute; reflexivity|]
  end.
  split; [exact H1|]. split; [exact H3|exact H4].
Defined.

Lemma simulateCascadeStep_bits_witness :
  exists step log,
    simulateCascadeStep SymbolConfigurationService btc_grid [btc_combination]
                        test_vrf 0
    = Ok (step, log)
    /\ vrfBitsUsed step = 8 * Z.of_nat (List.length log)
    /\ vrfBitsUsed step = 24.
Proof.
  do 2 eexists. split; [vm_compute; reflexivity|].
  match goal with
  | |- vrfBitsUsed ?st = 8 * Z.of_nat (List.length ?l) /\ _ =>
      destruct (simulateCascadeStep_bits SymbolConfigurationService test_vrf
                  btc_grid [btc_combination] 0 st l)
        as (_ & H2 & _); [repeat constructor|vm_compute; reflexivity|]
  end.
  split; [exact H2|reflexivity].
Defined.

(** ** The results of a spin *)

Section Results.

Variable cfg : config.
Variable vrfNumber : string.
Variable betAmount : Q.

Lemma cascade_loop_unfold (fuel : nat) (st : cascade_state) :
  cascade_loop cfg vrfNumber betAmount (S fuel) st
  = if loop_condition st then
      bind (loop_refill cfg vrfNumber st)
           (fun refilled =>
              if hasWins (calculateWinningCombinations cfg refilled)
              then cascade_loop cfg vrfNumber betAmount fuel
                     (loop_next cfg betAmount st refilled)
              else ret (loop_break st refilled))
    else ret st.
Proof. reflexivity. Qed.

Lemma processCascadingReels_unfold (reels : list reel) :
  processCascadingReels cfg reels vrfNumber betAmount
  = if hasWins (calculateWinningCombinations cfg (deepCopy reels)) then
      bind (cascade_loop cfg vrfNumber betAmount maxCascades
              (loop_start cfg betAmount reels))
           (fun st => ret (finish st))
    else ret (no_cascade cfg reels).
Proof. reflexivity. Qed.

(** The rule of the loop: an invariant of the iterations that go on, and
    what it gives when the loop is left. *)
Lemma cascade_loop_rule (I : nat -> cascade_state -> Prop)
  (Post : cascade_state -> Prop) :
  (forall fuel st refilled l,
      I (S fuel) st -> loop_condition st = true ->
      loop_refill cfg vrfNumber st = Ok (refilled, l) ->
      hasWins (calculateWinningCombinations cfg refilled) = true ->
      I fuel (loop_next cfg betAmount st refilled)) ->
  (forall fuel st refilled l,
      I (S fuel) st -> loop_condition st = true ->
      loop_refill cfg vrfNumber st = Ok (refilled, l) ->
      hasWins (calculateWinningCombinations cfg refilled) = false ->
      Post (loop_break st refilled)) ->
  (forall fuel st,
      I fuel st -> fuel = 0%nat \/ loop_condition st = false -> Post st) ->
  forall fuel st st' log,
    I fuel st ->
    cascade_loop cfg vrfNumber betAmount fuel st = Ok (st', log) ->
    Post st'.
Proof.
  intros Hnext Hbreak Hexit.
  induction fuel as [|fuel IH]; intros st st' log HI Hrun.
  - injection Hrun as <- _. apply (Hexit 0%nat); [exact HI|now left].
  - rewrite cascade_loop_unfold in Hrun.
    destruct (loop_condition st) eqn:Hc.
    2:{ injection Hrun as <- _. apply (Hexit (S fuel)); [exact HI|now right]. }
    apply bind_Ok in Hrun as (refilled & l1 & l2 & Hg & Hk & _).
    destruct (hasWins (calculateWinningCombinations cfg refilled)) eqn:Hw.
    + apply (IH _ _ _ (Hnext _ _ _ _ HI Hc Hg Hw) Hk).
    + injection Hk as <- _. apply (Hbreak _ _ _ _ HI Hc Hg Hw).
Qed.

(** *** The grids of a spin *)

Lemma shape_drop (reels : list reel) :
  shape (dropSymbolsDown reels) = shape reels.
Proof.
  rewrite dropSymbolsDown_map. unfold shape. rewrite map_map. reflexivity.
Qed.

Lemma drop_cells_match (reels : list reel) :
  cells_match_height (dropSymbolsDown reels).
Proof.
  rewrite dropSymbolsDown_map. unfold cells_match_height.
  apply Forall_map, Forall_forall. intros r _.
  cbn [drop_reel reel_symbols height]. unfold drop_cells.
  now rewrite length_map, length_seq.
Qed.

Lemma deepCopy_cells_match (reels : list reel) :
  cells_match_height reels -> cells_match_height (deepCopy reels).
Proof.
  apply cells_match_height_transfer; [apply shape_deepCopy|].
  now destruct (deepCopy_shape reels) as (_ & _ & ->).
Qed.

Lemma json_cell_idempotent (c : cell) : json_cell (json_cell c) = json_cell c.
Proof. now destruct c. Qed.

Lemma deepCopy_idempotent (reels : list reel) :
  deepCopy (deepCopy reels) = deepCopy reels.
Proof.
  unfold deepCopy. rewrite map_map. apply map_ext. intros r.
  cbn [reelIndex height reel_symbols]. f_equal. rewrite map_map.
  apply map_ext, json_cell_idempotent.
Qed.

(** *** Refilled grids hold symbols *)

Lemma extractBits_byte (off bits : Z) :
  extractBits vrfNumber off 8 = Ok bits -> 0 <= bits.
Proof.
  destruct (JS.BigInt vrfNumber) as [v|e] eqn:Hv.
  - rewrite (extractBits_BigInt vrfNumber v off 8 Hv). intros [= <-].
    pose proof (masked_range (Z.shiftr v off) 8 ltac:(lia)) as Hr.
    change (2 ^ 8 - 1) with 255 in Hr. rewrite Number_exact; lia.
  - unfold extractBits. rewrite Hv. discriminate.
Qed.

Lemma refill_cells_symbols (w : list string) (syms : list cell) :
  w <> [] ->
  forall off syms' off' log,
    refill_cells vrfNumber w syms off = Ok ((syms', off'), log) ->
    Forall (fun c => c = Null \/ is_symbol c = true) syms ->
    forallb is_symbol syms' = true.
Proof.
  intros Hw. induction syms as [|c syms IH]; intros off syms' off' log H Hs.
  - now injection H as <- _ _.
  - apply Forall_cons_iff in Hs as [Hc Hs]. cbn [refill_cells] in H.
    destruct (cell_eqb c Null) eqn:Ec.
    + apply bind_Ok in H as (bits & l1 & l2 & Hr & H & _).
      apply bind_Ok in H as ([rest off2] & l3 & l4 & Hrest & H & _).
      injection H as <- _ _.
      unfold readBits in Hr.
      destruct (extractBits vrfNumber off 8) as [b|] eqn:E; [|discriminate].
      injection Hr as <- _.
      destruct (pick_in_pool w b Hw (extractBits_byte _ _ E)) as (id & -> & _).
      cbn [forallb is_symbol andb]. exact (IH _ _ _ _ Hrest Hs).
    + apply bind_Ok in H as ([rest off2] & l3 & l4 & Hrest & H & _).
      injection H as <- _ _. cbn [forallb].
      rewrite (IH _ _ _ _ Hrest Hs).
      destruct Hc as [-> | Hc]; [discriminate|now rewrite Hc].
Qed.

Lemma refill_reels_symbols (w : list string) :
  w <> [] ->
  forall reels off reels' log,
    refill_reels vrfNumber w reels off = Ok (reels', log) ->
    Forall (fun r => Forall (fun c => c = Null \/ is_symbol c = true)
                            (reel_symbols r)) reels ->
    all_symbols reels' = true.
Proof.
  intros Hw. induction reels as [|r reels IH]; intros off reels' log H Hs.
  - now injection H as <- _.
  - apply Forall_cons_iff in Hs as [Hr Hs]. cbn [refill_reels] in H.
    apply bind_Ok in H as ([syms off1] & l1 & l2 & Hc & H & _).
    apply bind_Ok in H as (rest & l3 & l4 & Hrest & H & _).
    injection H as <- _.
    unfold all_symbols. cbn [forallb reel_symbols].
    rewrite (refill_cells_symbols w _ Hw _ _ _ _ Hc Hr).
    exact (IH _ _ _ Hrest Hs).
Qed.

(** After the drop every cell is [null] or a symbol. *)
Lemma dropped_cells (reels : list reel) :
  Forall (fun r => Forall (fun c => c = Null \/ is_symbol c = true)
                          (reel_symbols r))
         (deepCopy (dropSymbolsDown reels)).
Proof.
  rewrite dropSymbolsDown_map. unfold deepCopy. rewrite map_map.
  apply Forall_map, Forall_forall. intros r _.
  cbn [reel_symbols]. fold (reel_symbols (drop_reel r)).
  rewrite drop_reel_cells, map_app, json_repeat_Null.
  apply Forall_app. split.
  - apply Forall_forall. intros c Hc. left. now apply repeat_spec in Hc.
  - apply Forall_map, Forall_forall. intros c Hc. right.
    pose proof (forallb_skipn is_symbol
                  (List.length (filter is_symbol (reel_symbols r)) - height r)
                  _ (filter_is_symbol_all (reel_symbols r))) as Hall.
    rewrite forallb_forall in Hall. specialize (Hall c Hc).
    now destruct c.
Qed.

Lemma all_symbols_deepCopy (reels : list reel) :
  all_symbols reels = true -> deepCopy reels = reels.
Proof.
  unfold all_symbols, deepCopy. induction reels as [|r reels IH];
    [reflexivity|].
  cbn [forallb map]. intros H. apply andb_true_iff in H as [Hr Hs].
  rewrite (IH Hs). f_equal. destruct r as [i h syms]. cbn in *. f_equal.
  induction syms as [|c syms IHs]; [reflexivity|].
  cbn in Hr. apply andb_true_iff in Hr as [Hc Hr].
  cbn [map]. rewrite (IHs Hr). now destruct c.
Qed.

(** An iteration's refill keeps the shape of the grid and leaves every
    reel with as many cells as its height, none of them [null]. *)
Lemma loop_refill_grid (st : cascade_state) (refilled : list reel)
  (l : list read) :
  loop_refill cfg vrfNumber st = Ok (refilled, l) ->
  shape refilled = shape (currentReels st)
  /\ cells_match_height refilled
  /\ no_null refilled = true
  /\ (createWeightedSymbolArray cfg true [] <> [] ->
      all_symbols refilled = true).
Proof.
  unfold loop_refill. intros H.
  destruct (generateNewSymbols_Ok cfg vrfNumber _ _ _ _ H) as (Hnn & _).
  unfold generateNewSymbols in H.
  destruct (refill_reels_fill cfg vrfNumber _ _ _ _ H) as (Hsh & _ & Hall).
  split; [|split; [|split; [exact Hnn|]]].
  - rewrite Hsh, shape_deepCopy, shape_drop.
    apply removeWinningSymbols_shape.
  - apply (cells_match_height_transfer _ _ Hsh (Forall2_lengths _ _ Hall)).
    apply deepCopy_cells_match, drop_cells_match.
  - intros Hw. apply (refill_reels_symbols _ Hw _ _ _ _ H).
    apply dropped_cells.
Qed.

Lemma last_snoc {A : Type} (l : list A) (x d : A) : last (l ++ [x]) d = x.
Proof. apply last_last. Qed.

Lemma hasWins_combinations (reels : list reel) :
  hasWins (calculateWinningCombinations cfg reels) = true
  <-> combinations (calculateWinningCombinations cfg reels) <> [].
Proof.
  cbn [hasWins combinations calculateWinningCombinations].
  rewrite negb_true_iff, Nat.eqb_neq.
  destruct (flat_map _ _); cbn; split; intros H; congruence.
Qed.

Lemma cascade_loop_grid (reels : list reel) :
  forall fuel st st' log,
    grid_invariant cfg reels fuel st ->
    cascade_loop cfg vrfNumber betAmount fuel st = Ok (st', log) ->
    grid_outcome cfg reels st'.
Proof.
  apply cascade_loop_rule.
  - (* the iteration goes on *)
    intros fuel st refilled l
           (Hs & Hrs & Hrc & Hrw & Hlen & Hfuel & Hcw & Hw & _ & _) Hc Hg Hwin.
    destruct (loop_refill_grid _ _ _ Hg) as (Hsh & Hcm & Hnn & Hsy).
    unfold loop_condition in Hc. apply andb_true_iff in Hc as [_ Hlt].
    apply Nat.ltb_lt in Hlt.
    unfold grid_invariant, loop_next, loop_round.
    cbn [currentReels cascadeResults cascadeLevel currentWins level totalPayout].
    split; [congruence|].
    split.
    { apply Forall_app. split; [exact Hrs|]. constructor; [|constructor].
      cbn [reelState]. rewrite shape_deepCopy. congruence. }
    split.
    { apply Forall_app. split; [exact Hrc|]. constructor; [|constructor].
      cbn [reelState]. intros _. now apply deepCopy_cells_match. }
    split.
    { apply Forall_app. split; [exact Hrw|]. constructor; [|constructor].
      exists refilled. cbn [reelState winningCombinations level].
      split; [reflexivity|]. split; [reflexivity|]. split; [exact Hwin|].
      intros Hp. split; [|intros _; exact (Hsy Hp)].
      apply all_symbols_deepCopy, Hsy, Hp. }
    split; [rewrite length_app; cbn; lia|].
    split; [lia|]. split; [reflexivity|]. split; [exact Hwin|].
    split.
    { eexists. split; [apply last_snoc|]. split; [|reflexivity].
      apply in_or_app. right. now left. }
    right. split; [exact Hcm|]. now split.
  - (* the loop is left by [break] *)
    intros fuel st refilled l
           (Hs & Hrs & Hrc & Hrw & Hlen & Hfuel & Hcw & Hw & _ & _) Hc Hg Hwin.
    destruct (loop_refill_grid _ _ _ Hg) as (Hsh & Hcm & Hnn & Hsy).
    unfold loop_condition in Hc. apply andb_true_iff in Hc as [_ Hlt].
    apply Nat.ltb_lt in Hlt.
    unfold grid_outcome, loop_break. cbn [currentReels cascadeResults].
    split; [congruence|]. split; [exact Hrs|]. split; [exact Hrc|].
    split; [exact Hrw|].
    split; [intros E; rewrite E in Hlen; discriminate|].
    split; [exact Hcm|]. split; [exact Hnn|]. split; [exact Hsy|].
    split; [|intros E; lia].
    rewrite Hwin. split; [discriminate|lia].
  - (* the loop is left through its condition *)
    intros fuel st (Hs & Hrs & Hrc & Hrw & Hlen & Hfuel & Hcw & Hw & Hlast & Hcur)
           Hexit.
    assert (Hlev : cascadeLevel st = maxCascades).
    { destruct Hexit as [->|Hc]; [lia|].
      unfold loop_condition in Hc. rewrite Hw in Hc. cbn [andb] in Hc.
      apply Nat.ltb_ge in Hc. lia. }
    destruct Hcur as [H0|(Hcm & Hnn & Hsy)];
      [rewrite Hlev in H0; discriminate|].
    destruct Hlast as (r & Hl & Hin & Hr).
    unfold grid_outcome.
    split; [exact Hs|]. split; [exact Hrs|]. split; [exact Hrc|].
    split; [exact Hrw|].
    split; [intros E; rewrite E in Hlen; discriminate|].
    split; [exact Hcm|]. split; [exact Hnn|]. split; [exact Hsy|].
    split; [rewrite <- Hcw, Hw, Hlen, Hlev; now split|].
    intros _. now exists r.
Qed.

Lemma loop_start_grid (reels : list reel) :
  hasWins (calculateWinningCombinations cfg (deepCopy reels)) = true ->
  grid_invariant cfg reels maxCascades (loop_start cfg betAmount reels).
Proof.
  intros Hw. unfold grid_invariant, loop_start, first_round.
  cbn [currentReels cascadeResults cascadeLevel currentWins level totalPayout].
  split; [apply shape_deepCopy|].
  split.
  { constructor; [|constructor]. cbn [reelState].
    now rewrite !shape_deepCopy. }
  split.
  { constructor; [|constructor]. cbn [level]. lia. }
  split.
  { constructor; [|constructor]. exists (deepCopy reels).
    cbn [reelState winningCombinations level].
    split; [reflexivity|]. split; [reflexivity|]. split; [exact Hw|].
    intros _. split; [apply deepCopy_idempotent|lia]. }
  split; [reflexivity|]. split; [unfold maxCascades; lia|].
  split; [reflexivity|].
  split; [exact Hw|].
  split; [|now left].
  eexists. split; [reflexivity|]. split; [now left|]. reflexivity.
Qed.

(** The two ways [processCascadingReels] returns. *)
Lemma processCascadingReels_cases (reels : list reel) (res : cascade_result)
  (log : list read) :
  processCascadingReels cfg reels vrfNumber betAmount = Ok (res, log) ->
  (hasWins (calculateWinningCombinations cfg (deepCopy reels)) = false
   /\ res = no_cascade cfg reels /\ log = [])
  \/ (hasWins (calculateWinningCombinations cfg (deepCopy reels)) = true
      /\ exists st,
           cascade_loop cfg vrfNumber betAmount maxCascades
             (loop_start cfg betAmount reels) = Ok (st, log)
           /\ res = finish st).
Proof.
  rewrite processCascadingReels_unfold.
  destruct (hasWins (calculateWinningCombinations cfg (deepCopy reels))).
  - intros H. apply bind_Ok in H as (st & l1 & l2 & Hl & Hf & ->).
    injection Hf as <- <-. rewrite app_nil_r.
    right. split; [reflexivity|]. now exists st.
  - intros [= <- <-]. left. repeat split.
Qed.

(** X18: every grid of a spin has the reels of the initial grid, with
    their indices and heights: the grid of each round and the final one.
    From the first cascade on every reel of a recorded grid has as many
    cells as its height; and after a winning spin the final grid is
    full: as many cells as the height in every reel, none of them
    [null]. *)
Theorem processCascadingReels_grids (reels : list reel) (res : cascade_result)
  (log : list read) :
  processCascadingReels cfg reels vrfNumber betAmount = Ok (res, log) ->
  shape (finalReelState res) = shape reels
  /\ (forall r, In r (cascades res) -> shape (reelState r) = shape reels)
  /\ (forall r, In r (cascades res) -> (0 < level r)%nat ->
                cells_match_height (reelState r))
  /\ (cascades res <> [] ->
      cells_match_height (finalReelState res)
      /\ no_null (finalReelState res) = true).
Proof.
  intros H.
  destruct (processCascadingReels_cases _ _ _ H)
    as [(_ & -> & _)|(Hw & st & Hloop & ->)].
  - cbn. split; [apply shape_deepCopy|].
    split; [intros r []|]. split; [intros r []|]. intros E. now elim E.
  - destruct (cascade_loop_grid reels _ _ _ _ (loop_start_grid reels Hw) Hloop)
      as (Hs & Hrs & Hrc & _ & _ & Hcm & Hnn & _).
    cbn [finish finalReelState cascades].
    rewrite Forall_forall in Hrs, Hrc.
    split; [exact Hs|]. split; [exact Hrs|]. split; [exact Hrc|].
    intros _. now split.
Qed.

Lemma round_shows_wins (r : cascade_round) :
  round_shows cfg r -> winningCombinations r <> [].
Proof.
  intros (g & _ & -> & Hw & _). now apply hasWins_combinations.
Qed.

(** X19: a spin records rounds exactly when the initial grid wins, and
    every recorded round lists at least one combination.  The final grid
    still holds wins exactly when the cap of [getMaxCascades] cascades after
    the initial round, seven rounds, was reached; the
    final grid is then the grid of the last round.  A grid without wins
    comes back as its copy, and the random value is not read. *)
Theorem processCascadingReels_stops (reels : list reel) (res : cascade_result)
  (log : list read) :
  processCascadingReels cfg reels vrfNumber betAmount = Ok (res, log) ->
  (cascades res <> []
   <-> hasWins (calculateWinningCombinations cfg (deepCopy reels)) = true)
  /\ (forall r, In r (cascades res) -> winningCombinations r <> [])
  /\ (hasWins (calculateWinningCombinations cfg (finalReelState res)) = true
      <-> List.length (cascades res) = S getMaxCascades)
  /\ (List.length (cascades res) = S getMaxCascades ->
      exists r, In r (cascades res)
                /\ last (cascades res) r = r
                /\ reelState r = deepCopy (finalReelState res))
  /\ (cascades res = [] ->
      finalReelState res = deepCopy reels /\ log = []).
Proof.
  intros H.
  destruct (processCascadingReels_cases _ _ _ H)
    as [(Hw & -> & ->)|(Hw & st & Hloop & ->)].
  - cbn [no_cascade finish cascades finalReelState cascadeResults currentReels].
    rewrite Hw. cbn [List.length].
    split; [split; [intros E; now elim E|discriminate]|].
    split; [intros r []|].
    split; [split; discriminate|].
    split; [discriminate|]. intros _. now split.
  - destruct (cascade_loop_grid reels _ _ _ _ (loop_start_grid reels Hw) Hloop)
      as (_ & _ & _ & Hrw & Hne & _ & _ & _ & Hfin & Hlast).
    cbn [finish finalReelState cascades].
    rewrite Forall_forall in Hrw.
    split; [split; [intros _; exact Hw|intros _; exact Hne]|].
    split; [intros r Hr; exact (round_shows_wins r (Hrw r Hr))|].
    split; [exact Hfin|]. split; [exact Hlast|].
    intros E. now elim Hne.
Qed.

(** X20: with a non-empty weighted pool every recorded round shows the
    evaluation of its own grid: its combinations are those the evaluator
    finds on its [reelState]; from the first cascade on that grid holds
    symbols only, and so does the final grid of a winning spin. *)
Theorem rounds_show_their_wins (reels : list reel) (res : cascade_result)
  (log : list read) :
  createWeightedSymbolArray cfg true [] <> [] ->
  processCascadingReels cfg reels vrfNumber betAmount = Ok (res, log) ->
  (forall r, In r (cascades res) ->
     winningCombinations r
     = combinations (calculateWinningCombinations cfg (reelState r))
     /\ hasWins (calculateWinningCombinations cfg (reelState r)) = true
     /\ ((0 < level r)%nat -> all_symbols (reelState r) = true))
  /\ (cascades res <> [] -> all_symbols (finalReelState res) = true).
Proof.
  intros Hp H.
  destruct (processCascadingReels_cases _ _ _ H)
    as [(_ & -> & _)|(Hw & st & Hloop & ->)].
  - cbn. split; [intros r []|]. intros E. now elim E.
  - destruct (cascade_loop_grid reels _ _ _ _ (loop_start_grid reels Hw) Hloop)
      as (_ & _ & _ & Hrw & _ & _ & _ & Hsy & _).
    cbn [finish finalReelState cascades].
    rewrite Forall_forall in Hrw.
    split; [|intros _; exact (Hsy Hp)].
    intros r Hr. destruct (Hrw r Hr) as (g & Hg & Hc & Hwin & Hall).
    destruct (Hall Hp) as (Hid & Hs). rewrite Hg, Hid.
    split; [exact Hc|]. split; [exact Hwin|exact Hs].
Qed.

(** *** Multipliers *)

Lemma multipliers_recorded (rounds : list cascade_round) :
  rounds_recorded betAmount rounds ->
  (List.length rounds <= 7)%nat ->
  map multiplier rounds = firstn (List.length rounds) cascadeMultipliers.
Proof.
  intros Hrec Hlen. apply nth_error_ext. intros n.
  rewrite nth_error_map, nth_error_firstn.
  destruct (Nat.ltb_spec n (List.length rounds)) as [Hn|Hn].
  - destruct (nth_error rounds n) as [r|] eqn:E;
      [|apply nth_error_None in E; lia].
    destruct (Hrec n r E) as (Hl & _ & Hm & _).
    cbn [option_map]. rewrite Hm, Hl, Nat.min_l by lia.
    symmetry. apply nth_error_nth'. cbn. lia.
  - replace (nth_error rounds n) with (@None cascade_round);
      [reflexivity|].
    symmetry. now apply nth_error_None.
Qed.

(** X22: the multipliers of the rounds are the entries of the table, in
    its order, one per round; and [maxMultiplierReached] is the entry for
    the last round, that is [getCascadeMultiplier] of the last level, and
    1 when no round was recorded. *)
Theorem processCascadingReels_maxMultiplier (reels : list reel)
  (res : cascade_result) (log : list read) :
  processCascadingReels cfg reels vrfNumber betAmount = Ok (res, log) ->
  map multiplier (cascades res)
  = firstn (List.length (cascades res)) getCascadeMultipliers
  /\ maxMultiplierReached res
     = match List.length (cascades res) with
       | O => 1%Q
       | S k => getCascadeMultiplier k
       end.
Proof.
  intros H.
  destruct (processCascadingReels_outcome cfg vrfNumber betAmount _ _ _ H)
    as (Hrec & Hlen & _).
  pose proof (multipliers_recorded _ Hrec Hlen) as Hm.
  split; [exact Hm|].
  assert (E : maxMultiplierReached res
              = match map multiplier (cascades res) with
                | [] => 1%Q
                | m :: ms => Math_max m ms
                end).
  { destruct (processCascadingReels_cases _ _ _ H)
      as [(_ & -> & _)|(_ & st & _ & ->)]; reflexivity. }
  rewrite E, Hm. clear E Hm. revert Hlen.
  generalize (List.length (cascades res)). intros n Hlen.
  do 8 (destruct n as [|n]; [reflexivity|]). lia.
Qed.

(** X23: [getCascadeMultiplier] lies between 1 and 20, never decreases
    with the level, and stays at 20 from level 6 on. *)
Theorem getCascadeMultiplier_levels (l l' : nat) :
  (1 <= getCascadeMultiplier l <= 20)%Q
  /\ ((l <= l')%nat -> (getCascadeMultiplier l <= getCascadeMultiplier l')%Q)
  /\ ((l < l' <= 6)%nat -> (getCascadeMultiplier l < getCascadeMultiplier l')%Q)
  /\ ((6 <= l)%nat -> getCascadeMultiplier l = 20%Q).
Proof.
  unfold getCascadeMultiplier. cbn [cascadeMultipliers List.length Nat.sub].
  assert (Hk : forall k, (Nat.min k 6 <= 6)%nat) by (intros; lia).
  assert (Hmono : (l <= l')%nat -> (Nat.min l 6 <= Nat.min l' 6)%nat) by lia.
  assert (Hstrict : (l < l' <= 6)%nat -> (Nat.min l 6 < Nat.min l' 6)%nat) by lia.
  assert (Hcap : (6 <= l)%nat -> Nat.min l 6 = 6%nat) by lia.
  pose proof (Hk l) as Ha. pose proof (Hk l') as Hb.
  revert Ha Hb Hmono Hstrict Hcap.
  generalize (Nat.min l 6) (Nat.min l' 6). intros a b Ha Hb Hmono Hstrict Hcap.
  split; [|split; [|split]].
  - do 7 (destruct a as [|a]; [split; discriminate|]). lia.
  - intros Hl. specialize (Hmono Hl).
    do 7 (destruct a as [|a];
          [do 7 (destruct b as [|b]; [first [discriminate|lia]|]); lia|]).
    lia.
  - intros Hl. specialize (Hstrict Hl).
    do 7 (destruct a as [|a];
          [do 7 (destruct b as [|b]; [first [reflexivity|lia]|]); lia|]).
    lia.
  - intros Hl. rewrite (Hcap Hl). reflexivity.
Qed.

(** *** Validation and statistics *)

Lemma levels_in_order (rounds : list cascade_round) :
  forall k,
    (forall i r, nth_error rounds i = Some r -> level r = (k + i)%nat) ->
    forallb (fun ic => Nat.eqb (level (snd ic)) (fst ic))
            (combine (seq k (List.length rounds)) rounds) = true
    /\ map level rounds = seq k (List.length rounds).
Proof.
  induction rounds as [|r rounds IH]; intros k H; [split; reflexivity|].
  cbn [List.length seq combine forallb map fst snd].
  pose proof (H 0%nat r eq_refl) as Hr. rewrite Nat.add_0_r in Hr.
  destruct (IH (S k)) as (H1 & H2).
  { intros i r' Hi. rewrite (H (S i) r' Hi). lia. }
  rewrite Hr, Nat.eqb_refl, H1, H2. split; reflexivity.
Qed.

(** X24: every result of [processCascadingReels] passes
    [validateCascadeResult], so [calculateCascadeStatistics] never answers
    [null] for it; the statistics repeat the number of rounds and the
    total, list the levels 0, 1, 2, ... with at least one win each, and
    give the maximal multiplier of the result, except that for a spin
    without rounds the statistics say 0 where the result says 1. *)
Theorem statistics_of_a_spin (reels : list reel) (res : cascade_result)
  (log : list read) :
  processCascadingReels cfg reels vrfNumber betAmount = Ok (res, log) ->
  validateCascadeResult res = true
  /\ exists stats,
       calculateCascadeStatistics res = Some stats
       /\ stat_totalCascades stats = List.length (cascades res)
       /\ stat_totalWinnings stats = res_totalWinnings res
       /\ map bd_level (cascadeBreakdown stats)
          = seq 0 (List.length (cascades res))
       /\ Forall (fun b => (1 <= bd_winCount b)%nat) (cascadeBreakdown stats)
       /\ (cascades res <> [] -> maxMultiplier stats = maxMultiplierReached res)
       /\ (cascades res = [] ->
           maxMultiplier stats = 0%Q /\ maxMultiplierReached res = 1%Q).
Proof.
  intros H.
  destruct (processCascadingReels_outcome cfg vrfNumber betAmount _ _ _ H)
    as (Hrec & _ & Hcount & _).
  destruct (levels_in_order (cascades res) 0) as (Hval & Hlev).
  { intros i r Hi. now destruct (Hrec i r Hi) as (-> & _). }
  assert (Hv : validateCascadeResult res = true) by exact Hval.
  split; [exact Hv|].
  unfold calculateCascadeStatistics. rewrite Hv. cbn [negb].
  eexists. split; [reflexivity|].
  cbn [stat_totalCascades stat_totalWinnings cascadeBreakdown maxMultiplier].
  split; [exact Hcount|]. split; [reflexivity|].
  split; [rewrite map_map; exact Hlev|].
  destruct (processCascadingReels_cases _ _ _ H)
    as [(_ & -> & _)|(Hw & st & Hloop & ->)].
  - cbn. split; [constructor|]. split; [intros E; now elim E|].
    intros _. split; reflexivity.
  - destruct (cascade_loop_grid reels _ _ _ _ (loop_start_grid reels Hw) Hloop)
      as (_ & _ & _ & Hrw & Hne & _).
    cbn [finish cascades maxMultiplierReached] in *.
    split.
    { apply Forall_map. eapply Forall_impl; [|exact Hrw].
      intros r Hr. cbn [bd_winCount].
      apply round_shows_wins in Hr.
      destruct (winningCombinations r); [now elim Hr|cbn; lia]. }
    split; [|intros E; now elim Hne].
    intros _. destruct (map multiplier (cascadeResults st)) eqn:E;
      [|reflexivity].
    apply map_eq_nil in E. now elim Hne.
Qed.

(** *** A malformed random value *)

Lemma refill_cells_no_nulls (w : list string) (syms : list cell) :
  nulls syms = 0%nat ->
  forall off, refill_cells vrfNumber w syms off = Ok ((syms, off), []).
Proof.
  unfold nulls. induction syms as [|c syms IH]; intros H off; [reflexivity|].
  cbn [refill_cells filter] in *.
  destruct (cell_eqb c Null); [discriminate|].
  rewrite (IH H off). reflexivity.
Qed.

Lemma refill_cells_throws (e : js_error) (w : list string) (syms : list cell) :
  JS.BigInt vrfNumber = Throw e ->
  (0 < nulls syms)%nat ->
  forall off, refill_cells vrfNumber w syms off = Throw e.
Proof.
  intros He. unfold nulls.
  induction syms as [|c syms IH]; intros H off; [cbn in H; lia|].
  cbn [refill_cells filter] in *.
  destruct (cell_eqb c Null).
  - unfold readBits, extractBits. rewrite He. reflexivity.
  - rewrite (IH H off). reflexivity.
Qed.

Lemma refill_reels_throws (e : js_error) (w : list string) (reels : list reel) :
  JS.BigInt vrfNumber = Throw e ->
  (0 < count_null reels)%nat ->
  forall off, refill_reels vrfNumber w reels off = Throw e.
Proof.
  intros He. induction reels as [|r reels IH]; intros H off; [cbn in H; lia|].
  cbn [refill_reels count_null fold_right] in *. fold (count_null reels) in H.
  destruct (nulls (reel_symbols r)) as [|n] eqn:En.
  - rewrite (refill_cells_no_nulls w _ En off). cbn [bind].
    rewrite (IH H off). reflexivity.
  - assert (Hn : (0 < nulls (reel_symbols r))%nat) by (rewrite En; lia).
    rewrite (refill_cells_throws e w _ He Hn off). reflexivity.
Qed.

Lemma count_null_cell (reels : list reel) :
  forall ri si r,
    nth_error reels ri = Some r ->
    nth_error (reel_symbols r) si = Some Null ->
    (0 < count_null reels)%nat.
Proof.
  induction reels as [|r0 reels IH]; intros ri si r Hr Hc; [now destruct ri|].
  cbn [count_null fold_right]. fold (count_null reels).
  destruct ri as [|ri]; cbn [nth_error] in Hr.
  - injection Hr as ->. apply nth_error_In in Hc.
    assert (Hin : In Null (filter (fun c => cell_eqb c Null) (reel_symbols r)))
      by (apply filter_In; now split).
    unfold nulls. destruct (filter _ _); [destruct Hin|cbn; lia].
  - pose proof (IH _ _ _ Hr Hc). lia.
Qed.

(** A winning evaluation names a cell of the grid. *)
Lemma winning_position (g : list reel) :
  hasWins (calculateWinningCombinations cfg g) = true ->
  exists ri si r c,
    removed_at (combinations (calculateWinningCombinations cfg g)) ri si
    /\ nth_error g ri = Some r
    /\ nth_error (reel_symbols r) si = Some c.
Proof.
  intros Hw. apply hasWins_combinations in Hw.
  destruct (combinations (calculateWinningCombinations cfg g)) as [|c0 rest] eqn:E;
    [now elim Hw|].
  assert (Hin : In c0 (combinations (calculateWinningCombinations cfg g)))
    by (rewrite E; now left).
  rewrite <- E. clear E Hw.
  pose proof Hin as Hin'.
  cbn [combinations calculateWinningCombinations] in Hin'.
  apply in_flat_map in Hin' as (s & _ & Hc).
  apply combination_of_in in Hc as (_ & Hrun & _ & Ec).
  rewrite <- (findSymbolCombination_length cfg) in Hrun.
  destruct (findSymbolCombination cfg g s) as [|p ps] eqn:Ep; [cbn in Hrun; lia|].
  destruct (findSymbolCombination_from_positions cfg s g 0) as (_ & Hpos).
  destruct (Hpos p) as (_ & r & Hr & Hcell & _).
  { unfold findSymbolCombination in Ep. rewrite Ep. now left. }
  rewrite Nat.sub_0_r in Hr.
  exists (pos_reel p), (pos_position p), r, (pos_symbol p).
  split; [|now split].
  exists c0, p. split; [exact Hin|]. split; [|now split].
  rewrite Ec. cbn [comb_positions]. now left.
Qed.

(** X25: a random value that [BigInt] rejects goes unnoticed when the
    initial grid has no wins, since the value is then never read; when the
    grid wins (every reel holding as many cells as its height) the first
    refill throws the error of [BigInt], and so does
    [processCascadingReels]. *)
Theorem processCascadingReels_malformed (e : js_error) (reels : list reel) :
  JS.BigInt vrfNumber = Throw e ->
  (hasWins (calculateWinningCombinations cfg (deepCopy reels)) = false ->
   processCascadingReels cfg reels vrfNumber betAmount
   = Ok (no_cascade cfg reels, []))
  /\ (hasWins (calculateWinningCombinations cfg (deepCopy reels)) = true ->
      cells_match_height reels ->
      processCascadingReels cfg reels vrfNumber betAmount = Throw e).
Proof.
  intros He. rewrite processCascadingReels_unfold. split.
  - intros ->. reflexivity.
  - intros Hw Hm. rewrite Hw.
    change maxCascades with (S 5). rewrite cascade_loop_unfold.
    unfold loop_condition, loop_start at 1.
    cbn [currentWins cascadeLevel]. rewrite Hw. cbn [andb].
    change ((0 <? maxCascades)%nat) with true. cbv iota.
    unfold loop_refill, loop_start, generateNewSymbols.
    cbn [currentReels currentWins vrfOffset].
    rewrite (refill_reels_throws e); [reflexivity|exact He|].
    pose proof (deepCopy_cells_match _ Hm) as Hm'.
    set (g := deepCopy reels) in *.
    set (combos := combinations (calculateWinningCombinations cfg g)).
    destruct (removeWinningSymbols_shape g combos) as (Hs & Hl).
    rewrite (count_null_drop_kept _
               (cells_match_height_transfer _ _ Hs Hl Hm')
               (removeWinningSymbols_defined g combos)).
    destruct (winning_position g Hw) as (ri & si & r & c & Hrem & Hr & Hc).
    destruct (removeWinningSymbols_cell g combos ri si r c Hr Hc)
      as (r' & Hr' & Hc').
    apply has_key_removed_at in Hrem. fold combos in Hrem.
    rewrite Hrem in Hc'.
    exact (count_null_cell _ _ _ _ Hr' Hc').
Qed.

End Results.

Lemma processCascadingReels_grids_witness :
  exists res log,
    processCascadingReels SymbolConfigurationService test_reels test_vrf 100
    = Ok (res, log)
    /\ shape (finalReelState res) = shape test_reels
    /\ (cascades res <> [] ->
        cells_match_height (finalReelState res)
        /\ no_null (finalReelState res) = true).
Proof.
  destruct (processCascadingReels_returns SymbolConfigurationService test_vrf
              100 _ test_reels eq_refl) as (res & log & H).
  exists res, log. split; [exact H|].
  destruct (processCascadingReels_grids SymbolConfigurationService test_vrf 100
              test_reels res log H) as (H1 & _ & _ & H4).
  split; [exact H1|exact H4].
Defined.

Lemma processCascadingReels_stops_witness :
  exists res log,
    processCascadingReels SymbolConfigurationService test_reels test_vrf 100
    = Ok (res, log)
    /\ (hasWins (calculateWinningCombinations SymbolConfigurationService
                   (finalReelState res)) = true
        <-> List.length (cascades res) = S getMaxCascades).
Proof.
  destruct (processCascadingReels_returns SymbolConfigurationService test_vrf
              100 _ test_reels eq_refl) as (res & log & H).
  exists res, log. split; [exact H|].
  exact (proj1 (proj2 (proj2
           (processCascadingReels_stops SymbolConfigurationService test_vrf 100
              test_reels res log H)))).
Defined.

Lemma rounds_show_their_wins_witness :
  exists res log,
    processCascadingReels SymbolConfigurationService test_reels test_vrf 100
    = Ok (res, log)
    /\ (cascades res <> [] -> all_symbols (finalReelState res) = true).
Proof.
  destruct (processCascadingReels_returns SymbolConfigurationService test_vrf
              100 _ test_reels eq_refl) as (res & log & H).
  exists res, log. split; [exact H|].
  apply (rounds_show_their_wins SymbolConfigurationService test_vrf 100
           test_reels res log); [discriminate|exact H].
Defined.

Lemma processCascadingReels_maxMultiplier_witness :
  exists res log,
    processCascadingReels SymbolConfigurationService test_reels test_vrf 100
    = Ok (res, log)
    /\ maxMultiplierReached res
       = match List.length (cascades res) with
         | O => 1%Q
         | S k => getCascadeMultiplier k
         end.
Proof.
  destruct (processCascadingReels_returns SymbolConfigurationService test_vrf
              100 _ test_reels eq_refl) as (res & log & H).
  exists res, log. split; [exact H|].
  exact (proj2 (processCascadingReels_maxMultiplier SymbolConfigurationService
                  test_vrf 100 test_reels res log H)).
Defined.

Lemma getCascadeMultiplier_levels_witness :
  (getCascadeMultiplier 2 <= getCascadeMultiplier 9)%Q
  /\ (getCascadeMultiplier 2 < getCascadeMultiplier 4)%Q
  /\ getCascadeMultiplier 9 = 20%Q.
Proof.
  destruct (getCascadeMultiplier_levels 2 9) as (_ & H1 & _).
  destruct (getCascadeMultiplier_levels 2 4) as (_ & _ & H2 & _).
  destruct (getCascadeMultiplier_levels 9 9) as (_ & _ & _ & H3).
  split; [apply H1; lia|]. split; [apply H2; lia|apply H3; lia].
Defined.

Lemma statistics_of_a_spin_witness :
  exists res log,
    processCascadingReels SymbolConfigurationService test_reels test_vrf 100
    = Ok (res, log)
    /\ validateCascadeResult res = true.
Proof.
  destruct (processCascadingReels_returns SymbolConfigurationService test_vrf
              100 _ test_reels eq_refl) as (res & log & H).
  exists res, log. split; [exact H|].
  exact (proj1 (statistics_of_a_spin SymbolConfigurationService test_vrf 100
                  test_reels res log H)).
Defined.

Lemma processCascadingReels_malformed_witness :
  processCascadingReels SymbolConfigurationService btc_grid "xyz" 100
  = Throw SyntaxError.
Proof.
  apply (proj2 (processCascadingReels_malformed SymbolConfigurationService
                  "xyz" 100 SyntaxError btc_grid eq_refl)).
  - reflexivity.
  - repeat constructor.
Defined.

(** ** The renderer's scale *)

Section Renderer.

Lemma Qle_bool_false (a b : Q) : Qle_bool a b = false -> ~ (a <= b)%Q.
Proof. intros H Hle. apply Qle_bool_iff in Hle. congruence. Qed.

(** X26: [calculateResponsiveScale] lies between 0.8 and 1.1 and never
    decreases as the screen gets wider. *)
Theorem calculateResponsiveScale_monotone (w w' : Q) :
  (0.8 <= calculateResponsiveScale w <= 1.1)%Q
  /\ ((w <= w')%Q ->
      (calculateResponsiveScale w <= calculateResponsiveScale w')%Q).
Proof.
  unfold calculateResponsiveScale. split.
  - destruct (Qle_bool w 768); [split; discriminate|].
    destruct (Qle_bool w 1024); [split; discriminate|].
    destruct (Qle_bool w 1920); split; discriminate.
  - intros Hle.
    destruct (Qle_bool w 768) eqn:A1; destruct (Qle_bool w 1024) eqn:A2;
      destruct (Qle_bool w 1920) eqn:A3;
      destruct (Qle_bool w' 768) eqn:B1; destruct (Qle_bool w' 1024) eqn:B2;
      destruct (Qle_bool w' 1920) eqn:B3;
      try discriminate;
      repeat match goal with
             | H : Qle_bool _ _ = true |- _ => apply Qle_bool_iff in H
             | H : Qle_bool _ _ = false |- _ => apply Qle_bool_false in H
             end;
      match goal with
      | H1 : (w' <= ?c)%Q, H3 : ~ (w <= ?c)%Q |- _ =>
          elim H3; exact (Qle_trans _ _ _ Hle H1)
      end.
Qed.

End Renderer.

Lemma calculateResponsiveScale_monotone_witness :
  (calculateResponsiveScale 800 <= calculateResponsiveScale 1200)%Q.
Proof.
  apply (proj2 (calculateResponsiveScale_monotone 800 1200)).
  unfold Qle. cbn. lia.
Defined.

(** ** Symbols by type *)

Section Types.

Variable cfg : config.

(** X27: the four types split the catalog: every symbol is listed by
    [getSymbolsByType] for exactly its own type, so the four lists together
    are as long as [getAllSymbolIds]; and the pool built without specials
    draws its ids from [getRegularSymbols] only, from those of positive
    weight. *)
Theorem getSymbolsByType_split (excludeSymbols : list string) :
  (List.length (getRegularSymbols cfg)
   + List.length (getSymbolsByType cfg wild)
   + List.length (getSymbolsByType cfg scatter)
   + List.length (getSymbolsByType cfg nft_premium))%nat
  = List.length (getAllSymbolIds cfg)
  /\ (forall s t t',
        In s (getSymbolsByType cfg t) -> In s (getSymbolsByType cfg t') ->
        t = t')
  /\ (forall x,
        In x (createWeightedSymbolArray cfg false excludeSymbols) ->
        exists s, In s (getRegularSymbols cfg)
                  /\ sym_id s = x /\ (0 < sym_weight s)%Q).
Proof.
  unfold getRegularSymbols, getSymbolsByType, getAllSymbolIds.
  split; [|split].
  - induction (symbols cfg) as [|[k d] l IH]; [reflexivity|].
    cbn [map filter snd List.length]. rewrite <- IH.
    destruct (sym_type d); cbn [symbol_type_eqb List.length]; lia.
  - intros s t t' H H'. apply filter_In in H as (_ & H).
    apply filter_In in H' as (_ & H').
    destruct (sym_type s), t, t'; try discriminate; reflexivity.
  - intros x Hx. rewrite createWeightedSymbolArray_flat in Hx.
    apply in_flat_map in Hx as (kv & Hin & Hx).
    destruct (pooled false excludeSymbols (snd kv)) eqn:P; [|destruct Hx].
    pose proof (repeat_spec _ _ _ Hx) as ->.
    unfold pooled in P. apply andb_true_iff in P as [_ P]. cbn [orb] in P.
    exists (snd kv). split; [|split; [reflexivity|]].
    + apply filter_In. split; [|exact P]. apply in_map_iff. now exists kv.
    + apply pushes_positive. destruct (pushes (snd kv)); [destruct Hx|lia].
Qed.

End Types.

Lemma getSymbolsByType_split_witness :
  exists s,
    In s (getRegularSymbols SymbolConfigurationService)
    /\ sym_id s = "diamond_hands" /\ (0 < sym_weight s)%Q.
Proof.
  apply (proj2 (proj2 (getSymbolsByType_split SymbolConfigurationService []))).
  vm_compute. now left.
Defined.
